(** * cloud-android-orchestration: the client transport layer

    A shallow embedding of package [client] (the retrying transport, the
    calls of the service built on it, the polling-to-channel signalling
    bridge and the parallel chunked uploader), of the configuration of
    package [cli], and of the operation waiter exercised by the tests of
    package [instances], with the properties the specification states
    about them and further properties of the code.

    Conventions.  Go's [int], [int64] and [time.Duration] are 64-bit
    two's-complement integers: they are modelled as [Z] and every
    arithmetic operation of the source goes through [wrap64].  Go maps
    keyed by strings are [gmap string _]; slices are lists.  Goroutines
    and channels are modelled as labelled transition systems whose labels
    name the goroutine that moves and carry what the environment (server,
    clock, scheduler) decided. *)

From Stdlib Require Import ZArith Lia Strings.Ascii Strings.Byte Floats Uint63.
From stdpp Require Import base decidable option list strings gmap pretty.

Local Open Scope Z_scope.

(** ** 64-bit integers *)

Module Int64.

Definition min_int : Z := - 2 ^ 63.
Definition max_int : Z := 2 ^ 63 - 1.

(** Two's-complement reduction to the range of [int64]. *)
Definition wrap64 (z : Z) : Z := (z + 2 ^ 63) mod 2 ^ 64 - 2 ^ 63.

Definition add64 (a b : Z) : Z := wrap64 (a + b).
Definition sub64 (a b : Z) : Z := wrap64 (a - b).
Definition mul64 (a b : Z) : Z := wrap64 (a * b).

(** Go's [/] on integers truncates toward zero and panics on a zero
    divisor ([None]). *)
Definition div64 (a b : Z) : option Z :=
  if decide (b = 0) then None else Some (wrap64 (Z.quot a b)).

Definition in_range (z : Z) : Prop := min_int <= z <= max_int.

Lemma wrap64_small z : in_range z -> wrap64 z = z.
Proof.
  unfold in_range, min_int, max_int, wrap64. intros Hz.
  rewrite Z.mod_small; lia.
Qed.

Lemma wrap64_range z : in_range (wrap64 z).
Proof.
  unfold in_range, min_int, max_int, wrap64.
  pose proof (Z.mod_pos_bound (z + 2 ^ 63) (2 ^ 64)). lia.
Qed.

Lemma add64_small a b : in_range (a + b) -> add64 a b = a + b.
Proof. apply wrap64_small. Qed.

Lemma sub64_small a b : in_range (a - b) -> sub64 a b = a - b.
Proof. apply wrap64_small. Qed.

Lemma mul64_small a b : in_range (a * b) -> mul64 a b = a * b.
Proof. apply wrap64_small. Qed.

Lemma div64_pos a b :
  0 <= a <= max_int -> 0 < b -> div64 a b = Some (a / b).
Proof.
  intros Ha Hb. unfold div64. rewrite decide_False by lia.
  rewrite Z.quot_div_nonneg by lia. f_equal. apply wrap64_small.
  unfold in_range, min_int, max_int in *.
  assert (0 <= a / b) by (apply Z.div_pos; lia).
  assert (a / b <= a) by (apply Z.div_le_upper_bound; nia).
  lia.
Qed.

End Int64.

(** ** The resilient transport: [doRequestWithOpts] *)

Module Transport.

(** [ApiCallError], the structured error payload of a non-2xx answer. *)
Record ApiCallError := {
  Code : Z;
  ErrorMsg : string;
  Details : string
}.

(** [ApiCallError.Is]: value equality of the three fields. *)
Definition ApiCallError_Is (e a : ApiCallError) : bool :=
  bool_decide (Code a = Code e) && bool_decide (ErrorMsg a = ErrorMsg e)
  && bool_decide (Details a = Details e).

Lemma ApiCallError_Is_eq e a : ApiCallError_Is e a = true <-> a = e.
Proof.
  unfold ApiCallError_Is. rewrite !andb_true_iff, !bool_decide_eq_true.
  split; [|by intros ->].
  intros [[Hc Hm] Hd]. destruct e, a; simpl in *. by subst.
Qed.

(** The errors [doRequestWithOpts] returns, one constructor per [return]
    of the source. *)
Inductive error :=
| ErrMarshal          (* "Error marshaling request" *)
| ErrCreateRequest    (* "Error creating request" *)
| ErrDumpRequest      (* "Error dumping request" *)
| ErrSend             (* "Error sending request" *)
| ErrDumpResponse     (* "Error dumping response" *)
| ErrDecode           (* "Error decoding response" *)
| ErrApi (e : ApiCallError).

Record request := {
  req_method : string;
  req_url : string;
  req_body : option string;
  req_header : gmap string (list string)
}.

(** An HTTP answer.  [dumpable] says whether [httputil.DumpResponse]
    succeeds on it (it fails when the body cannot be read). *)
Record response := {
  StatusCode : Z;
  Status : string;
  Body : string;
  dumpable : bool
}.

(** What the transport does to the outside world, in order. *)
Inductive event :=
| EvDumpRequest (r : request)
| EvSend (r : request)
| EvDumpResponse (r : response)
| EvBodyClose
| EvSleep (d : Z).

Definition isRetryableErrorCode (code : Z) : bool :=
  bool_decide (code = 503) || bool_decide (code = 502).

(** [http.Header.Add] and [http.Header.Set] on canonical keys. *)
Definition Header_Add (canon : string -> string) (k v : string)
    (h : gmap string (list string)) : gmap string (list string) :=
  <[canon k := default [] (h !! canon k) ++ [v]]> h.

Definition Header_Set (canon : string -> string) (k v : string)
    (h : gmap string (list string)) : gmap string (list string) :=
  <[canon k := [v]]> h.

Section DoRequest.

(** The request and response payload types, their JSON codecs, and the
    collaborators of the call: they belong to [encoding/json] and
    [net/http], so they are parameters here. *)
Context {reqT respT : Type}.
Variable marshal : reqT -> option string.
Variable decode : string -> option respT.
(** [Decode] works in place: when it fails on a body it has already
    stored what it decoded before the error.  [decodePartial] is what the
    caller's value then holds ([None]: nothing was stored). *)
Variable decodePartial : string -> option respT.
Variable decodeApiError : string -> option ApiCallError.
Variable CanonicalMIMEHeaderKey : string -> string.
(** [http.NewRequest] accepts the method and URL. *)
Variable newRequestOk : string -> string -> bool.
(** [httputil.DumpRequestOut] succeeds. *)
Variable dumpRequestOk : request -> bool.
(** [client.Do]: what the [k]-th transmission of the request comes
    back with ([None]: a connection-level failure, which includes a
    transport that cannot replay the body of a request it already
    sent). *)
Variable Do : request -> nat -> option response.

(** The [ServiceOptions] the transport reads. *)
Variable RootEndpoint : string.
Variable RetryAttempts : Z.
Variable RetryDelay : Z.

(** The outcome of a call: the returned error ([None] is Go's [nil]),
    the value stored through [respl] if any, and the trace of effects. *)
Record outcome := {
  out_err : option error;
  out_respl : option respT;
  out_trace : list event
}.

Definition fail (e : error) (tr : list event) : outcome :=
  {| out_err := Some e; out_respl := None; out_trace := tr |}.

(** Lines 547-568: interpret the final answer.  Only the last branch
    decodes into the caller's value; a body that fails to decode there
    leaves in it what the decoder had stored by then. *)
Definition finish (method : string) (respl : bool) (res : response)
    (tr : list event) : outcome :=
  if negb (dumpable res) then fail ErrDumpResponse (tr ++ [EvBodyClose]) else
  let tr := tr ++ [EvDumpResponse res; EvBodyClose] in
  if decide (StatusCode res < 200 \/ StatusCode res > 299) then
    if decide (method = "DELETE") then
      fail (ErrApi {| Code := 0; ErrorMsg := Status res; Details := "" |}) tr
    else
      match decodeApiError (Body res) with
      | None => fail ErrDecode tr
      | Some errpl => fail (ErrApi errpl) tr
      end
  else if respl then
    match decode (Body res) with
    | None => {| out_err := Some ErrDecode;
                 out_respl := decodePartial (Body res); out_trace := tr |}
    | Some v => {| out_err := None; out_respl := Some v; out_trace := tr |}
    end
  else {| out_err := None; out_respl := None; out_trace := tr |}.

(** Lines 536-546: the retry loop.  [left] is the number of iterations
    the guard [i < c.RetryAttempts] still allows, [k] the number of
    transmissions made so far. *)
Fixpoint retryLoop (method : string) (respl : bool) (req : request)
    (left : nat) (k : nat) (res : response) (tr : list event) : outcome :=
  match left with
  | O => finish method respl res tr
  | S left' =>
      if isRetryableErrorCode (StatusCode res) then
        if negb (dumpable res) then
          fail ErrDumpResponse (tr ++ [EvBodyClose])
        else
          let tr := tr ++ [EvDumpResponse res; EvBodyClose;
                           EvSleep RetryDelay; EvSend req] in
          match Do req k with
          | None => fail ErrSend tr
          | Some res' => retryLoop method respl req left' (S k) res' tr
          end
      else finish method respl res tr
  end.

(** Lines 508-528: marshal the payload and build the request. *)
Definition buildRequest (method path : string) (reqpl : option reqT)
    (opts_Header : option (list (string * list string)))
    : error + request :=
  match (match reqpl with
         | None => Some None
         | Some v => Some <$> marshal v
         end) with
  | None => inl ErrMarshal
  | Some body =>
      let url := RootEndpoint +:+ path in
      if negb (newRequestOk method url) then inl ErrCreateRequest else
      let h0 : gmap string (list string) := ∅ in
      let h1 :=
        foldl (fun h nv =>
                 foldl (fun h v => Header_Add CanonicalMIMEHeaderKey nv.1 v h)
                       h nv.2)
              h0 (default [] opts_Header) in
      let h2 := Header_Set CanonicalMIMEHeaderKey "Content-Type"
                           "application/json" h1 in
      inr {| req_method := method; req_url := url;
             req_body := body; req_header := h2 |}
  end.

Definition doRequestWithOpts (method path : string) (reqpl : option reqT)
    (respl : bool) (opts_Header : option (list (string * list string)))
    : outcome :=
  match buildRequest method path reqpl opts_Header with
  | inl e => fail e []
  | inr req =>
      if negb (dumpRequestOk req) then fail ErrDumpRequest [] else
      let tr := [EvDumpRequest req; EvSend req] in
      match Do req 0%nat with
      | None => fail ErrSend tr
      | Some res =>
          retryLoop method respl req (Z.to_nat RetryAttempts) 1%nat res tr
      end
  end.

Definition doRequest (method path : string) (reqpl : option reqT)
    (respl : bool) : outcome :=
  doRequestWithOpts method path reqpl respl None.

(** The transmissions and the pauses recorded in a trace. *)
Definition sends (tr : list event) : list request :=
  omap (fun e => match e with EvSend r => Some r | _ => None end) tr.

Definition sleeps (tr : list event) : list Z :=
  omap (fun e => match e with EvSleep d => Some d | _ => None end) tr.

(** The effects of one retry after the answer [r]. *)
Definition retryEvents (req : request) (r : response) : list event :=
  [EvDumpResponse r; EvBodyClose; EvSleep RetryDelay; EvSend req].

(** A transient answer: a retryable status, and a body that can be
    dumped. *)
Definition transient (r : response) : Prop :=
  isRetryableErrorCode (StatusCode r) = true /\ dumpable r = true.

(** A successful answer. *)
Definition success (r : response) : Prop :=
  200 <= StatusCode r <= 299 /\ dumpable r = true.

(** The server answers the first transmissions of [req] with [rs], in
    that order, and the next one with [final]. *)
Definition answers (req : request) (rs : list response) (final : response)
    : Prop :=
  forall k : nat, (k <= length rs)%nat -> Do req k = (rs ++ [final]) !! k.

Lemma success_not_retryable r :
  success r -> isRetryableErrorCode (StatusCode r) = false.
Proof.
  intros [Hs _]. unfold isRetryableErrorCode.
  rewrite !bool_decide_eq_false_2 by lia. reflexivity.
Qed.

Lemma transient_not_2xx r :
  transient r -> StatusCode r < 200 \/ StatusCode r > 299.
Proof.
  intros [Hr _]. unfold isRetryableErrorCode in Hr.
  apply orb_true_iff in Hr as [H|H]; apply bool_decide_eq_true in H; lia.
Qed.

(** The loop, run against a script of transient answers followed by a
    non-retryable one: it consumes [min left (length rs)] answers and
    hands the next one to [finish]. *)
Lemma retryLoop_script method respl req final :
  isRetryableErrorCode (StatusCode final) = false ->
  forall rs left k cur rest tr,
    Forall transient rs ->
    rs ++ [final] = cur :: rest ->
    (forall i : nat, (i < length rest)%nat -> Do req (k + i) = rest !! i) ->
    let m := Nat.min left (length rs) in
    retryLoop method respl req left k cur tr =
    finish method respl (default final ((rs ++ [final]) !! m))
           (tr ++ concat (retryEvents req <$> take m rs)).
Proof.
  intros Hfinal rs. induction rs as [|r rs IH]; intros left k cur rest tr Htr Hsplit HDo.
  - simpl in Hsplit. injection Hsplit as <- <-. simpl.
    rewrite Nat.min_0_r. simpl. rewrite app_nil_r.
    destruct left; simpl; [reflexivity|]. rewrite Hfinal. reflexivity.
  - simpl in Hsplit. injection Hsplit as <- <-.
    apply Forall_cons in Htr as [Hr Htr].
    destruct left as [|left]; simpl; [by rewrite app_nil_r|].
    destruct Hr as [Hretry Hdump]. rewrite Hretry, Hdump. simpl.
    assert (Hnext : Do req k = (rs ++ [final]) !! 0%nat).
    { rewrite <- (HDo 0%nat); [by rewrite Nat.add_0_r|].
      rewrite length_app. simpl. lia. }
    rewrite Hnext.
    destruct (rs ++ [final]) as [|cur' rest'] eqn:Hs.
    { destruct rs; discriminate. }
    simpl. rewrite (IH left (S k) cur' rest'); [|done|done|].
    + simpl. rewrite <- app_assoc. reflexivity.
    + intros i Hi. specialize (HDo (S i)). simpl in HDo.
      rewrite <- HDo by lia. f_equal. lia.
Qed.

Lemma sends_retryEvents req (l : list response) :
  sends (concat (retryEvents req <$> l)) = replicate (length l) req.
Proof. induction l as [|r l IH]; simpl; [done|]. by rewrite <- IH. Qed.

Lemma sleeps_retryEvents req (l : list response) :
  sleeps (concat (retryEvents req <$> l)) = replicate (length l) RetryDelay.
Proof. induction l as [|r l IH]; simpl; [done|]. by rewrite <- IH. Qed.

(** What [finish] makes of an answer outside 2xx. *)
Definition errorOf (method : string) (r : response) : error :=
  if decide (method = "DELETE") then
    ErrApi {| Code := 0; ErrorMsg := Status r; Details := "" |}
  else match decodeApiError (Body r) with
       | None => ErrDecode
       | Some errpl => ErrApi errpl
       end.

Lemma finish_success method r tr v :
  success r -> decode (Body r) = Some v ->
  finish method true r tr =
  {| out_err := None; out_respl := Some v;
     out_trace := tr ++ [EvDumpResponse r; EvBodyClose] |}.
Proof.
  intros [Hs Hd] Hv. unfold finish. rewrite Hd. simpl.
  rewrite decide_False by lia. by rewrite Hv.
Qed.

Lemma finish_transient method respl r tr :
  transient r ->
  finish method respl r tr =
  fail (errorOf method r) (tr ++ [EvDumpResponse r; EvBodyClose]).
Proof.
  intros Hr. pose proof (transient_not_2xx r Hr) as Hs.
  destruct Hr as [_ Hd]. unfold finish, errorOf. rewrite Hd. simpl.
  rewrite decide_True by done.
  destruct (decide (method = "DELETE")); [done|].
  by destruct (decodeApiError (Body r)).
Qed.

(** C2, as amended.  When the server answers the first [N]
    transmissions of a request with a transient status (503 or 502) and
    the next one with a 2xx, [doRequestWithOpts] transmits the same
    request [1 + min(RetryAttempts, N)] times: the first transmission and
    [min(RetryAttempts, N)] retries (none for a negative [RetryAttempts]),
    each retry coming right after a pause of [RetryDelay].  If
    [N <= RetryAttempts] it returns no error and the decoded payload of
    the 2xx answer; if [N > RetryAttempts] the retry budget runs out on a
    transient answer and the call returns the error made of that answer,
    with no payload. *)
Theorem doRequestWithOpts_bounded_retry
    (method path : string) (reqpl : option reqT)
    (opts_Header : option (list (string * list string)))
    (req : request) (rs : list response) (final : response) (v : respT) :
  buildRequest method path reqpl opts_Header = inr req ->
  dumpRequestOk req = true ->
  Forall transient rs ->
  success final ->
  answers req rs final ->
  decode (Body final) = Some v ->
  let N := length rs in
  let m := Nat.min (Z.to_nat RetryAttempts) N in
  let last := default final ((rs ++ [final]) !! m) in
  let out := doRequestWithOpts method path reqpl true opts_Header in
  out_trace out =
    [EvDumpRequest req; EvSend req] ++ concat (retryEvents req <$> take m rs)
    ++ [EvDumpResponse last; EvBodyClose]
  /\ sends (out_trace out) = replicate (S m) req
  /\ sleeps (out_trace out) = replicate m RetryDelay
  /\ ((N <= Z.to_nat RetryAttempts)%nat ->
      out_err out = None /\ out_respl out = Some v)
  /\ ((Z.to_nat RetryAttempts < N)%nat ->
      out_err out = Some (errorOf method last) /\ out_respl out = None).
Proof.
  intros Hreq Hdump Hrs Hfinal Hans Hv N m last out.
  assert (Hlen : length (take m rs) = m).
  { rewrite length_take. subst m N. lia. }
  assert (Hrun : out = finish method true last
            ([EvDumpRequest req; EvSend req]
               ++ concat (retryEvents req <$> take m rs))).
  { subst out. unfold doRequestWithOpts. rewrite Hreq, Hdump. simpl.
    pose proof (Hans 0%nat ltac:(lia)) as H0. rewrite H0.
    destruct (rs ++ [final]) as [|cur rest] eqn:Hs.
    { destruct rs; discriminate. }
    simpl.
    rewrite (retryLoop_script method true req final
               (success_not_retryable _ Hfinal) rs _ _ cur rest);
      [|done|done|].
    - subst last m N. by rewrite Hs.
    - intros i Hi. rewrite Hans.
      + by rewrite Hs.
      + assert (length (rs ++ [final]) = S (length rest)) as Hl
          by (by rewrite Hs).
        rewrite length_app in Hl. simpl in Hl. lia. }
  assert (Hcases : ((N <= Z.to_nat RetryAttempts)%nat /\ last = final) \/
                   ((Z.to_nat RetryAttempts < N)%nat /\ transient last)).
  { destruct (decide (N <= Z.to_nat RetryAttempts)%nat) as [Hle|Hgt].
    - left. split; [done|]. subst last m.
      rewrite Nat.min_r by done. subst N.
      by rewrite lookup_app_r, Nat.sub_diag by lia.
    - right. split; [lia|]. subst last m.
      rewrite Nat.min_l by lia.
      assert (Hlt : (Z.to_nat RetryAttempts < length rs)%nat) by (subst N; lia).
      destruct (lookup_lt_is_Some_2 rs _ Hlt) as [r Hr].
      rewrite (lookup_app_l_Some _ _ _ _ Hr). simpl.
      eapply Forall_lookup_1; eauto. }
  assert (Htrace : out_trace out =
      [EvDumpRequest req; EvSend req] ++ concat (retryEvents req <$> take m rs)
      ++ [EvDumpResponse last; EvBodyClose]).
  { rewrite Hrun. destruct Hcases as [[_ Hl]|[_ Hl]].
    - rewrite Hl. rewrite (finish_success _ _ _ v) by done. simpl.
      reflexivity.
    - rewrite finish_transient by done. simpl. reflexivity. }
  split; [exact Htrace|].
  split.
  { rewrite Htrace. unfold sends. rewrite !omap_app. fold (sends (concat (retryEvents req <$> take m rs))).
    rewrite sends_retryEvents, Hlen. simpl. by rewrite app_nil_r. }
  split.
  { rewrite Htrace. unfold sleeps. rewrite !omap_app. fold (sleeps (concat (retryEvents req <$> take m rs))).
    rewrite sleeps_retryEvents, Hlen. simpl. by rewrite app_nil_r. }
  split.
  - intros Hle. destruct Hcases as [[_ Hl]|[Hgt _]]; [|lia].
    rewrite Hrun, Hl, (finish_success _ _ _ v) by done. done.
  - intros Hgt. destruct Hcases as [[Hle _]|[_ Hl]]; [lia|].
    rewrite Hrun, finish_transient by done. done.
Qed.


(** *** Any server *)

Lemma sends_app tr1 tr2 : sends (tr1 ++ tr2) = sends tr1 ++ sends tr2.
Proof. apply omap_app. Qed.

Lemma sleeps_app tr1 tr2 : sleeps (tr1 ++ tr2) = sleeps tr1 ++ sleeps tr2.
Proof. apply omap_app. Qed.

(** The effects of a call up to the answer it ends on, the answers [rs]
    having been retried. *)
Definition attempts (req : request) (rs : list response) : list event :=
  [EvDumpRequest req; EvSend req] ++ concat (retryEvents req <$> rs).

Lemma sends_attempts req rs :
  sends (attempts req rs) = replicate (S (length rs)) req.
Proof.
  unfold attempts. rewrite sends_app, sends_retryEvents. reflexivity.
Qed.

Lemma sleeps_attempts req rs :
  sleeps (attempts req rs) = replicate (length rs) RetryDelay.
Proof.
  unfold attempts. rewrite sleeps_app, sleeps_retryEvents. reflexivity.
Qed.

(** [finish] sends nothing and does not pause. *)
Lemma finish_trace method respl res tr :
  sends (out_trace (finish method respl res tr)) = sends tr
  /\ sleeps (out_trace (finish method respl res tr)) = sleeps tr.
Proof.
  unfold finish, fail.
  repeat (case_match; simpl);
    rewrite sends_app, sleeps_app; simpl; by rewrite !app_nil_r.
Qed.

(** [finish] returns no error only for a 2xx answer, and then stores
    the decoded body if the caller asked for it. *)
Lemma finish_ok method respl res tr :
  out_err (finish method respl res tr) = None ->
  200 <= StatusCode res <= 299
  /\ out_respl (finish method respl res tr) =
     (if respl then decode (Body res) else None)
  /\ (respl = true -> is_Some (out_respl (finish method respl res tr))).
Proof.
  unfold finish, fail.
  repeat (case_match; simpl; try done); intros _;
    (split; [lia|]); split; try done; eauto.
Qed.

(** [finish] returns an error and leaves the caller's value as it was,
    unless the error is that of decoding the body of a 2xx answer. *)
Lemma finish_error method respl res tr e :
  out_err (finish method respl res tr) = Some e ->
  out_respl (finish method respl res tr) = None
  \/ (e = ErrDecode /\ respl = true /\ dumpable res = true
      /\ 200 <= StatusCode res <= 299
      /\ decode (Body res) = None
      /\ out_respl (finish method respl res tr) = decodePartial (Body res)).
Proof.
  unfold finish, fail.
  destruct (dumpable res); simpl; [|by left].
  destruct (decide (StatusCode res < 200 \/ StatusCode res > 299)).
  { destruct (decide (method = "DELETE")); [by left|].
    destruct (decodeApiError (Body res)); by left. }
  destruct respl; [|done].
  destruct (decode (Body res)) eqn:Hdec; simpl; [done|].
  intros [= <-]. right. repeat (split; [done || lia|]). done.
Qed.

(** The loop against any server: it retries a run [rs] of transient
    answers, no longer than the guard allows, and ends on the next
    transmission: on its failure, or on its answer when that one is not
    transient or the guard is used up. *)
Lemma retryLoop_any method respl req : forall left k res tr,
  Do req k = Some res ->
  exists rs : list response,
    (length rs <= left)%nat
    /\ Forall transient rs
    /\ (forall (i : nat) r, rs !! i = Some r -> Do req (k + i) = Some r)
    /\ match Do req (k + length rs) with
       | None =>
           retryLoop method respl req left (S k) res tr =
           fail ErrSend (tr ++ concat (retryEvents req <$> rs))
       | Some last =>
           (length rs = left \/ ~ transient last)
           /\ retryLoop method respl req left (S k) res tr =
              finish method respl last
                (tr ++ concat (retryEvents req <$> rs))
       end.
Proof.
  induction left as [|left IH]; intros k res tr Hres.
  - exists []. simpl. rewrite Nat.add_0_r, Hres, app_nil_r.
    split; [done|]. split; [done|]. split; [done|]. split; [by left|done].
  - simpl. destruct (isRetryableErrorCode (StatusCode res)) eqn:Hretry.
    + destruct (dumpable res) eqn:Hdump; simpl.
      * destruct (Do req (S k)) as [res'|] eqn:Hnext.
        -- destruct (IH (S k) res'
                       (tr ++ [EvDumpResponse res; EvBodyClose;
                               EvSleep RetryDelay; EvSend req]) Hnext)
             as (rs & Hlen & Htr & Hdo & Hend).
           exists (res :: rs). simpl.
           split; [lia|]. split; [by constructor|]. split.
           { intros [|i] r Hi; simpl in Hi.
             - simplify_eq. by rewrite Nat.add_0_r.
             - rewrite <- (Hdo i r Hi). f_equal. lia. }
           replace (k + S (length rs))%nat with (S k + length rs)%nat by lia.
           destruct (Do req (S k + length rs)) as [last|].
           ++ destruct Hend as [Hstop Hrun].
              split; [destruct Hstop; [left; lia | by right]|].
              rewrite Hrun. f_equal. by rewrite <- app_assoc.
           ++ rewrite Hend. f_equal. by rewrite <- app_assoc.
        -- exists [res]. simpl.
           split; [lia|]. split; [by repeat constructor|]. split.
           { intros [|i] r Hi; simpl in Hi; [|done].
             simplify_eq. by rewrite Nat.add_0_r. }
           replace (k + 1)%nat with (S k) by lia. by rewrite Hnext.
      * exists []. simpl. rewrite Nat.add_0_r, Hres, app_nil_r.
        split; [lia|]. split; [done|]. split; [done|].
        split; [right; intros [_ Hd]; congruence|].
        unfold finish. by rewrite Hdump.
    + exists []. simpl. rewrite Nat.add_0_r, Hres, app_nil_r.
      split; [lia|]. split; [done|]. split; [done|].
      split; [right; intros [Hr _]; congruence|done].
Qed.

(** The whole call against any server. *)
Lemma doRequestWithOpts_run
    (method path : string) (reqpl : option reqT) (respl : bool)
    (opts_Header : option (list (string * list string))) (req : request) :
  buildRequest method path reqpl opts_Header = inr req ->
  dumpRequestOk req = true ->
  exists rs : list response,
    (length rs <= Z.to_nat RetryAttempts)%nat
    /\ Forall transient rs
    /\ (forall (i : nat) r, rs !! i = Some r -> Do req i = Some r)
    /\ match Do req (length rs) with
       | None =>
           doRequestWithOpts method path reqpl respl opts_Header =
           fail ErrSend (attempts req rs)
       | Some last =>
           (length rs = Z.to_nat RetryAttempts \/ ~ transient last)
           /\ doRequestWithOpts method path reqpl respl opts_Header =
              finish method respl last (attempts req rs)
       end.
Proof.
  intros Hreq Hdump. unfold doRequestWithOpts. rewrite Hreq, Hdump. simpl.
  destruct (Do req 0%nat) as [res|] eqn:Hfirst.
  - destruct (retryLoop_any method respl req (Z.to_nat RetryAttempts) 0%nat
                res [EvDumpRequest req; EvSend req] Hfirst)
      as (rs & Hlen & Htr & Hdo & Hend).
    exists rs. split; [done|]. split; [done|]. split; [exact Hdo|].
    exact Hend.
  - exists []. simpl. rewrite Hfirst.
    split; [lia|]. split; [done|]. split; [done|]. reflexivity.
Qed.

(** X1.  [doRequestWithOpts] against any server, once the request is
    built and dumped.  The call transmits the request, retries it after
    each of a run [rs] of transient answers (502 or 503 with a body that
    can be dumped), at most [RetryAttempts] of them, and ends on the
    next transmission: with the error "Error sending request" when that
    transmission fails, and otherwise with what lines 547-568 make of its
    answer, which is not transient unless the retries are used up.  The
    trace is the dump of the request, the transmissions with the dumps
    and pauses between them, and the dump of the last answer. *)
Theorem doRequestWithOpts_any_server
    (method path : string) (reqpl : option reqT) (respl : bool)
    (opts_Header : option (list (string * list string))) (req : request) :
  buildRequest method path reqpl opts_Header = inr req ->
  dumpRequestOk req = true ->
  exists rs : list response,
    (length rs <= Z.to_nat RetryAttempts)%nat
    /\ Forall transient rs
    /\ (forall (i : nat) r, rs !! i = Some r -> Do req i = Some r)
    /\ match Do req (length rs) with
       | None =>
           doRequestWithOpts method path reqpl respl opts_Header =
           fail ErrSend (attempts req rs)
       | Some last =>
           (length rs = Z.to_nat RetryAttempts \/ ~ transient last)
           /\ doRequestWithOpts method path reqpl respl opts_Header =
              finish method respl last (attempts req rs)
       end.
Proof. apply doRequestWithOpts_run. Qed.

(** The transmissions and the pauses of a call. *)
Lemma doRequestWithOpts_sends
    (method path : string) (reqpl : option reqT) (respl : bool)
    (opts_Header : option (list (string * list string))) :
  (length (sends (out_trace
     (doRequestWithOpts method path reqpl respl opts_Header)))
   <= S (Z.to_nat RetryAttempts))%nat
  /\ (forall req,
        req ∈ sends (out_trace
          (doRequestWithOpts method path reqpl respl opts_Header)) ->
        buildRequest method path reqpl opts_Header = inr req)
  /\ sleeps (out_trace
       (doRequestWithOpts method path reqpl respl opts_Header)) =
     replicate
       (length (sends (out_trace
          (doRequestWithOpts method path reqpl respl opts_Header))) - 1)
       RetryDelay.
Proof.
  destruct (buildRequest method path reqpl opts_Header) as [e|req] eqn:Hreq.
  { unfold doRequestWithOpts. rewrite Hreq. simpl.
    split; [lia|]. split; [|done]. intros req Hin. by apply elem_of_nil in Hin. }
  destruct (dumpRequestOk req) eqn:Hdump.
  2:{ unfold doRequestWithOpts. rewrite Hreq, Hdump. simpl.
      split; [lia|]. split; [|done]. intros r Hin. by apply elem_of_nil in Hin. }
  destruct (doRequestWithOpts_run method path reqpl respl opts_Header
              req Hreq Hdump) as (rs & Hlen & _ & _ & Hend).
  assert (Hshape :
    sends (out_trace (doRequestWithOpts method path reqpl respl opts_Header))
      = replicate (S (length rs)) req
    /\ sleeps (out_trace (doRequestWithOpts method path reqpl respl opts_Header))
      = replicate (length rs) RetryDelay).
  { destruct (Do req (length rs)) as [last|].
    - destruct Hend as [_ ->].
      destruct (finish_trace method respl last (attempts req rs)) as [-> ->].
      by rewrite sends_attempts, sleeps_attempts.
    - rewrite Hend. unfold fail. cbn [out_trace].
      by rewrite sends_attempts, sleeps_attempts. }
  destruct Hshape as [Hsends Hsleeps]. rewrite Hsends, Hsleeps.
  rewrite length_replicate. split; [lia|]. split.
  - intros r Hin. apply elem_of_replicate in Hin as [-> _]. done.
  - f_equal. lia.
Qed.

(** X2.  Whatever the payload, the options and the server, a call of
    [doRequestWithOpts] transmits at most [1 + RetryAttempts] times (once
    for a negative [RetryAttempts]), every transmission is of the one
    request built from the arguments, and it pauses for [RetryDelay]
    between two transmissions and at no other time. *)
Theorem doRequestWithOpts_send_bound
    (method path : string) (reqpl : option reqT) (respl : bool)
    (opts_Header : option (list (string * list string))) :
  (length (sends (out_trace
     (doRequestWithOpts method path reqpl respl opts_Header)))
   <= S (Z.to_nat RetryAttempts))%nat
  /\ (forall req,
        req ∈ sends (out_trace
          (doRequestWithOpts method path reqpl respl opts_Header)) ->
        buildRequest method path reqpl opts_Header = inr req)
  /\ sleeps (out_trace
       (doRequestWithOpts method path reqpl respl opts_Header)) =
     replicate
       (length (sends (out_trace
          (doRequestWithOpts method path reqpl respl opts_Header))) - 1)
       RetryDelay.
Proof. apply doRequestWithOpts_sends. Qed.

(** What a caller learns from the error returned, and what has become
    of the value behind [respl]. *)
Lemma doRequestWithOpts_outcome
    (method path : string) (reqpl : option reqT) (respl : bool)
    (opts_Header : option (list (string * list string))) :
  match out_err (doRequestWithOpts method path reqpl respl opts_Header) with
  | Some e =>
      out_respl (doRequestWithOpts method path reqpl respl opts_Header) = None
      \/ (e = ErrDecode /\ respl = true
          /\ exists req (k : nat) res,
               buildRequest method path reqpl opts_Header = inr req
               /\ (k <= Z.to_nat RetryAttempts)%nat
               /\ Do req k = Some res
               /\ 200 <= StatusCode res <= 299
               /\ decode (Body res) = None
               /\ out_respl
                    (doRequestWithOpts method path reqpl respl opts_Header)
                  = decodePartial (Body res))
  | None =>
      exists req (k : nat) res,
        buildRequest method path reqpl opts_Header = inr req
        /\ (k <= Z.to_nat RetryAttempts)%nat
        /\ Do req k = Some res
        /\ 200 <= StatusCode res <= 299
        /\ sends (out_trace
             (doRequestWithOpts method path reqpl respl opts_Header)) =
           replicate (S k) req
        /\ out_respl (doRequestWithOpts method path reqpl respl opts_Header)
           = (if respl then decode (Body res) else None)
        /\ (respl = true ->
            is_Some (out_respl
              (doRequestWithOpts method path reqpl respl opts_Header)))
  end.
Proof.
  destruct (buildRequest method path reqpl opts_Header) as [e|req] eqn:Hreq.
  { unfold doRequestWithOpts. rewrite Hreq. by left. }
  destruct (dumpRequestOk req) eqn:Hdump.
  2:{ unfold doRequestWithOpts. rewrite Hreq, Hdump. by left. }
  destruct (doRequestWithOpts_run method path reqpl respl opts_Header
              req Hreq Hdump) as (rs & Hlen & _ & _ & Hend).
  destruct (Do req (length rs)) as [last|] eqn:Hlast.
  - destruct Hend as [_ ->].
    destruct (out_err (finish method respl last (attempts req rs))) as [e|]
      eqn:Herr.
    + destruct (finish_error _ _ _ _ _ Herr)
        as [Hnone|(-> & -> & _ & Hcode & Hdec & Hval)]; [by left|].
      right. split; [done|]. split; [done|].
      exists req, (length rs), last. done.
    + destruct (finish_ok _ _ _ _ Herr) as (Hcode & Hval & Hsome).
      exists req, (length rs), last.
      repeat (split; [done|]). split; [|done].
      destruct (finish_trace method respl last (attempts req rs)) as [-> _].
      apply sends_attempts.
  - rewrite Hend. by left.
Qed.

(** X3.  What a caller of [doRequestWithOpts] may rely on.  When the
    call returns [nil], the last answer, that of transmission [k + 1]
    with [k <= RetryAttempts], had a 2xx status and its decoded body is
    what [respl] holds when the caller passed one.  When it returns an
    error, the value behind [respl] is as it was, with one exception:
    after a 2xx answer whose body fails to decode the error is "Error
    decoding response" and the value holds what the decoder had stored
    when it failed.  So [respl] is written from the body of a 2xx answer
    only, and an error other than that one leaves it alone. *)
Theorem doRequestWithOpts_contract
    (method path : string) (reqpl : option reqT) (respl : bool)
    (opts_Header : option (list (string * list string))) :
  match out_err (doRequestWithOpts method path reqpl respl opts_Header) with
  | Some e =>
      out_respl (doRequestWithOpts method path reqpl respl opts_Header) = None
      \/ (e = ErrDecode /\ respl = true
          /\ exists req (k : nat) res,
               buildRequest method path reqpl opts_Header = inr req
               /\ (k <= Z.to_nat RetryAttempts)%nat
               /\ Do req k = Some res
               /\ 200 <= StatusCode res <= 299
               /\ decode (Body res) = None
               /\ out_respl
                    (doRequestWithOpts method path reqpl respl opts_Header)
                  = decodePartial (Body res))
  | None =>
      exists req (k : nat) res,
        buildRequest method path reqpl opts_Header = inr req
        /\ (k <= Z.to_nat RetryAttempts)%nat
        /\ Do req k = Some res
        /\ 200 <= StatusCode res <= 299
        /\ sends (out_trace
             (doRequestWithOpts method path reqpl respl opts_Header)) =
           replicate (S k) req
        /\ out_respl (doRequestWithOpts method path reqpl respl opts_Header)
           = (if respl then decode (Body res) else None)
        /\ (respl = true ->
            is_Some (out_respl
              (doRequestWithOpts method path reqpl respl opts_Header)))
  end.
Proof. apply doRequestWithOpts_outcome. Qed.

(** *** The headers of the request *)

(** The values the options give for the header of canonical name [k],
    in the order in which the loop of lines 522-526 adds them. *)
Definition optionValues (opts : list (string * list string)) (k : string)
    : list string :=
  concat ((fun nv => if decide (CanonicalMIMEHeaderKey nv.1 = k)
                     then nv.2 else []) <$> opts).

Lemma Header_Add_values name k : forall vs h,
  foldl (fun h v => Header_Add CanonicalMIMEHeaderKey name v h) h vs !! k =
  if decide (CanonicalMIMEHeaderKey name = k) then
    match vs with
    | [] => h !! k
    | _ => Some (default [] (h !! k) ++ vs)
    end
  else h !! k.
Proof.
  induction vs as [|v vs IH]; intros h; simpl.
  - by destruct (decide _).
  - rewrite IH. unfold Header_Add.
    destruct (decide (CanonicalMIMEHeaderKey name = k)) as [<-|Hne].
    + rewrite lookup_insert_eq. simpl.
      destruct vs; simpl; [done|]. by rewrite <- app_assoc.
    + by rewrite lookup_insert_ne.
Qed.

Lemma Header_fold_values k : forall opts h,
  foldl (fun h nv =>
           foldl (fun h v => Header_Add CanonicalMIMEHeaderKey nv.1 v h)
                 h nv.2) h opts !! k =
  match optionValues opts k with
  | [] => h !! k
  | vs => Some (default [] (h !! k) ++ vs)
  end.
Proof.
  induction opts as [|[name vs] opts IH]; intros h; [done|].
  cbn [foldl]. rewrite IH. unfold optionValues. cbn [fmap list_fmap concat].
  fold (optionValues opts k). simpl. rewrite Header_Add_values.
  destruct (decide (CanonicalMIMEHeaderKey name = k)) as [Hk|Hk]; [|done].
  destruct vs as [|v vs]; [done|]. simpl.
  destruct (optionValues opts k); simpl; [by rewrite app_nil_r|].
  by rewrite <- app_assoc.
Qed.

Lemma buildRequest_inr
    (method path : string) (reqpl : option reqT)
    (opts_Header : option (list (string * list string))) (req : request) :
  buildRequest method path reqpl opts_Header = inr req ->
  req_method req = method
  /\ req_url req = RootEndpoint +:+ path
  /\ req_body req = (reqpl ≫= marshal)
  /\ req_header req !! CanonicalMIMEHeaderKey "Content-Type" =
     Some ["application/json"]
  /\ forall k, k <> CanonicalMIMEHeaderKey "Content-Type" ->
       req_header req !! k =
       match optionValues (default [] opts_Header) k with
       | [] => None
       | vs => Some vs
       end.
Proof.
  unfold buildRequest. intros Hreq.
  destruct reqpl as [v|]; simpl in *.
  - destruct (marshal v) as [body|]; simpl in *; [|done].
    destruct (newRequestOk _ _); simpl in *; [|done]. simplify_eq. simpl.
    split; [done|]. split; [done|]. split; [done|].
    unfold Header_Set. split; [by rewrite lookup_insert_eq|].
    intros k Hk. rewrite lookup_insert_ne by done.
    rewrite Header_fold_values, lookup_empty. simpl.
    by destruct (optionValues _ _).
  - destruct (newRequestOk _ _); simpl in *; [|done]. simplify_eq. simpl.
    split; [done|]. split; [done|]. split; [done|].
    unfold Header_Set. split; [by rewrite lookup_insert_eq|].
    intros k Hk. rewrite lookup_insert_ne by done.
    rewrite Header_fold_values, lookup_empty. simpl.
    by destruct (optionValues _ _).
Qed.

(** X4.  The request [doRequestWithOpts] builds: the method as given,
    the URL [RootEndpoint + path], the marshalled payload as body (none
    for a [nil] payload); its [Content-Type] header is exactly
    [application/json], whatever the options say about that header; and
    any other header holds the values the options give for it, in order,
    and is absent when they give none. *)
Theorem buildRequest_headers
    (method path : string) (reqpl : option reqT)
    (opts_Header : option (list (string * list string))) (req : request) :
  buildRequest method path reqpl opts_Header = inr req ->
  req_method req = method
  /\ req_url req = RootEndpoint +:+ path
  /\ req_body req = (reqpl ≫= marshal)
  /\ req_header req !! CanonicalMIMEHeaderKey "Content-Type" =
     Some ["application/json"]
  /\ forall k, k <> CanonicalMIMEHeaderKey "Content-Type" ->
       req_header req !! k =
       match optionValues (default [] opts_Header) k with
       | [] => None
       | vs => Some vs
       end.
Proof. apply buildRequest_inr. Qed.

(** *** DELETE *)

(** A DELETE that fails once the request is out fails on the
    connection, on the dump of the answer, or with the status line of an
    answer outside 2xx: the body is never decoded. *)
Lemma doRequestWithOpts_DELETE path reqpl opts_Header e :
  out_err (doRequestWithOpts "DELETE" path reqpl false opts_Header) = Some e ->
  e ∈ [ErrMarshal; ErrCreateRequest; ErrDumpRequest; ErrSend; ErrDumpResponse]
  \/ exists req (k : nat) res,
       buildRequest "DELETE" path reqpl opts_Header = inr req
       /\ (k <= Z.to_nat RetryAttempts)%nat
       /\ Do req k = Some res
       /\ (StatusCode res < 200 \/ StatusCode res > 299)
       /\ e = ErrApi {| Code := 0; ErrorMsg := Status res; Details := "" |}.
Proof.
  destruct (buildRequest "DELETE" path reqpl opts_Header) as [e0|req] eqn:Hreq.
  { unfold doRequestWithOpts. rewrite Hreq. simpl. intros [= <-]. left.
    unfold buildRequest in Hreq.
    repeat (case_match; simplify_eq; simpl in *); repeat constructor. }
  destruct (dumpRequestOk req) eqn:Hdump.
  2:{ unfold doRequestWithOpts. rewrite Hreq, Hdump. simpl. intros [= <-].
      left. repeat constructor. }
  destruct (doRequestWithOpts_run "DELETE" path reqpl false opts_Header
              req Hreq Hdump) as (rs & Hlen & _ & _ & Hend).
  destruct (Do req (length rs)) as [last|] eqn:Hlast.
  - destruct Hend as [_ ->]. unfold finish, fail.
    destruct (dumpable last); simpl; [|intros [= <-]; left; repeat constructor].
    destruct (decide (StatusCode last < 200 \/ StatusCode last > 299));
      simpl; [|done].
    intros [= <-]. right. exists req, (length rs), last. done.
  - rewrite Hend. simpl. intros [= <-]. left. repeat constructor.
Qed.

End DoRequest.

(** *** A concrete server *)

(** A server that is unavailable twice and then answers 200 with the
    JSON text of the payload; payloads are their own JSON text. *)
Definition unavailable : response :=
  {| StatusCode := 503; Status := "503 Service Unavailable";
     Body := "{}"; dumpable := true |}.

Definition ok200 : response :=
  {| StatusCode := 200; Status := "200 OK";
     Body := "[]"; dumpable := true |}.

Definition flakyServer (_ : request) (k : nat) : option response :=
  [unavailable; unavailable; ok200] !! k.

Definition listHosts (RetryAttempts : Z) : outcome (respT := string) :=
  doRequestWithOpts (reqT := string) Some Some (fun _ => None)
    (fun _ => Some {| Code := 503; ErrorMsg := "unavailable"; Details := "" |})
    id (fun _ _ => true) (fun _ => true) flakyServer
    "http://localhost:8080/v1" RetryAttempts 5000000000
    "GET" "/hosts" None true None.

Lemma doRequestWithOpts_bounded_retry_witness :
  out_err (listHosts 3) = None /\ out_respl (listHosts 3) = Some "[]".
Proof.
  refine (let H := doRequestWithOpts_bounded_retry (reqT := string) Some Some
            (fun _ => None)
            (fun _ => Some {| Code := 503; ErrorMsg := "unavailable";
                              Details := "" |})
            id (fun _ _ => true) (fun _ => true) flakyServer
            "http://localhost:8080/v1" 3 5000000000
            "GET" "/hosts" None None _ [unavailable; unavailable] ok200 "[]"
            eq_refl eq_refl _ _ _ eq_refl in _).
  - destruct H as (_ & _ & _ & Hok & _). apply Hok. simpl. lia.
  Unshelve.
  + repeat constructor.
  + split; [simpl; lia | reflexivity].
  + intros k Hk. reflexivity.
Defined.

(** C2 as stated fails when the transient answers outnumber the retry
    budget: with [RetryAttempts = 1] and a server that answers 503, 503,
    200 (so [N = 2]), the call makes [min(1, 2) = 1] retry and then
    returns the error of the second 503, not the payload of the 200. *)
Lemma doRequestWithOpts_gives_up :
  transient unavailable /\ success ok200
  /\ length (sends (out_trace (listHosts 1))) = 2%nat
  /\ sleeps (out_trace (listHosts 1)) = [5000000000]
  /\ out_err (listHosts 1) =
       Some (ErrApi {| Code := 503; ErrorMsg := "unavailable"; Details := "" |})
  /\ out_respl (listHosts 1) = None.
Proof.
  split; [split; reflexivity|].
  split; [split; [simpl; lia | reflexivity]|].
  repeat split; vm_compute; reflexivity.
Qed.


(** *** Other servers *)

(** A server that answers 503 once and then drops the connection. *)
Definition droppingServer (_ : request) (k : nat) : option response :=
  [unavailable] !! k.

Definition hostsRequest : request :=
  {| req_method := "GET"; req_url := "http://localhost:8080/v1/hosts";
     req_body := None;
     req_header := {[ "Content-Type" := ["application/json"] ]} |}.

Definition listHostsDropped : outcome (respT := string) :=
  doRequestWithOpts (reqT := string) Some Some (fun _ => None)
    (fun _ => Some {| Code := 503; ErrorMsg := "unavailable"; Details := "" |})
    id (fun _ _ => true) (fun _ => true) droppingServer
    "http://localhost:8080/v1" 3 5000000000
    "GET" "/hosts" None true None.

Lemma doRequestWithOpts_any_server_witness :
  exists rs : list response,
    (length rs <= Z.to_nat 3)%nat
    /\ Forall transient rs
    /\ (forall (i : nat) r,
          rs !! i = Some r -> droppingServer hostsRequest i = Some r)
    /\ match droppingServer hostsRequest (length rs) with
       | None =>
           listHostsDropped =
           fail ErrSend (attempts 5000000000 hostsRequest rs)
       | Some last =>
           (length rs = Z.to_nat 3 \/ ~ transient last)
           /\ listHostsDropped =
              finish Some (fun _ => None)
                (fun _ => Some {| Code := 503; ErrorMsg := "unavailable";
                                  Details := "" |})
                "GET" true last (attempts 5000000000 hostsRequest rs)
       end.
Proof.
  exact (doRequestWithOpts_any_server (reqT := string) Some Some
           (fun _ => None)
           (fun _ => Some {| Code := 503; ErrorMsg := "unavailable";
                             Details := "" |})
           id (fun _ _ => true) (fun _ => true) droppingServer
           "http://localhost:8080/v1" 3 5000000000
           "GET" "/hosts" None true None hostsRequest eq_refl eq_refl).
Defined.

(** The options of [FetchArtifacts], with a content type of their own
    added: the credentials header goes through, the content type does
    not. *)
Definition injectCreds : list (string * list string) :=
  [("X-Cutf-Cloud-Orchestrator-Inject-BuildAPI-Creds", [EmptyString]);
   ("Content-Type", ["text/plain"])].

Lemma buildRequest_headers_witness :
  exists req,
    buildRequest (reqT := string) Some id (fun _ _ => true)
      "http://localhost:8080/v1" "POST" "/hosts/h/artifacts" (Some "{}")
      (Some injectCreds) = inr req
    /\ req_body req = Some "{}"
    /\ req_header req !! "Content-Type" = Some ["application/json"]
    /\ req_header req !! "X-Cutf-Cloud-Orchestrator-Inject-BuildAPI-Creds" =
       Some [EmptyString].
Proof.
  eexists. split; [reflexivity|].
  destruct (buildRequest_headers (reqT := string) Some id (fun _ _ => true)
              "http://localhost:8080/v1" "POST" "/hosts/h/artifacts"
              (Some "{}") (Some injectCreds) _ eq_refl)
    as (_ & _ & Hbody & Hct & Hother).
  split; [exact Hbody|]. split; [exact Hct|].
  exact (Hother "X-Cutf-Cloud-Orchestrator-Inject-BuildAPI-Creds"
           ltac:(discriminate)).
Defined.

End Transport.

(** ** The calls of the service *)

Module Service.

Import Transport.

(** What a call of the service returns: the error ([None] is [nil]),
    the payload handed back, and the effects of its transport calls. *)
Record call (A : Type) := {
  err : option error;
  val : option A;
  trace : list event
}.
Arguments err {A} c.
Arguments val {A} c.
Arguments trace {A} c.

Definition headerNameCOInjectBuildAPICreds : string :=
  "X-Cutf-Cloud-Orchestrator-Inject-BuildAPI-Creds".

Section Operations.

(** The request payload, the operation and the result an operation
    ends in, with their JSON codecs (for each decoder, what it leaves in
    the caller's value when it fails); [opName] is the field [Name] of an
    operation, [zeroOp] and [zeroRes] the zero values the calls start
    from. *)
Context {reqT opT resT : Type}.
Variable marshal : reqT -> option string.
Variable decodeOp : string -> option opT.
Variable decodeOpPartial : string -> option opT.
Variable decodeRes : string -> option resT.
Variable decodeResPartial : string -> option resT.
Variable decodeApiError : string -> option ApiCallError.
Variable opName : opT -> string.
Variable zeroOp : opT.
Variable zeroRes : resT.
Variable CanonicalMIMEHeaderKey : string -> string.
Variable newRequestOk : string -> string -> bool.
Variable dumpRequestOk : request -> bool.
(** What the transmissions of the [n]-th transport call come back
    with. *)
Variable Do : nat -> request -> nat -> option response.
Variable RootEndpoint : string.
Variable RetryAttempts : Z.
Variable RetryDelay : Z.

(** [c.doRequestWithOpts] as the [n]-th transport call, with a
    response payload that is an operation, or a result. *)
Definition doOp (n : nat) : string -> string -> option reqT -> bool ->
    option (list (string * list string)) -> outcome (respT := opT) :=
  doRequestWithOpts marshal decodeOp decodeOpPartial
    decodeApiError CanonicalMIMEHeaderKey
    newRequestOk dumpRequestOk (Do n) RootEndpoint RetryAttempts RetryDelay.

Definition doRes (n : nat) : string -> string -> option reqT -> bool ->
    option (list (string * list string)) -> outcome (respT := resT) :=
  doRequestWithOpts marshal decodeRes decodeResPartial
    decodeApiError CanonicalMIMEHeaderKey
    newRequestOk dumpRequestOk (Do n) RootEndpoint RetryAttempts RetryDelay.

Definition CreateHost (req : reqT) : call resT :=
  let o1 := doOp 0 "POST" "/hosts" (Some req) true None in
  match out_err o1 with
  | Some e => {| err := Some e; val := None; trace := out_trace o1 |}
  | None =>
      let op := default zeroOp (out_respl o1) in
      let path := "/operations/" +:+ opName op +:+ "/:wait" in
      let o2 := doRes 1 "POST" path None true None in
      match out_err o2 with
      | Some e => {| err := Some e; val := None;
                     trace := out_trace o1 ++ out_trace o2 |}
      | None => {| err := None;
                   val := Some (default zeroRes (out_respl o2));
                   trace := out_trace o1 ++ out_trace o2 |}
      end
  end.

Definition FetchArtifacts (host : string) (req : reqT) : call resT :=
  let reqOpts := Some [(headerNameCOInjectBuildAPICreds, [EmptyString])] in
  let o1 := doOp 0 "POST" ("/hosts/" +:+ host +:+ "/artifacts") (Some req)
              true reqOpts in
  match out_err o1 with
  | Some e => {| err := Some e; val := None; trace := out_trace o1 |}
  | None =>
      let op := default zeroOp (out_respl o1) in
      let path := "/hosts/" +:+ host +:+ "/operations/" +:+ opName op
                  +:+ "/:wait" in
      let o2 := doRes 1 "POST" path None true None in
      match out_err o2 with
      | Some e => {| err := Some e; val := None;
                     trace := out_trace o1 ++ out_trace o2 |}
      | None => {| err := None;
                   val := Some (default zeroRes (out_respl o2));
                   trace := out_trace o1 ++ out_trace o2 |}
      end
  end.

Definition CreateCVD (host : string) (req : reqT) : call resT :=
  let reqOpts := Some [(headerNameCOInjectBuildAPICreds, [EmptyString])] in
  let o1 := doOp 0 "POST" ("/hosts/" +:+ host +:+ "/cvds") (Some req)
              true reqOpts in
  match out_err o1 with
  | Some e => {| err := Some e; val := None; trace := out_trace o1 |}
  | None =>
      let op := default zeroOp (out_respl o1) in
      let path := "/hosts/" +:+ host +:+ "/operations/" +:+ opName op
                  +:+ "/:wait" in
      let o2 := doRes 1 "POST" path None true None in
      match out_err o2 with
      | Some e => {| err := Some e; val := None;
                     trace := out_trace o1 ++ out_trace o2 |}
      | None => {| err := None;
                   val := Some (default zeroRes (out_respl o2));
                   trace := out_trace o1 ++ out_trace o2 |}
      end
  end.

(** *** Start an operation, then wait for it *)

Definition buildReq (method path : string) (reqpl : option reqT)
    (opts_Header : option (list (string * list string))) : error + request :=
  buildRequest marshal CanonicalMIMEHeaderKey newRequestOk RootEndpoint
    method path reqpl opts_Header.

(** The shape the three calls share: a POST of the payload to
    [createPath] with the headers [opts], then a POST without payload to
    [waitPath name], [name] being the name of the operation the first
    call decoded. *)
Definition startAndWait (createPath : string) (waitPath : string -> string)
    (opts : option (list (string * list string))) (req : reqT)
    : call resT :=
  let o1 := doOp 0 "POST" createPath (Some req) true opts in
  match out_err o1 with
  | Some e => {| err := Some e; val := None; trace := out_trace o1 |}
  | None =>
      let op := default zeroOp (out_respl o1) in
      let o2 := doRes 1 "POST" (waitPath (opName op)) None true None in
      match out_err o2 with
      | Some e => {| err := Some e; val := None;
                     trace := out_trace o1 ++ out_trace o2 |}
      | None => {| err := None;
                   val := Some (default zeroRes (out_respl o2));
                   trace := out_trace o1 ++ out_trace o2 |}
      end
  end.

(** What such a call guarantees. *)
Definition startsThenWaits (createPath : string)
    (waitPath : string -> string)
    (opts : option (list (string * list string))) (req : reqT)
    (c : call resT) : Prop :=
  (length (sends (trace c)) <= 2 * S (Z.to_nat RetryAttempts))%nat
  /\ (forall r, r ∈ sends (trace c) ->
        buildReq "POST" createPath (Some req) opts = inr r
        \/ exists reqC (k : nat) resC op,
             buildReq "POST" createPath (Some req) opts = inr reqC
             /\ Do 0%nat reqC k = Some resC
             /\ 200 <= StatusCode resC <= 299
             /\ decodeOp (Body resC) = Some op
             /\ buildReq "POST" (waitPath (opName op)) None None = inr r)
  /\ match err c with
     | Some _ => val c = None
     | None =>
         exists reqC (kC : nat) resC op reqW (kW : nat) resW v,
           buildReq "POST" createPath (Some req) opts = inr reqC
           /\ Do 0%nat reqC kC = Some resC
           /\ 200 <= StatusCode resC <= 299
           /\ decodeOp (Body resC) = Some op
           /\ buildReq "POST" (waitPath (opName op)) None None = inr reqW
           /\ Do 1%nat reqW kW = Some resW
           /\ 200 <= StatusCode resW <= 299
           /\ decodeRes (Body resW) = Some v
           /\ val c = Some v
           /\ sends (trace c) =
              replicate (S kC) reqC ++ replicate (S kW) reqW
     end.

Lemma startAndWait_startsThenWaits createPath waitPath opts req :
  startsThenWaits createPath waitPath opts req
    (startAndWait createPath waitPath opts req).
Proof.
  unfold startsThenWaits, startAndWait, doOp, doRes, buildReq.
  pose proof (doRequestWithOpts_outcome marshal decodeOp decodeOpPartial
    decodeApiError CanonicalMIMEHeaderKey newRequestOk dumpRequestOk (Do 0%nat) RootEndpoint
    RetryAttempts RetryDelay "POST" createPath (Some req) true opts) as H1.
  pose proof (doRequestWithOpts_sends marshal decodeOp decodeOpPartial
    decodeApiError CanonicalMIMEHeaderKey newRequestOk dumpRequestOk (Do 0%nat) RootEndpoint
    RetryAttempts RetryDelay "POST" createPath (Some req) true opts)
    as (Hn1 & Hin1 & _).
  set (o1 := doRequestWithOpts marshal decodeOp decodeOpPartial
    decodeApiError CanonicalMIMEHeaderKey newRequestOk dumpRequestOk (Do 0%nat) RootEndpoint
    RetryAttempts RetryDelay "POST" createPath (Some req) true opts) in *.
  destruct (out_err o1) as [e1|] eqn:Herr1.
  { split; [simpl; lia|]. split; [|done]. intros r Hr. left. by apply Hin1. }
  destruct H1 as (reqC & kC & resC & HreqC & HkC & HdoC & HcodeC & HsendsC
                  & Hval1 & Hsome1).
  destruct (Hsome1 eq_refl) as [op Hop]. rewrite Hop in Hval1.
  rewrite Hop. change (default zeroOp (Some op)) with op.
  pose proof (doRequestWithOpts_outcome marshal decodeRes decodeResPartial
    decodeApiError CanonicalMIMEHeaderKey newRequestOk dumpRequestOk (Do 1%nat) RootEndpoint
    RetryAttempts RetryDelay "POST" (waitPath (opName op)) None true None)
    as H2.
  pose proof (doRequestWithOpts_sends marshal decodeRes decodeResPartial
    decodeApiError CanonicalMIMEHeaderKey newRequestOk dumpRequestOk (Do 1%nat) RootEndpoint
    RetryAttempts RetryDelay "POST" (waitPath (opName op)) None true None)
    as (Hn2 & Hin2 & _).
  set (o2 := doRequestWithOpts marshal decodeRes decodeResPartial
    decodeApiError CanonicalMIMEHeaderKey newRequestOk dumpRequestOk (Do 1%nat) RootEndpoint
    RetryAttempts RetryDelay "POST" (waitPath (opName op)) None true None)
    in *.
  assert (Hboth : forall r, r ∈ sends (out_trace o1 ++ out_trace o2) ->
    buildRequest marshal CanonicalMIMEHeaderKey newRequestOk RootEndpoint
      "POST" createPath (Some req) opts = inr r
    \/ exists reqC (k : nat) resC op,
         buildRequest marshal CanonicalMIMEHeaderKey newRequestOk RootEndpoint
           "POST" createPath (Some req) opts = inr reqC
         /\ Do 0%nat reqC k = Some resC
         /\ 200 <= StatusCode resC <= 299
         /\ decodeOp (Body resC) = Some op
         /\ buildRequest marshal CanonicalMIMEHeaderKey newRequestOk
              RootEndpoint "POST" (waitPath (opName op)) None None = inr r).
  { intros r. rewrite sends_app, elem_of_app. intros [Hr|Hr].
    - left. by apply Hin1.
    - right. exists reqC, kC, resC, op.
      split; [done|]. split; [done|]. split; [done|]. split; [done|].
      by apply Hin2. }
  assert (Hlen : (length (sends (out_trace o1 ++ out_trace o2))
                  <= 2 * S (Z.to_nat RetryAttempts))%nat).
  { rewrite sends_app, length_app. lia. }
  destruct (out_err o2) as [e2|] eqn:Herr2; cbn [err val trace].
  { split; [exact Hlen|]. split; [exact Hboth|done]. }
  split; [exact Hlen|]. split; [exact Hboth|].
  destruct H2 as (reqW & kW & resW & HreqW & HkW & HdoW & HcodeW & HsendsW
                  & Hval2 & Hsome2).
  destruct (Hsome2 eq_refl) as [v Hv]. rewrite Hv in Hval2. rewrite Hv.
  exists reqC, kC, resC, op, reqW, kW, resW, v.
  change (default zeroRes (Some v)) with v.
  split; [done|]. split; [done|]. split; [done|]. split; [done|].
  split; [done|]. split; [done|]. split; [done|]. split; [done|].
  split; [done|].
  by rewrite sends_app, HsendsC, HsendsW.
Qed.

(** X5.  [CreateHost], [FetchArtifacts] and [CreateCVD] start an
    operation and wait for it.  Each makes at most [2 * (1 +
    RetryAttempts)] transmissions; everything it sends is its first
    request or, once that one was answered 2xx with an operation, the
    POST to the [:wait] path of the operation the server named; it hands
    back a payload exactly when it returns [nil], and then both requests
    were answered 2xx and the payload is the decoded body of the answer
    to the wait. *)
Theorem start_operation_then_wait (host : string) (req : reqT) :
  startsThenWaits "/hosts"
    (fun name => "/operations/" +:+ name +:+ "/:wait") None req
    (CreateHost req)
  /\ startsThenWaits ("/hosts/" +:+ host +:+ "/artifacts")
       (fun name => "/hosts/" +:+ host +:+ "/operations/" +:+ name
                    +:+ "/:wait")
       (Some [(headerNameCOInjectBuildAPICreds, [EmptyString])]) req
       (FetchArtifacts host req)
  /\ startsThenWaits ("/hosts/" +:+ host +:+ "/cvds")
       (fun name => "/hosts/" +:+ host +:+ "/operations/" +:+ name
                    +:+ "/:wait")
       (Some [(headerNameCOInjectBuildAPICreds, [EmptyString])]) req
       (CreateCVD host req).
Proof.
  split; [|split].
  - exact (startAndWait_startsThenWaits "/hosts"
             (fun name => "/operations/" +:+ name +:+ "/:wait") None req).
  - exact (startAndWait_startsThenWaits ("/hosts/" +:+ host +:+ "/artifacts")
             (fun name => "/hosts/" +:+ host +:+ "/operations/" +:+ name
                          +:+ "/:wait")
             (Some [(headerNameCOInjectBuildAPICreds, [EmptyString])]) req).
  - exact (startAndWait_startsThenWaits ("/hosts/" +:+ host +:+ "/cvds")
             (fun name => "/hosts/" +:+ host +:+ "/operations/" +:+ name
                          +:+ "/:wait")
             (Some [(headerNameCOInjectBuildAPICreds, [EmptyString])]) req).
Qed.

End Operations.

(** *** Deleting hosts *)

Section DeleteHosts.

Context {reqT respT : Type}.
Variable marshal : reqT -> option string.
Variable decode : string -> option respT.
Variable decodePartial : string -> option respT.
Variable decodeApiError : string -> option ApiCallError.
Variable CanonicalMIMEHeaderKey : string -> string.
Variable newRequestOk : string -> string -> bool.
Variable dumpRequestOk : request -> bool.
(** What the transmissions of the goroutine of the [i]-th name come
    back with. *)
Variable Do : nat -> request -> nat -> option response.
Variable RootEndpoint : string.
Variable RetryAttempts : Z.
Variable RetryDelay : Z.

(** The goroutine of [DeleteHosts] for the [i]-th name: the error of
    its DELETE. *)
Definition deleteHost (i : nat) (name : string) : option error :=
  out_err (doRequest marshal decode decodePartial decodeApiError
             CanonicalMIMEHeaderKey newRequestOk dumpRequestOk (Do i)
             RootEndpoint RetryAttempts RetryDelay
             "DELETE" ("/hosts/" +:+ name) None false).

(** [DeleteHosts]: [merr] once every goroutine is done, [order] being
    the order in which the goroutines, numbered by the position of their
    name, came to the mutex.  An entry [(name, e)] is the error
    "Delete host name failed: e"; the empty list is the [nil] error. *)
Definition DeleteHosts (names : list string) (order : list nat)
    : list (string * error) :=
  foldl (fun merr i =>
           match names !! i with
           | Some name =>
               match deleteHost i name with
               | Some e => merr ++ [(name, e)]
               | None => merr
               end
           | None => merr
           end) [] order.


(** The failure of the [i]-th goroutine, if any. *)
Definition failure (names : list string) (i : nat)
    : option (string * error) :=
  name ← names !! i; e ← deleteHost i name; Some (name, e).

(** The failures, in the order of the names. *)
Definition failures (names : list string) : list (string * error) :=
  omap (failure names) (seq 0 (length names)).

Lemma DeleteHosts_omap names order :
  DeleteHosts names order = omap (failure names) order.
Proof.
  unfold DeleteHosts.
  assert (Hgen : forall acc,
    foldl (fun merr i =>
             match names !! i with
             | Some name =>
                 match deleteHost i name with
                 | Some e => merr ++ [(name, e)]
                 | None => merr
                 end
             | None => merr
             end) acc order = acc ++ omap (failure names) order).
  { induction order as [|i order IH]; intros acc; simpl.
    - by rewrite app_nil_r.
    - rewrite IH. unfold failure at 2.
      destruct (names !! i) as [name|]; simpl; [|done].
      destruct (deleteHost i name) as [e|]; simpl; [|done].
      by rewrite <- app_assoc. }
  apply Hgen.
Qed.

Lemma omap_none {A B} (f : A -> option B) (l : list A) :
  (forall x, f x = None) -> omap f l = [].
Proof.
  intros Hf. induction l as [|x l IH]; simpl; [done|]. by rewrite Hf.
Qed.

(** X6.  [DeleteHosts] sends one DELETE per name, each in a goroutine
    of its own.  Whatever the order in which the goroutines finish, the
    error returned lists exactly the names whose DELETE failed, each with
    its error and as often as the name was given; it is [nil] exactly
    when every DELETE succeeded.  The error of a host is never a decoding
    error: an answer outside 2xx is reported by its status line alone,
    with code 0 and no details. *)
Theorem DeleteHosts_reports_failures (names : list string)
    (order : list nat) :
  order ≡ₚ seq 0 (length names) ->
  DeleteHosts names order ≡ₚ failures names
  /\ (DeleteHosts names order = [] <->
      forall (i : nat) name,
        names !! i = Some name -> deleteHost i name = None)
  /\ forall name e, (name, e) ∈ DeleteHosts names order ->
       e <> ErrDecode
       /\ forall a, e = ErrApi a -> Code a = 0 /\ Details a = EmptyString.
Proof.
  intros Horder. rewrite DeleteHosts_omap.
  assert (Hperm : omap (failure names) order ≡ₚ failures names).
  { unfold failures. by rewrite Horder. }
  split; [exact Hperm|]. split.
  - split.
    + intros Hnil i name Hi.
      destruct (deleteHost i name) as [e|] eqn:He; [|done]. exfalso.
      assert (Hin : (name, e) ∈ failures names).
      { unfold failures. apply list_elem_of_omap. exists i. split.
        - apply elem_of_seq. pose proof (lookup_lt_Some _ _ _ Hi). lia.
        - unfold failure. rewrite Hi. simpl. by rewrite He. }
      rewrite <- Hperm, Hnil in Hin. by apply elem_of_nil in Hin.
    + intros Hall. apply omap_none. intros i. unfold failure.
      destruct (names !! i) as [name|] eqn:Hi; simpl; [|done].
      by rewrite (Hall i name Hi).
  - intros name e Hin.
    apply list_elem_of_omap in Hin as (i & _ & Hfail).
    unfold failure in Hfail.
    destruct (names !! i) as [name'|]; simpl in Hfail; [|done].
    destruct (deleteHost i name') as [e'|] eqn:He; simpl in Hfail; [|done].
    simplify_eq. unfold deleteHost, doRequest in He.
    apply doRequestWithOpts_DELETE in He
      as [Hin|(req & k & res & _ & _ & _ & _ & ->)].
    + rewrite !elem_of_cons in Hin. rewrite elem_of_nil in Hin.
      split; [intros ->; intuition discriminate|].
      intros a ->. intuition discriminate.
    + split; [done|]. by intros a [= <-].
Qed.

End DeleteHosts.

(** *** Two hosts, one of them gone *)

Definition notFound : response :=
  {| StatusCode := 404; Status := "404 Not Found";
     Body := "no such host"; dumpable := true |}.

Definition noContent : response :=
  {| StatusCode := 200; Status := "200 OK"; Body := EmptyString;
     dumpable := true |}.

(** The DELETE of the second name is answered 404, the other 200. *)
Definition twoHosts (n : nat) (_ : request) (k : nat) : option response :=
  match n, k with
  | 1%nat, O => Some notFound
  | _, O => Some noContent
  | _, _ => None
  end.

Definition deleteTwo (order : list nat) : list (string * error) :=
  DeleteHosts (reqT := string) (respT := string) Some Some (fun _ => None)
    (fun _ => None) id (fun _ _ => true) (fun _ => true) twoHosts
    "http://localhost:8080/v1" 3 5000000000 ["cf-1"; "cf-2"] order.

Lemma DeleteHosts_reports_failures_witness :
  deleteTwo [1%nat; 0%nat] ≡ₚ
  [("cf-2", ErrApi {| Code := 0; ErrorMsg := "404 Not Found";
                      Details := EmptyString |})].
Proof.
  assert (Horder : [1%nat; 0%nat] ≡ₚ seq 0 (length ["cf-1"; "cf-2"])).
  { simpl. apply Permutation_swap. }
  exact (proj1 (DeleteHosts_reports_failures (reqT := string)
           (respT := string) Some Some (fun _ => None) (fun _ => None)
           id (fun _ _ => true) (fun _ => true) twoHosts
           "http://localhost:8080/v1" 3 5000000000 ["cf-1"; "cf-2"]
           [1%nat; 0%nat] Horder)).
Defined.

End Service.


(** ** The polling-to-channel signalling bridge *)

Module Bridge.

Import Int64.

(** [time.Duration] counts nanoseconds. *)
Definition Millisecond : Z := 1000000.
Definition Second : Z := 1000 * Millisecond.

Definition initialPollInterval : Z := 100 * Millisecond.
Definition maxPollInterval : Z := 2 * Second.
Definition maxConsecutiveErrors : Z := 10.

(** A decoded JSON value, Go's [any] after [json.Decode]. *)
#[local] Unset Elimination Schemes.
Inductive any :=
| ANil
| ABool (b : bool)
| ANumber (n : Z)
| AString (s : string)
| AArray (l : list any)
| AObject (o : gmap string any).
#[local] Set Elimination Schemes.

(** One polled message, a [map[string]any]. *)
Abbreviation message := (gmap string any).

(** [message["message_type"] != "device_msg"]: an interface value differs
    from a string constant unless it holds that very string; a missing
    key reads as [nil]. *)
Definition unexpectedType (m : message) : bool :=
  match m !! "message_type" with
  | Some (AString s) => negb (bool_decide (s = "device_msg"))
  | _ => true
  end.

(** [message["payload"].(map[string]any)]: [None] is the panic of a
    failed type assertion. *)
Definition payloadOf (m : message) : option (gmap string any) :=
  match m !! "payload" with
  | Some (AObject o) => Some o
  | _ => None
  end.

(** Lines 346-353: the new poll interval after a poll that returned
    [n] messages. *)
Definition nextPollInterval (pollInterval : Z) (n : nat) : Z :=
  if decide (0 < n)%nat then initialPollInterval
  else
    let doubled := mul64 2 pollInterval in
    if decide (doubled > maxPollInterval) then maxPollInterval else doubled.

(** Where the polling goroutine stands. *)
Inductive poll_pc :=
| PRequest                          (* about to call doRequest *)
| PRange (pending : list message)   (* in the loop over the messages *)
| PSelect                           (* at the select *)
| PExited                           (* returned, the sink is closed *)
| PPanicked.                        (* a payload was not an object *)

(** Where the forwarding goroutine stands: receiving from the source
    channel, forwarding [msg] with [i] failed attempts so far, or
    returned. *)
Inductive fwd_pc :=
| FRecv
| FForward (msg : any) (i : Z)
| FExited.

(** The two goroutines of [initHandling], their local variables, the
    three channels, and a log of what left the bridge. *)
Record bridge := {
  poll : poll_pc;
  start : Z;
  pollInterval : Z;
  errCount : Z;
  fwd : fwd_pc;
  srcClosed : bool;      (* the caller closed SendCh *)
  stopClosed : bool;     (* stopPollCh *)
  sinkClosed : bool;     (* RecvCh *)
  delivered : list (gmap string any);   (* received from RecvCh *)
  polled : list Z;                      (* the cursors requested *)
  forwarded : list any                  (* the forward calls made *)
}.

Definition init : bridge :=
  {| poll := PRequest; start := 0; pollInterval := initialPollInterval;
     errCount := 0; fwd := FRecv; srcClosed := false; stopClosed := false;
     sinkClosed := false; delivered := []; polled := []; forwarded := [] |}.

(** Assignments to one component of the state. *)
Definition set_poll (x : poll_pc) (s : bridge) : bridge :=
  {| poll := x; start := start s; pollInterval := pollInterval s;
     errCount := errCount s; fwd := fwd s; srcClosed := srcClosed s;
     stopClosed := stopClosed s; sinkClosed := sinkClosed s;
     delivered := delivered s; polled := polled s;
     forwarded := forwarded s |}.

Definition set_start (x : Z) (s : bridge) : bridge :=
  {| poll := poll s; start := x; pollInterval := pollInterval s;
     errCount := errCount s; fwd := fwd s; srcClosed := srcClosed s;
     stopClosed := stopClosed s; sinkClosed := sinkClosed s;
     delivered := delivered s; polled := polled s;
     forwarded := forwarded s |}.

Definition set_pollInterval (x : Z) (s : bridge) : bridge :=
  {| poll := poll s; start := start s; pollInterval := x;
     errCount := errCount s; fwd := fwd s; srcClosed := srcClosed s;
     stopClosed := stopClosed s; sinkClosed := sinkClosed s;
     delivered := delivered s; polled := polled s;
     forwarded := forwarded s |}.

Definition set_errCount (x : Z) (s : bridge) : bridge :=
  {| poll := poll s; start := start s; pollInterval := pollInterval s;
     errCount := x; fwd := fwd s; srcClosed := srcClosed s;
     stopClosed := stopClosed s; sinkClosed := sinkClosed s;
     delivered := delivered s; polled := polled s;
     forwarded := forwarded s |}.

Definition set_fwd (x : fwd_pc) (s : bridge) : bridge :=
  {| poll := poll s; start := start s; pollInterval := pollInterval s;
     errCount := errCount s; fwd := x; srcClosed := srcClosed s;
     stopClosed := stopClosed s; sinkClosed := sinkClosed s;
     delivered := delivered s; polled := polled s;
     forwarded := forwarded s |}.

Definition close_src (s : bridge) : bridge :=
  {| poll := poll s; start := start s; pollInterval := pollInterval s;
     errCount := errCount s; fwd := fwd s; srcClosed := true;
     stopClosed := stopClosed s; sinkClosed := sinkClosed s;
     delivered := delivered s; polled := polled s;
     forwarded := forwarded s |}.

Definition close_stop (s : bridge) : bridge :=
  {| poll := poll s; start := start s; pollInterval := pollInterval s;
     errCount := errCount s; fwd := fwd s; srcClosed := srcClosed s;
     stopClosed := true; sinkClosed := sinkClosed s;
     delivered := delivered s; polled := polled s;
     forwarded := forwarded s |}.

Definition close_sink (s : bridge) : bridge :=
  {| poll := poll s; start := start s; pollInterval := pollInterval s;
     errCount := errCount s; fwd := fwd s; srcClosed := srcClosed s;
     stopClosed := stopClosed s; sinkClosed := true;
     delivered := delivered s; polled := polled s;
     forwarded := forwarded s |}.

Definition log_delivered (o : gmap string any) (s : bridge) : bridge :=
  {| poll := poll s; start := start s; pollInterval := pollInterval s;
     errCount := errCount s; fwd := fwd s; srcClosed := srcClosed s;
     stopClosed := stopClosed s; sinkClosed := sinkClosed s;
     delivered := delivered s ++ [o]; polled := polled s;
     forwarded := forwarded s |}.

Definition log_polled (cursor : Z) (s : bridge) : bridge :=
  {| poll := poll s; start := start s; pollInterval := pollInterval s;
     errCount := errCount s; fwd := fwd s; srcClosed := srcClosed s;
     stopClosed := stopClosed s; sinkClosed := sinkClosed s;
     delivered := delivered s; polled := polled s ++ [cursor];
     forwarded := forwarded s |}.

Definition log_forwarded (msg : any) (s : bridge) : bridge :=
  {| poll := poll s; start := start s; pollInterval := pollInterval s;
     errCount := errCount s; fwd := fwd s; srcClosed := srcClosed s;
     stopClosed := stopClosed s; sinkClosed := sinkClosed s;
     delivered := delivered s; polled := polled s;
     forwarded := forwarded s ++ [msg] |}.

(** The moves of the system.  The first two are the caller's, the next
    two the forwarding goroutine's, the rest the polling goroutine's.
    [err] is [true] when [doRequest] returned an error. *)
Inductive label :=
| CallerSend (msg : any)       (* a value is sent on SendCh and received *)
| CallerClose                  (* close(SendCh) *)
| FwdSeesClosed                (* msg, open := <-srcCh with open = false *)
| FwdReply (err : bool)        (* the forward request returns *)
| PollReply (err : bool) (messages : list message)  (* the poll returns *)
| PollNext                     (* a turn of the loop over the messages
                                  that sends nothing, or its end *)
| SinkRecv                     (* the consumer receives from RecvCh *)
| PollStop                     (* the select takes the stop case *)
| PollTick.                    (* the select takes the timer case *)

(** Lines 333-353 of [webRTCPoll]: the request for the messages from
    [start] on returned; the error count and the interval follow. *)
Definition afterPoll (err : bool) (messages : list message) (s : bridge)
    : bridge :=
  let s := log_polled (start s) s in
  let s := set_errCount (if err then add64 (errCount s) 1 else 0) s in
  if err && bool_decide (errCount s >= maxConsecutiveErrors) then
    set_poll PExited (close_sink s)
  else
    let s := set_pollInterval
               (nextPollInterval (pollInterval s) (length messages)) s in
    set_poll (PRange messages) s.

(** Lines 354-361: one turn of the loop over the messages.  A message
    of the expected type is sent on the sink, which takes a receiver
    ([recv]); any other is skipped by the goroutine alone. *)
Definition rangeStep (recv : bool) (s : bridge) : option bridge :=
  match poll s with
  | PRange [] => if recv then None else Some (set_poll PSelect s)
  | PRange (m :: rest) =>
      if unexpectedType m then
        if recv then None else Some (set_poll (PRange rest) s)
      else
        match payloadOf m with
        | None => if recv then None else Some (set_poll PPanicked s)
        | Some o =>
            if recv then
              Some (set_poll (PRange rest)
                      (set_start (add64 (start s) 1) (log_delivered o s)))
            else None
        end
  | _ => None
  end.

(** Lines 362-369: the select.  The timer is created by the select
    itself with a positive duration, so it has not fired when the stop
    channel is found closed; while the stop channel is open only the
    timer can wake the goroutine. *)
Definition selectStep (stop : bool) (s : bridge) : option bridge :=
  match poll s with
  | PSelect =>
      if stop then
        if stopClosed s then Some (set_poll PExited (close_sink s)) else None
      else
        if stopClosed s then None else Some (set_poll PRequest s)
  | _ => None
  end.

(** Lines 383-395 of [webRTCForward]: the forward request for [msg]
    returned, [i] failures having preceded it. *)
Definition afterForward (err : bool) (msg : any) (i : Z) (s : bridge)
    : bridge :=
  let s := log_forwarded msg s in
  let i' := if err then add64 i 1 else i in
  if err && bool_decide (i' < maxConsecutiveErrors) then
    set_fwd (FForward msg i') s
  else if decide (i' = maxConsecutiveErrors) then
    set_fwd FExited (close_stop s)
  else set_fwd FRecv s.

(** Lines 375-381: the receive from the source channel. *)
Definition recvStep (msg : option any) (s : bridge) : option bridge :=
  match fwd s, msg with
  | FRecv, Some m =>
      if srcClosed s then None else Some (set_fwd (FForward m 0) s)
  | FRecv, None =>
      if srcClosed s then Some (set_fwd FExited (close_stop s)) else None
  | _, _ => None
  end.

(** One move; [None]: the move is not possible in this state.  The
    channels are unbuffered, so a send and the matching receive are one
    move. *)
Definition step (s : bridge) (l : label) : option bridge :=
  match l with
  | CallerSend msg => recvStep (Some msg) s
  | CallerClose => if srcClosed s then None else Some (close_src s)
  | FwdSeesClosed => recvStep None s
  | FwdReply err =>
      match fwd s with
      | FForward msg i => Some (afterForward err msg i s)
      | _ => None
      end
  | PollReply err messages =>
      match poll s with
      | PRequest => Some (afterPoll err messages s)
      | _ => None
      end
  | PollNext => rangeStep false s
  | SinkRecv => rangeStep true s
  | PollStop => selectStep true s
  | PollTick => selectStep false s
  end.

(** A run: the moves taken one after the other. *)
Fixpoint exec (s : bridge) (ls : list label) : option bridge :=
  match ls with
  | [] => Some s
  | l :: ls => match step s l with
               | None => None
               | Some s' => exec s' ls
               end
  end.

(** *** The poll interval *)

Definition interval_ok (p : Z) : Prop :=
  initialPollInterval <= p <= maxPollInterval.

Lemma nextPollInterval_empty p :
  interval_ok p ->
  nextPollInterval p 0 = Z.min (2 * p) maxPollInterval.
Proof.
  unfold interval_ok, initialPollInterval, maxPollInterval, Second,
    Millisecond. intros Hp.
  unfold nextPollInterval. rewrite decide_False by lia.
  rewrite mul64_small by (unfold in_range, min_int, max_int; lia).
  unfold maxPollInterval, Second, Millisecond.
  destruct (decide (2 * p > 2 * (1000 * 1000000))); lia.
Qed.

Lemma nextPollInterval_nonempty p n :
  (0 < n)%nat -> nextPollInterval p n = initialPollInterval.
Proof. intros Hn. unfold nextPollInterval. by rewrite decide_True. Qed.

Lemma nextPollInterval_ok p n : interval_ok p -> interval_ok (nextPollInterval p n).
Proof.
  intros Hp. destruct n as [|n].
  - rewrite nextPollInterval_empty by done.
    unfold interval_ok, initialPollInterval, maxPollInterval, Second,
      Millisecond in *. lia.
  - rewrite nextPollInterval_nonempty by lia.
    unfold interval_ok, initialPollInterval, maxPollInterval, Second,
      Millisecond. lia.
Qed.

(** Every move other than the return of a poll leaves the interval
    alone. *)
Lemma step_pollInterval s l s' :
  step s l = Some s' ->
  pollInterval s' = pollInterval s \/
  exists err messages,
    l = PollReply err messages /\
    pollInterval s' = nextPollInterval (pollInterval s) (length messages).
Proof.
  destruct l; simpl; unfold recvStep, rangeStep, selectStep, afterForward,
    afterPoll; intros H;
    repeat (case_match; simplify_eq; simpl in *; eauto).
Qed.

Lemma step_interval_ok s l s' :
  step s l = Some s' -> interval_ok (pollInterval s) ->
  interval_ok (pollInterval s').
Proof.
  intros Hstep Hok.
  destruct (step_pollInterval _ _ _ Hstep) as [->|(err & ms & _ & ->)];
    [done|]. by apply nextPollInterval_ok.
Qed.

Lemma exec_interval_ok ls : forall s s',
  exec s ls = Some s' -> interval_ok (pollInterval s) ->
  interval_ok (pollInterval s').
Proof.
  induction ls as [|l ls IH]; simpl; intros s s' Hexec Hok.
  - by simplify_eq.
  - destruct (step s l) as [s1|] eqn:Hstep; [|done].
    eapply IH; [done|]. by eapply step_interval_ok.
Qed.

(** C6.  The poll interval starts at 100ms; in every state the polling
    loop can reach it lies between 100ms and 2s; a poll that returns no
    message and after which the loop goes on doubles it, up to the cap of
    2s; a poll that returns at least one message and after which the loop
    goes on resets it to 100ms.  (The only poll after which the loop does
    not go on is the one that reaches the error threshold: the loop
    returns there.) *)
Theorem pollInterval_bounds (ls : list label) (s : bridge) :
  exec init ls = Some s ->
  initialPollInterval = 100000000 /\ maxPollInterval = 2000000000
  /\ pollInterval init = initialPollInterval
  /\ initialPollInterval <= pollInterval s <= maxPollInterval
  /\ forall err messages s',
       step s (PollReply err messages) = Some s' ->
       poll s' = PExited \/
       (poll s' = PRange messages
        /\ (messages = [] ->
            pollInterval s' = Z.min (2 * pollInterval s) maxPollInterval)
        /\ (messages <> [] -> pollInterval s' = initialPollInterval)).
Proof.
  intros Hexec.
  assert (Hok : interval_ok (pollInterval s)).
  { eapply exec_interval_ok; [done|]. unfold interval_ok. simpl.
    unfold initialPollInterval, maxPollInterval, Second, Millisecond. lia. }
  split; [reflexivity|]. split; [reflexivity|]. split; [reflexivity|].
  split; [exact Hok|].
  intros err messages s' Hstep. simpl in Hstep.
  destruct (poll s) eqn:Hpc; try discriminate. simplify_eq.
  unfold afterPoll. simpl.
  destruct (err && bool_decide (_ >= _)); simpl; [by left|right].
  split; [done|]. split.
  - intros ->. by apply nextPollInterval_empty.
  - intros Hne. apply nextPollInterval_nonempty.
    destruct messages; [done|simpl; lia].
Qed.

(** Three empty polls, then one that brings a message. *)
Definition device_msg (o : gmap string any) : message :=
  <["message_type" := AString "device_msg"]> (<["payload" := AObject o]> ∅).

Definition four_polls : list label :=
  [PollReply false []; PollNext; PollTick;
   PollReply false []; PollNext; PollTick;
   PollReply false []; PollNext; PollTick;
   PollReply false [device_msg ∅]; SinkRecv; PollNext; PollTick].

Lemma pollInterval_bounds_witness :
  pollInterval <$> exec init (take 3 four_polls) = Some 200000000
  /\ pollInterval <$> exec init (take 6 four_polls) = Some 400000000
  /\ pollInterval <$> exec init (take 9 four_polls) = Some 800000000
  /\ exists s, exec init four_polls = Some s
       /\ initialPollInterval <= pollInterval s <= maxPollInterval.
Proof.
  split; [vm_compute; reflexivity|].
  split; [vm_compute; reflexivity|].
  split; [vm_compute; reflexivity|].
  destruct (exec init four_polls) as [s|] eqn:Hs; [|vm_compute in Hs; discriminate].
  exists s. split; [reflexivity|].
  exact (proj1 (proj2 (proj2 (proj2 (pollInterval_bounds four_polls s Hs))))).
Defined.

(** *** Shutdown *)

(** The moves of each goroutine. *)
Definition fwd_move (l : label) : bool :=
  match l with
  | FwdSeesClosed | FwdReply _ => true
  | _ => false
  end.

Definition poll_move (l : label) : bool :=
  match l with
  | PollReply _ _ | PollNext | SinkRecv | PollStop | PollTick => true
  | _ => false
  end.

Definition poll_reply (l : label) : bool :=
  match l with
  | PollReply _ _ => true
  | _ => false
  end.

(** The moves the polling goroutine makes without the consumer: all of
    its moves but the send of line 359, which waits for a receiver. *)
Definition poll_alone (l : label) : bool :=
  match l with
  | PollReply _ _ | PollNext | PollStop | PollTick => true
  | _ => false
  end.

(** The number of moves of a run that satisfy [f]. *)
Fixpoint tally (f : label -> bool) (ls : list label) : nat :=
  match ls with
  | [] => 0
  | l :: ls => ((if f l then 1 else 0) + tally f ls)%nat
  end.

(** The number of messages the polls of a run bring in. *)
Fixpoint incoming (ls : list label) : nat :=
  match ls with
  | [] => 0
  | PollReply _ messages :: ls => (length messages + incoming ls)%nat
  | _ :: ls => incoming ls
  end.

(** The wire contract of the inbound envelope: a message of type
    [device_msg] carries an object as its payload. *)
Definition wire_ok (m : message) : bool :=
  unexpectedType m || bool_decide (is_Some (payloadOf m)).

Definition wire_contract (l : label) : bool :=
  match l with
  | PollReply _ messages => forallb wire_ok messages
  | _ => true
  end.

(** How many moves the forwarding goroutine has left, at most, once the
    source channel is closed. *)
Definition fwd_rank (s : bridge) : nat :=
  match fwd s with
  | FRecv => 1
  | FForward _ i => Z.to_nat (maxConsecutiveErrors + 1 - i)
  | FExited => 0
  end.

(** How many moves the polling goroutine has left, at most, once the
    stop channel is closed, not counting one move per message of a poll
    still to return. *)
Definition poll_rank (s : bridge) : nat :=
  match poll s with
  | PRequest => 3
  | PRange pending => 2 + length pending
  | PSelect => 1
  | PExited | PPanicked => 0
  end.

Definition polls_left (s : bridge) : nat :=
  match poll s with
  | PRequest => 1
  | _ => 0
  end.

(** What holds in every state the bridge reaches under the wire
    contract. *)
Record inv (s : bridge) : Prop := {
  inv_stop : stopClosed s = true <-> fwd s = FExited;
  inv_sink : sinkClosed s = true <-> poll s = PExited;
  inv_tries : forall msg i, fwd s = FForward msg i ->
                0 <= i < maxConsecutiveErrors;
  inv_wire : forall pending, poll s = PRange pending ->
               forallb wire_ok pending = true;
  inv_alive : poll s <> PPanicked
}.

Lemma inv_init : inv init.
Proof. split; simpl; try done; split; done. Qed.

Ltac bridge_cases :=
  unfold recvStep, rangeStep, selectStep, afterForward, afterPoll in *;
  repeat (case_match; simplify_eq; simpl in *; try done).

Lemma add64_tries i :
  0 <= i < maxConsecutiveErrors -> add64 i 1 = i + 1.
Proof.
  unfold maxConsecutiveErrors. intros Hi. apply add64_small.
  unfold in_range, min_int, max_int. lia.
Qed.


Ltac inv_auto Hstop Hsink :=
  try done;
  split; simpl; try done;
  try (split; [intros Hc; first [apply Hstop in Hc | apply Hsink in Hc];
                  congruence | done]);
  try (intros ? ? [= <- <-]; unfold maxConsecutiveErrors in *; lia);
  try (by intros ? [= <-]);
  try (intuition congruence).

Lemma inv_step s l s' :
  inv s -> wire_contract l = true -> step s l = Some s' -> inv s'.
Proof.
  intros [Hstop Hsink Htries Hwire Halive] Hl Hstep.
  destruct l; simpl in Hstep, Hl.
  - (* CallerSend *) bridge_cases; inv_auto Hstop Hsink.
  - (* CallerClose *) bridge_cases; inv_auto Hstop Hsink.
  - (* FwdSeesClosed *) bridge_cases; inv_auto Hstop Hsink.
  - (* FwdReply *)
    destruct (fwd s) as [|msg i|] eqn:Hf; [done| |done].
    specialize (Htries msg i eq_refl).
    injection Hstep as <-. unfold afterForward.
    destruct err; simpl.
    + rewrite (add64_tries i Htries).
      destruct (bool_decide (i + 1 < maxConsecutiveErrors)) eqn:Hlt; simpl.
      * apply bool_decide_eq_true in Hlt. inv_auto Hstop Hsink.
      * apply bool_decide_eq_false in Hlt.
        rewrite decide_True by lia. inv_auto Hstop Hsink.
    + rewrite decide_False by lia. inv_auto Hstop Hsink.
  - (* PollReply *)
    destruct (poll s) eqn:Hp; try done. injection Hstep as <-.
    unfold afterPoll. simpl.
    destruct (err && bool_decide (_ >= _)); simpl; inv_auto Hstop Hsink.
  - (* PollNext *)
    unfold rangeStep in Hstep.
    destruct (poll s) as [|pending| | |] eqn:Hp; try done.
    specialize (Hwire pending eq_refl).
    destruct pending as [|m rest]; simplify_eq; [inv_auto Hstop Hsink|].
    simpl in Hwire. apply andb_true_iff in Hwire as [Hm Hrest].
    unfold wire_ok in Hm.
    destruct (unexpectedType m) eqn:Hu; simplify_eq; [inv_auto Hstop Hsink|].
    simpl in Hm. apply bool_decide_eq_true in Hm as [o Ho].
    rewrite Ho in Hstep. done.
  - (* SinkRecv *)
    unfold rangeStep in Hstep.
    destruct (poll s) as [|pending| | |] eqn:Hp; try done.
    specialize (Hwire pending eq_refl).
    destruct pending as [|m rest]; simplify_eq.
    simpl in Hwire. apply andb_true_iff in Hwire as [Hm Hrest].
    destruct (unexpectedType m); [done|].
    destruct (payloadOf m); [|done]. simplify_eq.
    inv_auto Hstop Hsink.
  - (* PollStop *) bridge_cases; inv_auto Hstop Hsink.
  - (* PollTick *) bridge_cases; inv_auto Hstop Hsink.
Qed.

Lemma inv_exec ls : forall s s',
  inv s -> forallb wire_contract ls = true -> exec s ls = Some s' -> inv s'.
Proof.
  induction ls as [|l ls IH]; simpl; intros s s' Hinv Hls Hexec.
  - by simplify_eq.
  - apply andb_true_iff in Hls as [Hl Hls].
    destruct (step s l) as [s1|] eqn:Hstep; [|done].
    eapply IH; [|done|done]. by eapply inv_step.
Qed.

Lemma step_srcClosed s l s' :
  step s l = Some s' -> srcClosed s = true -> srcClosed s' = true.
Proof. destruct l; simpl; intros Hstep Hc; bridge_cases. Qed.

Lemma step_stopClosed s l s' :
  step s l = Some s' -> stopClosed s = true -> stopClosed s' = true.
Proof. destruct l; simpl; intros Hstep Hc; bridge_cases. Qed.

Lemma exec_srcClosed ls : forall s s',
  exec s ls = Some s' -> srcClosed s = true -> srcClosed s' = true.
Proof.
  induction ls as [|l ls IH]; simpl; intros s s' Hexec Hc; [by simplify_eq|].
  destruct (step s l) eqn:Hstep; [|done]. eauto using step_srcClosed.
Qed.

(** Once the source channel is closed every move of the forwarding
    goroutine brings it closer to its end, and no other move touches it. *)
Lemma step_fwd_rank s l s' :
  inv s -> srcClosed s = true -> step s l = Some s' ->
  ((if fwd_move l then 1 else 0) + fwd_rank s' <= fwd_rank s)%nat.
Proof.
  intros Hinv Hsrc Hstep. unfold fwd_rank.
  destruct l; simpl in *;
    try (bridge_cases; unfold maxConsecutiveErrors; lia).
  destruct (fwd s) as [|msg i|] eqn:Hf; [done| |done].
  pose proof (inv_tries s Hinv msg i Hf) as Hi.
  injection Hstep as <-. unfold afterForward, maxConsecutiveErrors in *.
  destruct err; simpl.
  - rewrite add64_small by (unfold in_range, min_int, max_int; lia).
    destruct (bool_decide (i + 1 < 10)) eqn:Hlt; simpl; [lia|].
    apply bool_decide_eq_false in Hlt. rewrite decide_True by lia.
    simpl. lia.
  - rewrite decide_False by lia. simpl. lia.
Qed.

(** Once the stop channel is closed every move of the polling goroutine
    brings it closer to its end, a poll that returns adding one move per
    message it brings; it starts no poll but the one it may be in. *)
Lemma step_poll_rank s l s' :
  stopClosed s = true -> step s l = Some s' ->
  ((if poll_move l then 1 else 0) + poll_rank s' <= poll_rank s + incoming [l])%nat
  /\ ((if poll_reply l then 1 else 0) + polls_left s' <= polls_left s)%nat.
Proof.
  intros Hstop Hstep. unfold poll_rank, polls_left.
  destruct l; simpl in *; bridge_cases; lia.
Qed.

Lemma tally_app f ls1 ls2 : tally f (ls1 ++ ls2) = (tally f ls1 + tally f ls2)%nat.
Proof. induction ls1 as [|l ls1 IH]; simpl; lia. Qed.

Lemma exec_fwd_rank ls : forall s s',
  inv s -> forallb wire_contract ls = true -> srcClosed s = true ->
  exec s ls = Some s' ->
  (tally fwd_move ls + fwd_rank s' <= fwd_rank s)%nat.
Proof.
  induction ls as [|l ls IH]; simpl; intros s s' Hinv Hls Hsrc Hexec.
  - simplify_eq. lia.
  - apply andb_true_iff in Hls as [Hl Hls].
    destruct (step s l) as [s1|] eqn:Hstep; [|done].
    pose proof (step_fwd_rank _ _ _ Hinv Hsrc Hstep).
    pose proof (IH s1 s' (inv_step _ _ _ Hinv Hl Hstep) Hls
                  (step_srcClosed _ _ _ Hstep Hsrc) Hexec).
    lia.
Qed.

Lemma exec_poll_rank ls : forall s s',
  stopClosed s = true -> exec s ls = Some s' ->
  (tally poll_move ls + poll_rank s' <= poll_rank s + incoming ls)%nat
  /\ (tally poll_reply ls + polls_left s' <= polls_left s)%nat.
Proof.
  induction ls as [|l ls IH]; intros s s' Hstop Hexec; simpl in Hexec.
  - simplify_eq. simpl. lia.
  - destruct (step s l) as [s1|] eqn:Hstep; [|done].
    pose proof (step_poll_rank _ _ _ Hstop Hstep) as [H1 H2].
    pose proof (IH s1 s' (step_stopClosed _ _ _ Hstep Hstop) Hexec) as [H3 H4].
    assert (incoming (l :: ls) = (incoming [l] + incoming ls)%nat) as ->
      by (destruct l; simpl; lia).
    cbn [tally]. lia.
Qed.

(** Neither goroutine is ever stuck before its end: the forwarding one
    once the source channel is closed, the polling one as long as the
    consumer takes what is sent on the sink.  The move found here brings
    no new message in. *)
Lemma fwd_progress s :
  srcClosed s = true -> fwd s <> FExited ->
  exists l, fwd_move l = true /\ wire_contract l = true
            /\ is_Some (step s l).
Proof.
  intros Hsrc Hf. destruct (fwd s) as [|msg i|] eqn:Hpc; [| |done].
  - exists FwdSeesClosed. split; [done|]. split; [done|].
    simpl. unfold recvStep. rewrite Hpc, Hsrc. eauto.
  - exists (FwdReply false). split; [done|]. split; [done|].
    simpl. rewrite Hpc. eauto.
Qed.

Lemma poll_progress s :
  inv s -> poll s <> PExited ->
  exists l, poll_move l = true /\ wire_contract l = true
            /\ incoming [l] = 0%nat /\ is_Some (step s l).
Proof.
  intros Hinv Hp. destruct (poll s) as [|pending| | |] eqn:Hpc.
  - exists (PollReply false []). repeat (split; [done|]).
    simpl. rewrite Hpc. eauto.
  - pose proof (inv_wire s Hinv pending Hpc) as Hw.
    destruct pending as [|m rest].
    + exists PollNext. repeat (split; [done|]). simpl. unfold rangeStep.
      rewrite Hpc. eauto.
    + simpl in Hw. apply andb_true_iff in Hw as [Hm _]. unfold wire_ok in Hm.
      destruct (unexpectedType m) eqn:Hu.
      * exists PollNext. repeat (split; [done|]). simpl. unfold rangeStep.
        rewrite Hpc, Hu. eauto.
      * simpl in Hm. apply bool_decide_eq_true in Hm as [o Ho].
        exists SinkRecv. repeat (split; [done|]). simpl. unfold rangeStep.
        rewrite Hpc, Hu, Ho. eauto.
  - destruct (stopClosed s) eqn:Hstop.
    + exists PollStop. repeat (split; [done|]). simpl. unfold selectStep.
      rewrite Hpc, Hstop. eauto.
    + exists PollTick. repeat (split; [done|]). simpl. unfold selectStep.
      rewrite Hpc, Hstop. eauto.
  - done.
  - by destruct (inv_alive s Hinv).
Qed.

Lemma exec_app ls1 : forall ls2 s s1 s2,
  exec s ls1 = Some s1 -> exec s1 ls2 = Some s2 ->
  exec s (ls1 ++ ls2) = Some s2.
Proof.
  induction ls1 as [|l ls1 IH]; simpl; intros ls2 s s1 s2 H1 H2.
  - by simplify_eq.
  - destruct (step s l) as [s'|]; [|done]. eauto.
Qed.

(** With the source channel closed the forwarding goroutine can run to
    its end, which closes the stop channel... *)
Lemma fwd_finishes n : forall s,
  inv s -> srcClosed s = true -> (fwd_rank s <= n)%nat ->
  exists ls s',
    forallb wire_contract ls = true /\ exec s ls = Some s'
    /\ inv s' /\ stopClosed s' = true.
Proof.
  induction n as [|n IH]; intros s Hinv Hsrc Hn.
  - exists [], s. repeat (split; [done|]). apply (inv_stop s Hinv).
    unfold fwd_rank, maxConsecutiveErrors in Hn.
    destruct (fwd s) as [|msg i|] eqn:Hf; [lia| |done].
    pose proof (inv_tries s Hinv msg i Hf). unfold maxConsecutiveErrors in *.
    lia.
  - destruct (fwd s) eqn:Hf.
    3:{ exists [], s. repeat (split; [done|]). by apply (inv_stop s Hinv). }
    all: destruct (fwd_progress s Hsrc ltac:(congruence))
           as (l & Hl & Hw & s1 & Hstep);
         pose proof (step_fwd_rank _ _ _ Hinv Hsrc Hstep) as Hr;
         rewrite Hl in Hr;
         destruct (IH s1 (inv_step _ _ _ Hinv Hw Hstep)
                     (step_srcClosed _ _ _ Hstep Hsrc) ltac:(lia))
           as (ls & s' & Hws & Hexec & Hinv' & Hstop);
         exists (l :: ls), s'; simpl; rewrite Hw, Hstep; eauto.
Qed.

(** ... and with the stop channel closed the polling goroutine can run
    to its end, which closes the sink. *)
Lemma poll_finishes n : forall s,
  inv s -> stopClosed s = true -> (poll_rank s <= n)%nat ->
  exists ls s',
    forallb wire_contract ls = true /\ exec s ls = Some s'
    /\ stopClosed s' = true /\ sinkClosed s' = true.
Proof.
  induction n as [|n IH]; intros s Hinv Hstop Hn.
  - exists [], s. repeat (split; [done|]). apply (inv_sink s Hinv).
    unfold poll_rank in Hn. destruct (poll s) eqn:Hp; try lia; [done|].
    by destruct (inv_alive s Hinv).
  - destruct (poll s) eqn:Hp.
    4:{ exists [], s. repeat (split; [done|]). by apply (inv_sink s Hinv). }
    4:{ by destruct (inv_alive s Hinv). }
    all: destruct (poll_progress s Hinv ltac:(congruence))
           as (l & Hl & Hw & Hin & s1 & Hstep);
         pose proof (step_poll_rank _ _ _ Hstop Hstep) as [Hr _];
         rewrite Hl, Hin in Hr;
         destruct (IH s1 (inv_step _ _ _ Hinv Hw Hstep)
                     (step_stopClosed _ _ _ Hstep Hstop) ltac:(lia))
           as (ls & s' & Hws & Hexec & Hstop' & Hsink);
         exists (l :: ls), s'; simpl; rewrite Hw, Hstep; eauto.
Qed.

(** C7, as amended.  Take any run of the bridge in which every polled
    message of type [device_msg] carries an object as its payload, and
    any point of it after the caller closed the send channel.  From there
    on

    - the forwarding goroutine is never stuck, makes at most eleven more
      moves (the forward attempts of the message in hand and the receive
      that finds the channel closed), and has closed the stop channel
      exactly when it has returned;
    - once the stop channel is closed the polling goroutine starts no new
      poll: at most the one request in flight returns, its messages are
      gone through, and the select then takes the stop case, which closes
      the receive channel and ends the goroutine;
    - on the way the polling goroutine either can move on its own or
      stands at the send of line 359 with the consumer's receive as the
      move that lets it go on: it waits for nothing but the consumer;
    - so with the consumer receiving, a state in which the stop channel
      and the receive channel are both closed can always be reached, and
      when nothing can move any more, the consumer's receive included,
      they are both closed. *)
Theorem closing_send_closes_both (ls1 ls2 : list label) (s s' : bridge) :
  forallb wire_contract (ls1 ++ ls2) = true ->
  exec init ls1 = Some s ->
  srcClosed s = true ->
  exec s ls2 = Some s' ->
  (tally fwd_move ls2 + fwd_rank s' <= fwd_rank s <= 11)%nat
  /\ (fwd s' <> FExited -> exists l, fwd_move l = true /\ is_Some (step s' l))
  /\ (fwd s' = FExited <-> stopClosed s' = true)
  /\ (stopClosed s = true ->
      (tally poll_reply ls2 + polls_left s' <= polls_left s <= 1)%nat
      /\ (tally poll_move ls2 + poll_rank s' <= poll_rank s + incoming ls2)%nat)
  /\ (poll s' <> PExited ->
      (exists l, poll_alone l = true /\ is_Some (step s' l))
      \/ is_Some (step s' SinkRecv))
  /\ (stopClosed s' = true -> poll s' = PSelect ->
      step s' PollStop = Some (set_poll PExited (close_sink s')))
  /\ (poll s' = PExited <-> sinkClosed s' = true)
  /\ (exists ls3 s'',
        forallb wire_contract ls3 = true /\ exec s' ls3 = Some s''
        /\ stopClosed s'' = true /\ sinkClosed s'' = true)
  /\ ((forall l, step s' l = None) ->
      stopClosed s' = true /\ sinkClosed s' = true).
Proof.
  intros Hwire Hexec1 Hsrc Hexec2.
  rewrite forallb_app in Hwire. apply andb_true_iff in Hwire as [Hw1 Hw2].
  pose proof (inv_exec _ _ _ inv_init Hw1 Hexec1) as Hinv.
  pose proof (inv_exec _ _ _ Hinv Hw2 Hexec2) as Hinv'.
  pose proof (exec_srcClosed _ _ _ Hexec2 Hsrc) as Hsrc'.
  assert (Hfwd : fwd s' <> FExited ->
                 exists l, fwd_move l = true /\ is_Some (step s' l)).
  { intros Hne. destruct (fwd_progress s' Hsrc' Hne) as (l & ? & _ & ?).
    eauto. }
  assert (Hpoll : poll s' <> PExited -> exists l, is_Some (step s' l)).
  { intros Hne. destruct (poll_progress s' Hinv' Hne) as (l & _ & _ & _ & ?).
    eauto. }
  split.
  { split; [by apply exec_fwd_rank|]. unfold fwd_rank.
    destruct (fwd s) as [|msg i|] eqn:Hf; [lia| |lia].
    pose proof (inv_tries s Hinv msg i Hf). unfold maxConsecutiveErrors in *.
    lia. }
  split; [exact Hfwd|].
  split; [symmetry; apply (inv_stop s' Hinv')|].
  split.
  { intros Hstop. destruct (exec_poll_rank _ _ _ Hstop Hexec2) as [H1 H2].
    split; [|exact H1]. split; [exact H2|].
    unfold polls_left. destruct (poll s); lia. }
  split.
  { intros Hne.
    destruct (poll_progress s' Hinv' Hne) as (l & Hl & _ & _ & Hstep).
    destruct l; try discriminate Hl;
      first [by right | left; eexists; split; [|exact Hstep]; done]. }
  split.
  { intros Hstop Hp. simpl. unfold selectStep. by rewrite Hp, Hstop. }
  split; [symmetry; apply (inv_sink s' Hinv')|].
  split.
  { destruct (fwd_finishes _ s' Hinv' Hsrc' (Nat.le_refl _))
      as (lsa & sa & Hwa & Hexa & Hinva & Hstopa).
    destruct (poll_finishes _ sa Hinva Hstopa (Nat.le_refl _))
      as (lsb & sb & Hwb & Hexb & Hstopb & Hsinkb).
    exists (lsa ++ lsb), sb. rewrite forallb_app, Hwa, Hwb.
    split; [done|]. split; [by eapply exec_app|]. done. }
  intros Hquiet. split.
  - apply (inv_stop s' Hinv').
    destruct (fwd s') eqn:Hf; try done;
      (destruct Hfwd as (l & _ & [x Hx]); [done|]; rewrite Hquiet in Hx; done).
  - apply (inv_sink s' Hinv').
    destruct (poll s') eqn:Hp; try done;
      (destruct Hpoll as (l & [x Hx]); [done|]; rewrite Hquiet in Hx; done).
Qed.

(** The caller sends one message and closes the send channel while a
    poll is in flight; the forward succeeds, the goroutine finds the
    channel closed, the poll returns one message, and the select stops. *)
Definition hangup : list label :=
  [CallerSend (AString "offer"); CallerClose].

Definition wind_down : list label :=
  [FwdReply false; FwdSeesClosed; PollReply false [device_msg ∅];
   SinkRecv; PollNext; PollStop].

Lemma closing_send_closes_both_witness :
  exists s s',
    exec init hangup = Some s /\ exec s wind_down = Some s'
    /\ (forall l, step s' l = None)
    /\ stopClosed s' = true /\ sinkClosed s' = true.
Proof.
  destruct (exec init hangup) as [s|] eqn:Hs; [|vm_compute in Hs; discriminate].
  destruct (exec s wind_down) as [s'|] eqn:Hs';
    [|vm_compute in Hs; simplify_eq; vm_compute in Hs'; discriminate].
  exists s, s'. split; [reflexivity|]. split; [exact Hs'|].
  assert (Hsrc : srcClosed s = true)
    by (vm_compute in Hs; simplify_eq; reflexivity).
  assert (Hquiet : forall l, step s' l = None).
  { vm_compute in Hs. simplify_eq. vm_compute in Hs'. simplify_eq.
    intros []; reflexivity. }
  split; [exact Hquiet|].
  exact (proj2 (proj2 (proj2 (proj2 (proj2 (proj2 (proj2 (proj2
    (closing_send_closes_both hangup wind_down s s' eq_refl Hs Hsrc Hs'))))))))
    Hquiet).
Defined.

(** A message of type [device_msg] whose payload is a string: the type
    assertion of line 359 panics on it. *)
Definition text_msg : message :=
  <["message_type" := AString "device_msg"]>
    (<["payload" := AString "candidate"]> ∅).

(** The caller closes the send channel, the forwarding goroutine closes
    the stop channel, and the poll in flight brings one message. *)
Definition closed_then (m : message) : list label :=
  [CallerClose; FwdSeesClosed; PollReply false [m]].

(** The caller closes the send channel while the forwarding goroutine
    waits for the answer to a forward request; the polls go on. *)
Definition slow_forward : list label :=
  [CallerSend (AString "offer"); CallerClose;
   PollReply false []; PollNext; PollTick;
   PollReply false []; PollNext; PollTick].

(** C7 as stated fails in three ways.

    - The consumer has stopped receiving: after [closed_then (device_msg
      ∅)] the send channel and the stop channel are closed, the polling
      goroutine stands at the send of line 359, and no move but the
      consumer's receive is possible, so that without it the receive
      channel stays open for good.
    - A polled [device_msg] whose payload is not an object: the type
      assertion panics, no move is left and the receive channel is
      open.
    - The forward request in hand has not returned: two whole poll
      cycles have gone by since the send channel was closed, and the stop
      channel is still open; the count of one poll cycle starts at the
      closing of the stop channel, not of the send channel. *)
Lemma closing_send_not_enough :
  (exists s,
     exec init (closed_then (device_msg ∅)) = Some s
     /\ srcClosed s = true /\ stopClosed s = true /\ sinkClosed s = false
     /\ (forall l, l <> SinkRecv -> step s l = None)
     /\ forall ls s', exec s ls = Some s' -> SinkRecv ∉ ls ->
          sinkClosed s' = false)
  /\ (exists s,
        exec init (closed_then text_msg ++ [PollNext]) = Some s
        /\ srcClosed s = true /\ stopClosed s = true /\ sinkClosed s = false
        /\ poll s = PPanicked
        /\ forall l, step s l = None)
  /\ (exists s,
        exec init slow_forward = Some s
        /\ srcClosed s = true /\ stopClosed s = false /\ sinkClosed s = false
        /\ tally poll_reply (drop 2 slow_forward) = 2%nat).
Proof.
  split; [|split].
  - destruct (exec init (closed_then (device_msg ∅))) as [s|] eqn:Hs;
      [|vm_compute in Hs; discriminate].
    assert (Hpc : poll s = PRange [device_msg ∅] /\ fwd s = FExited
                  /\ srcClosed s = true /\ stopClosed s = true
                  /\ sinkClosed s = false).
    { vm_compute in Hs. injection Hs as <-. repeat split. }
    destruct Hpc as (Hp & Hf & Hsrc & Hstop & Hsink).
    assert (Hstuck : forall l, l <> SinkRecv -> step s l = None).
    { intros l Hl. destruct l; simpl; unfold recvStep, rangeStep, selectStep;
        rewrite ?Hp, ?Hf, ?Hsrc; try reflexivity. by destruct Hl. }
    exists s. repeat (split; [done|]).
    intros [|l ls] s' Hexec Hnot; simpl in Hexec.
    + by injection Hexec as <-.
    + rewrite Hstuck in Hexec; [done|].
      intros ->. apply Hnot. by left.
  - destruct (exec init (closed_then text_msg ++ [PollNext])) as [s|] eqn:Hs;
      [|vm_compute in Hs; discriminate].
    assert (Hpc : poll s = PPanicked /\ fwd s = FExited
                  /\ srcClosed s = true /\ stopClosed s = true
                  /\ sinkClosed s = false).
    { vm_compute in Hs. injection Hs as <-. repeat split. }
    destruct Hpc as (Hp & Hf & Hsrc & Hstop & Hsink).
    exists s. repeat (split; [done|]).
    intros l. destruct l; simpl; unfold recvStep, rangeStep, selectStep;
      rewrite ?Hp, ?Hf, ?Hsrc; reflexivity.
  - destruct (exec init slow_forward) as [s|] eqn:Hs;
      [|vm_compute in Hs; discriminate].
    assert (Hpc : srcClosed s = true /\ stopClosed s = false
                  /\ sinkClosed s = false).
    { vm_compute in Hs. injection Hs as <-. repeat split. }
    destruct Hpc as (Hsrc & Hstop & Hsink).
    exists s. repeat (split; [done|]). reflexivity.
Qed.

(** *** What a run has seen *)

Lemma exec_snoc ls l s s' :
  exec s (ls ++ [l]) = Some s' <->
  exists s1, exec s ls = Some s1 /\ step s1 l = Some s'.
Proof.
  revert s. induction ls as [|l0 ls IH]; intros s; simpl.
  - destruct (step s l) as [s1|] eqn:Hstep.
    + split; [intros [= <-]; eauto|]. intros (s1' & [= <-] & H). congruence.
    + split; [done|]. intros (s1' & [= <-] & H). congruence.
  - destruct (step s l0) as [s1|]; [apply IH|].
    split; [done|]. by intros (s1' & ? & _).
Qed.

(** Induction on a run, a move at a time from the initial state. *)
Lemma exec_ind_r (P : list label -> bridge -> Prop) (s0 : bridge) :
  P [] s0 ->
  (forall ls s l s',
     exec s0 ls = Some s -> P ls s -> step s l = Some s' ->
     P (ls ++ [l]) s') ->
  forall ls s, exec s0 ls = Some s -> P ls s.
Proof.
  intros H0 Hstep ls. induction ls as [|l ls IH] using rev_ind; intros s Hexec.
  - simpl in Hexec. by simplify_eq.
  - apply exec_snoc in Hexec as (s1 & H1 & H2). eauto.
Qed.

(** The messages one move brings in, and those a run brought in, in the
    order in which the server gave them. *)
Definition brought (l : label) : list message :=
  match l with
  | PollReply _ messages => messages
  | _ => []
  end.

Definition received (ls : list label) : list message :=
  concat (brought <$> ls).

(** The payloads the loop of lines 354-361 sends for a list of
    messages: those of the messages of type [device_msg]. *)
Definition payloads (ms : list message) : list (gmap string any) :=
  omap (fun m => if unexpectedType m then None else payloadOf m) ms.

(** The messages of the last poll the loop has yet to go through. *)
Definition backlog (s : bridge) : list message :=
  match poll s with
  | PRange pending => pending
  | _ => []
  end.

Lemma received_snoc ls l : received (ls ++ [l]) = received ls ++ brought l.
Proof.
  unfold received. rewrite fmap_app, concat_app. simpl. by rewrite app_nil_r.
Qed.

Lemma payloads_app ms1 ms2 :
  payloads (ms1 ++ ms2) = payloads ms1 ++ payloads ms2.
Proof. apply omap_app. Qed.

Lemma payloads_cons m rest :
  payloads (m :: rest) =
  match (if unexpectedType m then None else payloadOf m) with
  | Some o => o :: payloads rest
  | None => payloads rest
  end.
Proof. reflexivity. Qed.

Lemma wrap64_add_l a b : wrap64 (wrap64 a + b) = wrap64 (a + b).
Proof.
  unfold wrap64.
  replace ((a + 2 ^ 63) mod 2 ^ 64 - 2 ^ 63 + b + 2 ^ 63)
    with ((a + 2 ^ 63) mod 2 ^ 64 + b) by lia.
  rewrite Zplus_mod_idemp_l. f_equal. f_equal. lia.
Qed.

(** The polling goroutine is still in its loop. *)
Definition polling (s : bridge) : Prop :=
  poll s <> PExited /\ poll s <> PPanicked.

(** What the polling goroutine keeps of the messages [all] the polls
    brought in: what it delivered is a prefix of their payloads; while it
    is in its loop, what was delivered and what is left of the last poll
    make up all of them; the cursor counts what was delivered. *)
Record in_order (all : list message) (s : bridge) : Prop := {
  io_prefix : delivered s `prefix_of` payloads all;
  io_all : polling s -> delivered s ++ payloads (backlog s) = payloads all;
  io_cursor : start s = wrap64 (Z.of_nat (length (delivered s)))
}.

(** A move of the caller or of the forwarding goroutine leaves what
    belongs to the polling goroutine alone, and the other way round. *)
Lemma step_frame_poll s l s' :
  poll_move l = false -> step s l = Some s' ->
  poll s' = poll s /\ start s' = start s /\ errCount s' = errCount s
  /\ delivered s' = delivered s /\ polled s' = polled s
  /\ sinkClosed s' = sinkClosed s.
Proof. destruct l; simpl; intros Hl Hstep; try done; bridge_cases. Qed.

Lemma step_frame_fwd s l s' :
  poll_move l = true -> step s l = Some s' ->
  fwd s' = fwd s /\ forwarded s' = forwarded s
  /\ stopClosed s' = stopClosed s /\ srcClosed s' = srcClosed s.
Proof. destruct l; simpl; intros Hl Hstep; try done; bridge_cases. Qed.

Lemma in_order_same all s s' :
  poll s' = poll s -> delivered s' = delivered s -> start s' = start s ->
  in_order all s -> in_order all s'.
Proof.
  intros Hp Hd Hs [Hpre Hall Hcur].
  split; unfold polling, backlog in *; rewrite ?Hp, ?Hd, ?Hs; done.
Qed.

Lemma in_order_step all s l s' :
  in_order all s -> step s l = Some s' -> in_order (all ++ brought l) s'.
Proof.
  intros Hio Hstep.
  destruct (poll_move l) eqn:Hl.
  2:{ destruct (step_frame_poll _ _ _ Hl Hstep) as (Hp & Hs & _ & Hd & _).
      replace (brought l) with (@nil message) by (by destruct l).
      rewrite app_nil_r. by eapply in_order_same. }
  destruct Hio as [Hpre Hall Hcur]. unfold polling, backlog in Hall.
  destruct l; try done; simpl in Hstep; cbn [brought]; rewrite ?app_nil_r.
  - (* PollReply *)
    destruct (poll s) eqn:Hp; try done. injection Hstep as <-.
    specialize (Hall ltac:(done)). rewrite app_nil_r in Hall.
    unfold afterPoll. simpl.
    destruct (err && bool_decide (_ >= _)); simpl.
    + split; unfold polling, backlog; simpl; [|tauto|done].
      rewrite payloads_app, <- Hall. by apply prefix_app_r.
    + split; unfold polling, backlog; simpl; [| |done].
      * rewrite payloads_app, <- Hall. by apply prefix_app_r.
      * intros _. by rewrite payloads_app, <- Hall.
  - (* PollNext *)
    unfold rangeStep in Hstep.
    destruct (poll s) as [|pending| | |] eqn:Hp; try done.
    specialize (Hall ltac:(done)).
    destruct pending as [|m rest]; simplify_eq.
    { split; unfold polling, backlog; simpl; [done| |done].
      intros _. by rewrite <- Hall. }
    rewrite payloads_cons in Hall.
    destruct (unexpectedType m) eqn:Hu; simplify_eq.
    { split; unfold polling, backlog; simpl; done. }
    destruct (payloadOf m) eqn:Ho; simplify_eq.
    split; unfold polling, backlog; simpl; [done|tauto|done].
  - (* SinkRecv *)
    unfold rangeStep in Hstep.
    destruct (poll s) as [|pending| | |] eqn:Hp; try done.
    specialize (Hall ltac:(done)).
    destruct pending as [|m rest]; simplify_eq.
    rewrite payloads_cons in Hall.
    destruct (unexpectedType m) eqn:Hu; simplify_eq.
    destruct (payloadOf m) as [o|] eqn:Ho; simplify_eq.
    change (o :: payloads rest) with ([o] ++ payloads rest) in Hall.
    rewrite app_assoc in Hall.
    split; unfold polling, backlog; simpl.
    + rewrite <- Hall. by apply prefix_app_r.
    + intros _. by rewrite <- Hall.
    + rewrite Hcur. unfold add64. rewrite wrap64_add_l. f_equal.
      rewrite length_app. simpl. lia.
  - (* PollStop *)
    unfold selectStep in Hstep.
    destruct (poll s) eqn:Hp; try done.
    destruct (stopClosed s); simplify_eq.
    split; unfold polling, backlog; simpl; [done|tauto|done].
  - (* PollTick *)
    unfold selectStep in Hstep.
    destruct (poll s) eqn:Hp; try done.
    destruct (stopClosed s); simplify_eq.
    split; unfold polling, backlog; simpl; [done| |done].
    intros _. by apply Hall.
Qed.

Lemma in_order_exec ls s :
  exec init ls = Some s -> in_order (received ls) s.
Proof.
  revert ls s. apply exec_ind_r.
  - split; simpl; [done|done|reflexivity].
  - intros ls s l s' _ Hio Hstep. rewrite received_snoc.
    by eapply in_order_step.
Qed.

(** X7.  In every run of the bridge, what the consumer has received
    from [RecvCh] is a prefix of the payloads of the [device_msg]
    messages the polls brought in, in the order in which the server gave
    them: messages of any other type are skipped, nothing is delivered
    twice or out of turn.  While the polling goroutine is in its loop,
    what was delivered and what is left of the last poll are all of
    them.  The cursor [start] of the next poll is the number of payloads
    delivered (in [int]), so a skipped message does not advance it. *)
Theorem delivered_in_server_order (ls : list label) (s : bridge) :
  exec init ls = Some s ->
  delivered s `prefix_of` payloads (received ls)
  /\ (poll s <> PExited -> poll s <> PPanicked ->
      delivered s ++ payloads (backlog s) = payloads (received ls))
  /\ start s = wrap64 (Z.of_nat (length (delivered s)))
  /\ (Z.of_nat (length (delivered s)) <= max_int ->
      start s = Z.of_nat (length (delivered s))).
Proof.
  intros Hexec. destruct (in_order_exec ls s Hexec) as [Hpre Hall Hcur].
  split; [exact Hpre|]. split; [intros H1 H2; by apply Hall|].
  split; [exact Hcur|].
  intros Hmax. rewrite Hcur. apply wrap64_small.
  unfold in_range, min_int, max_int in *. lia.
Qed.

(** A poll that brings a message of another type and then one of type
    [device_msg]. *)
Definition status_msg : message :=
  <["message_type" := AString "status"]> ∅.

Definition mixed_poll : list label :=
  [PollReply false [status_msg; device_msg ∅]; PollNext; SinkRecv;
   PollNext; PollTick].

Lemma delivered_in_server_order_witness :
  exists s,
    exec init mixed_poll = Some s
    /\ delivered s = payloads (received mixed_poll)
    /\ length (received mixed_poll) = 2%nat
    /\ start s = 1.
Proof.
  destruct (exec init mixed_poll) as [s|] eqn:Hs;
    [|vm_compute in Hs; discriminate].
  exists s. split; [reflexivity|].
  destruct (delivered_in_server_order mixed_poll s Hs)
    as (_ & Hall & Hcur & _).
  vm_compute in Hs. simplify_eq.
  split; [|split; [reflexivity|rewrite Hcur; reflexivity]].
  rewrite <- Hall by done. reflexivity.
Defined.

(** *** The error count *)

(** The number of failed polls since the last successful one, after
    one more move. *)
Definition bump (l : label) (n : nat) : nat :=
  match l with
  | PollReply true _ => S n
  | PollReply false _ => O
  | _ => n
  end.

Definition streak (ls : list label) : nat :=
  foldl (fun n l => bump l n) O ls.

Lemma streak_snoc ls l : streak (ls ++ [l]) = bump l (streak ls).
Proof. unfold streak. by rewrite foldl_app. Qed.

(** What the polling goroutine keeps of its errors, [n] being the
    number of failed polls since the last successful one. *)
Record counting (n : nat) (s : bridge) : Prop := {
  ct_count : errCount s = Z.of_nat n;
  ct_bound : (n <= 10)%nat;
  ct_limit : n = 10%nat -> poll s = PExited;
  ct_sink : poll s = PExited <-> sinkClosed s = true;
  ct_exit : poll s = PExited -> stopClosed s = true \/ n = 10%nat
}.

Lemma counting_step n s l s' :
  counting n s -> step s l = Some s' -> counting (bump l n) s'.
Proof.
  intros [Hcount Hbound Hlimit Hsink Hexit] Hstep.
  destruct (poll_move l) eqn:Hl.
  2:{ destruct (step_frame_poll _ _ _ Hl Hstep) as (Hp & _ & He & _ & _ & Hk).
      pose proof (step_stopClosed _ _ _ Hstep) as Hstop.
      destruct l; try done; split; rewrite ?Hp, ?He, ?Hk; try done;
        intros Hx; destruct (Hexit Hx); auto. }
  destruct (step_frame_fwd _ _ _ Hl Hstep) as (_ & _ & Hstop & _).
  destruct l; try done; simpl in Hstep.
  - (* PollReply *)
    destruct (poll s) eqn:Hp; try done. injection Hstep as <-.
    assert (Hlt : (n < 10)%nat).
    { destruct (decide (n = 10%nat)) as [Heq|Hne]; [|lia].
      by specialize (Hlimit Heq). }
    assert (Hopen : sinkClosed s = true -> False).
    { intros Hc. apply Hsink in Hc. congruence. }
    unfold afterPoll. destruct err; simpl.
    + rewrite Hcount.
      rewrite add64_small
        by (unfold in_range, min_int, max_int; lia).
      unfold maxConsecutiveErrors.
      destruct (bool_decide (Z.of_nat n + 1 >= 10)) eqn:Hge; simpl.
      * apply bool_decide_eq_true in Hge.
        split; simpl; [lia|lia|done|done|intros _; right; lia].
      * apply bool_decide_eq_false in Hge.
        split; simpl; [lia|lia|lia| |done].
        split; [done|]. intros Hc. by destruct (Hopen Hc).
    + split; simpl; [done|lia|done| |done].
      split; [done|]. intros Hc. by destruct (Hopen Hc).
  - (* PollNext *)
    unfold rangeStep in Hstep.
    destruct (poll s) as [|pending| | |] eqn:Hp; try done.
    assert (Hopen : sinkClosed s = true -> False).
    { intros Hc. apply Hsink in Hc. congruence. }
    assert (Hlt : n <> 10%nat)
      by (intros Heq; by specialize (Hlimit Heq)).
    assert (Hgoal : forall pc, pc <> PExited -> counting n (set_poll pc s)).
    { intros pc Hpc. split; simpl; [done|done|done| |done].
      split; [done|]. intros Hc. by destruct (Hopen Hc). }
    destruct pending as [|m rest]; simplify_eq; [by apply Hgoal|].
    destruct (unexpectedType m); simplify_eq; [by apply Hgoal|].
    destruct (payloadOf m); simplify_eq. by apply Hgoal.
  - (* SinkRecv *)
    unfold rangeStep in Hstep.
    destruct (poll s) as [|pending| | |] eqn:Hp; try done.
    assert (Hopen : sinkClosed s = true -> False).
    { intros Hc. apply Hsink in Hc. congruence. }
    assert (Hlt : n <> 10%nat)
      by (intros Heq; by specialize (Hlimit Heq)).
    destruct pending as [|m rest]; simplify_eq.
    destruct (unexpectedType m); simplify_eq.
    destruct (payloadOf m); simplify_eq.
    split; simpl; [done|done|done| |done].
    split; [done|]. intros Hc. by destruct (Hopen Hc).
  - (* PollStop *)
    unfold selectStep in Hstep.
    destruct (poll s) eqn:Hp; try done.
    destruct (stopClosed s) eqn:Hc; simplify_eq.
    split; simpl; [done|done|done|done|by left].
  - (* PollTick *)
    unfold selectStep in Hstep.
    destruct (poll s) eqn:Hp; try done.
    destruct (stopClosed s) eqn:Hc; simplify_eq.
    assert (Hopen : sinkClosed s = true -> False).
    { intros Hk. apply Hsink in Hk. congruence. }
    assert (Hlt : n <> 10%nat)
      by (intros Heq; by specialize (Hlimit Heq)).
    split; simpl; [done|done|done| |done].
    split; [done|]. intros Hk. by destruct (Hopen Hk).
Qed.

Lemma counting_exec ls s : exec init ls = Some s -> counting (streak ls) s.
Proof.
  revert ls s. apply exec_ind_r.
  - change (streak []) with 0%nat.
    split; simpl; [done|lia|done|done|done].
  - intros ls s l s' _ Hct Hstep. rewrite streak_snoc.
    by eapply counting_step.
Qed.

(** X8.  In every run of the bridge [errCount] is the number of polls
    that failed since the last one that succeeded: a successful poll
    resets it, and it never exceeds ten.  The polling goroutine gives up
    exactly at the tenth failure in a row, closing the receive channel;
    it returns for no other reason than that one or the stop channel
    being closed. *)
Theorem errCount_counts_failed_polls (ls : list label) (s : bridge) :
  exec init ls = Some s ->
  errCount s = Z.of_nat (streak ls)
  /\ (streak ls <= 10)%nat
  /\ (streak ls = 10%nat -> poll s = PExited /\ sinkClosed s = true)
  /\ (poll s = PExited -> stopClosed s = true \/ streak ls = 10%nat)
  /\ (forall messages s',
        step s (PollReply true messages) = Some s' ->
        errCount s' = Z.of_nat (streak ls) + 1
        /\ (poll s' = PExited <-> streak ls = 9%nat))
  /\ (forall messages s',
        step s (PollReply false messages) = Some s' ->
        errCount s' = 0 /\ poll s' = PRange messages).
Proof.
  intros Hexec.
  destruct (counting_exec ls s Hexec) as [Hcount Hbound Hlimit Hsink Hexit].
  split; [exact Hcount|]. split; [exact Hbound|].
  split; [intros Heq; split; [|apply Hsink]; by apply Hlimit|].
  split; [exact Hexit|]. split.
  - intros messages s' Hstep.
    pose proof (counting_step _ _ _ _
      (Build_counting _ _ Hcount Hbound Hlimit Hsink Hexit) Hstep) as Hct.
    simpl in Hct. destruct Hct as [Hcount' Hbound' Hlimit' _ _].
    split; [lia|].
    simpl in Hstep. destruct (poll s) eqn:Hp; try done.
    injection Hstep as <-. revert Hlimit'. unfold afterPoll. simpl.
    rewrite Hcount.
    assert (Hlt : (streak ls < 10)%nat).
    { destruct (decide (streak ls = 10%nat)) as [Heq|Hne]; [|lia].
      by specialize (Hlimit Heq). }
    rewrite add64_small by (unfold in_range, min_int, max_int; lia).
    unfold maxConsecutiveErrors.
    destruct (bool_decide (Z.of_nat (streak ls) + 1 >= 10)) eqn:Hge; simpl.
    + apply bool_decide_eq_true in Hge. intros _. split; [lia|done].
    + apply bool_decide_eq_false in Hge. intros _. split; [done|lia].
  - intros messages s' Hstep. simpl in Hstep.
    destruct (poll s) eqn:Hp; try done. by injection Hstep as <-.
Qed.

(** Ten polls that fail, one after the other. *)
Definition ten_failures : list label :=
  concat (replicate 9 [PollReply true []; PollNext; PollTick])
  ++ [PollReply true []].

Lemma errCount_counts_failed_polls_witness :
  exists s,
    exec init ten_failures = Some s
    /\ errCount s = 10 /\ poll s = PExited /\ sinkClosed s = true
    /\ stopClosed s = false.
Proof.
  destruct (exec init ten_failures) as [s|] eqn:Hs;
    [|vm_compute in Hs; discriminate].
  exists s. split; [reflexivity|].
  destruct (errCount_counts_failed_polls ten_failures s Hs)
    as (Hcount & _ & Hlimit & _).
  split; [exact Hcount|].
  destruct (Hlimit eq_refl) as [Hp Hk].
  split; [exact Hp|]. split; [exact Hk|].
  vm_compute in Hs. by simplify_eq.
Defined.

(** *** The forward requests *)

(** The messages the caller sent on [SendCh], in order. *)
Definition sent (ls : list label) : list any :=
  omap (fun l => match l with CallerSend msg => Some msg | _ => None end) ls.

Lemma sent_snoc ls l :
  sent (ls ++ [l]) =
  sent ls ++ match l with CallerSend msg => [msg] | _ => [] end.
Proof. unfold sent. rewrite omap_app. by destruct l. Qed.

Lemma concat_zip_replicate_snoc {A} (ks : list nat) (xs : list A) k x :
  length ks = length xs ->
  concat (zip_with replicate (ks ++ [k]) (xs ++ [x])) =
  concat (zip_with replicate ks xs) ++ replicate k x.
Proof.
  intros Hlen. rewrite zip_with_app by done. rewrite concat_app. simpl.
  by rewrite app_nil_r.
Qed.

(** What the forwarding goroutine has done with the messages [msgs] it
    received: [ks] gives the number of forward requests made for each. *)
Record forwarding (msgs : list any) (s : bridge) (ks : list nat) : Prop := {
  fw_length : length ks = length msgs;
  fw_log : forwarded s = concat (zip_with replicate ks msgs);
  fw_bound : Forall (fun k => (k <= 10)%nat) ks;
  fw_hand : match fwd s with
            | FForward msg i =>
                exists ks0 msgs0,
                  ks = ks0 ++ [Z.to_nat i] /\ msgs = msgs0 ++ [msg]
                  /\ Forall (fun k => (1 <= k)%nat) ks0
                  /\ 0 <= i < maxConsecutiveErrors
            | _ => Forall (fun k => (1 <= k)%nat) ks
            end
}.

Lemma forwarding_step msgs s l s' ks :
  forwarding msgs s ks -> step s l = Some s' ->
  exists ks',
    forwarding (msgs ++ match l with CallerSend msg => [msg] | _ => [] end)
      s' ks'.
Proof.
  intros [Hlen Hlog Hbound Hhand] Hstep.
  destruct (poll_move l) eqn:Hl.
  { destruct (step_frame_fwd _ _ _ Hl Hstep) as (Hf & Hfw & _).
    exists ks. replace (match l with CallerSend msg => [msg] | _ => [] end)
      with (@nil any) by (by destruct l).
    rewrite app_nil_r. split; rewrite ?Hf, ?Hfw; done. }
  destruct l; try done; simpl in Hstep.
  - (* CallerSend *)
    unfold recvStep in Hstep. destruct (fwd s) eqn:Hf; try done.
    destruct (srcClosed s); simplify_eq.
    exists (ks ++ [0%nat]). split; simpl.
    + rewrite !length_app. simpl. lia.
    + rewrite concat_zip_replicate_snoc by done. simpl.
      by rewrite app_nil_r.
    + apply Forall_app. split; [done|]. apply Forall_singleton. lia.
    + exists ks, msgs. unfold maxConsecutiveErrors. done.
  - (* CallerClose *)
    destruct (srcClosed s); simplify_eq. exists ks. rewrite app_nil_r.
    split; simpl; done.
  - (* FwdSeesClosed *)
    unfold recvStep in Hstep. destruct (fwd s) eqn:Hf; try done.
    destruct (srcClosed s); simplify_eq. exists ks. rewrite app_nil_r.
    split; simpl; done.
  - (* FwdReply *)
    destruct (fwd s) as [|msg i|] eqn:Hf; try done. injection Hstep as <-.
    destruct Hhand as (ks0 & msgs0 & -> & -> & Hks0 & Hi).
    rewrite !length_app in Hlen. simpl in Hlen.
    assert (Hlen0 : length ks0 = length msgs0) by lia.
    rewrite concat_zip_replicate_snoc in Hlog by done.
    apply Forall_app in Hbound as [Hb0 _].
    exists (ks0 ++ [S (Z.to_nat i)]). rewrite app_nil_r.
    assert (Hlog' : forwarded s ++ [msg] =
      concat (zip_with replicate (ks0 ++ [S (Z.to_nat i)]) (msgs0 ++ [msg]))).
    { rewrite concat_zip_replicate_snoc by done.
      rewrite Hlog, replicate_S_end. by rewrite app_assoc. }
    assert (Hb' : Forall (fun k => (k <= 10)%nat) (ks0 ++ [S (Z.to_nat i)])).
    { apply Forall_app. split; [done|]. apply Forall_singleton.
      unfold maxConsecutiveErrors in Hi. lia. }
    assert (Hone : Forall (fun k => (1 <= k)%nat) (ks0 ++ [S (Z.to_nat i)])).
    { apply Forall_app. split; [done|]. apply Forall_singleton. lia. }
    unfold afterForward. destruct err; simpl.
    + rewrite (add64_tries i Hi).
      destruct (bool_decide (i + 1 < maxConsecutiveErrors)) eqn:Hlt; simpl.
      * apply bool_decide_eq_true in Hlt.
        split; simpl; [by rewrite !length_app|done|done|].
        exists ks0, msgs0. split; [|split; [done|split; [done|lia]]].
        f_equal. f_equal. lia.
      * apply bool_decide_eq_false in Hlt.
        rewrite decide_True by lia.
        split; simpl; [by rewrite !length_app|done|done|done].
    + rewrite decide_False by lia.
      split; simpl; [by rewrite !length_app|done|done|done].
Qed.

Lemma forwarding_exec ls s :
  exec init ls = Some s -> exists ks, forwarding (sent ls) s ks.
Proof.
  revert ls s. apply exec_ind_r.
  - exists []. split; simpl; done.
  - intros ls s l s' _ [ks Hfw] Hstep. rewrite sent_snoc.
    by eapply forwarding_step.
Qed.

(** X9.  In every run of the bridge the forward requests follow the
    messages the caller sent, in order: the log of the requests is the
    first message repeated [k1] times, then the second repeated [k2]
    times, and so on, with every [k] at most ten.  Every message but the
    one in hand has had at least one request; the one in hand has had as
    many as it has failures so far, fewer than ten. *)
Theorem forwarded_in_order (ls : list label) (s : bridge) :
  exec init ls = Some s ->
  exists ks : list nat,
    length ks = length (sent ls)
    /\ forwarded s = concat (zip_with replicate ks (sent ls))
    /\ Forall (fun k => (k <= 10)%nat) ks
    /\ match fwd s with
       | FForward msg i =>
           exists ks0 msgs0,
             ks = ks0 ++ [Z.to_nat i] /\ sent ls = msgs0 ++ [msg]
             /\ Forall (fun k => (1 <= k)%nat) ks0
             /\ 0 <= i < maxConsecutiveErrors
       | _ => Forall (fun k => (1 <= k)%nat) ks
       end.
Proof.
  intros Hexec. destruct (forwarding_exec ls s Hexec) as [ks [H1 H2 H3 H4]].
  exists ks. done.
Qed.

(** Two messages: the first goes through at the third request, the
    second at the first. *)
Definition two_messages : list label :=
  [CallerSend (AString "offer"); FwdReply true; FwdReply true;
   FwdReply false; CallerSend (AString "candidate"); FwdReply false].

Lemma forwarded_in_order_witness :
  exists s ks,
    exec init two_messages = Some s
    /\ sent two_messages = [AString "offer"; AString "candidate"]
    /\ length ks = 2%nat
    /\ forwarded s =
       concat (zip_with replicate ks [AString "offer"; AString "candidate"]).
Proof.
  destruct (exec init two_messages) as [s|] eqn:Hs;
    [|vm_compute in Hs; discriminate].
  destruct (forwarded_in_order two_messages s Hs) as (ks & Hlen & Hlog & _).
  exists s, ks. split; [reflexivity|]. split; [reflexivity|].
  split; [exact Hlen|exact Hlog].
Defined.

(** *** Closing the channels *)

(** Each channel is closed by one goroutine, as the last thing it
    does. *)
Record closed_last (s : bridge) : Prop := {
  cl_stop : stopClosed s = true <-> fwd s = FExited;
  cl_sink : sinkClosed s = true <-> poll s = PExited
}.

Lemma closed_last_step s l s' :
  closed_last s -> step s l = Some s' -> closed_last s'.
Proof.
  intros [Hstop Hsink] Hstep.
  destruct (poll_move l) eqn:Hl.
  - destruct (step_frame_fwd _ _ _ Hl Hstep) as (Hf & _ & Hsc & _).
    split; [by rewrite Hf, Hsc|].
    assert (Hopen : poll s <> PExited -> sinkClosed s = false).
    { intros Hp. destruct (sinkClosed s) eqn:Hc; [|done].
      by destruct Hp; apply Hsink. }
    destruct l; try done; simpl in Hstep.
    + destruct (poll s) eqn:Hp; try done. injection Hstep as <-.
      unfold afterPoll. simpl.
      destruct (err && bool_decide (_ >= _)); simpl; [done|].
      rewrite Hopen by done. done.
    + unfold rangeStep in Hstep.
      destruct (poll s) as [|pending| | |] eqn:Hp; try done.
      specialize (Hopen ltac:(done)).
      destruct pending as [|m rest]; simplify_eq; simpl;
        [by rewrite Hopen|].
      destruct (unexpectedType m); simplify_eq; simpl; [by rewrite Hopen|].
      destruct (payloadOf m); simplify_eq; simpl. by rewrite Hopen.
    + unfold rangeStep in Hstep.
      destruct (poll s) as [|pending| | |] eqn:Hp; try done.
      specialize (Hopen ltac:(done)).
      destruct pending as [|m rest]; simplify_eq.
      destruct (unexpectedType m); simplify_eq.
      destruct (payloadOf m); simplify_eq; simpl. by rewrite Hopen.
    + unfold selectStep in Hstep. destruct (poll s) eqn:Hp; try done.
      destruct (stopClosed s); simplify_eq. done.
    + unfold selectStep in Hstep. destruct (poll s) eqn:Hp; try done.
      specialize (Hopen ltac:(done)).
      destruct (stopClosed s); simplify_eq. simpl. by rewrite Hopen.
  - destruct (step_frame_poll _ _ _ Hl Hstep) as (Hp & _ & _ & _ & _ & Hk).
    split; [|by rewrite Hp, Hk].
    assert (Hopen : fwd s <> FExited -> stopClosed s = false).
    { intros Hf. destruct (stopClosed s) eqn:Hc; [|done].
      by destruct Hf; apply Hstop. }
    destruct l; try done; simpl in Hstep.
    + unfold recvStep in Hstep. destruct (fwd s) eqn:Hf; try done.
      specialize (Hopen ltac:(done)).
      destruct (srcClosed s); simplify_eq. simpl. by rewrite Hopen.
    + destruct (srcClosed s); simplify_eq. done.
    + unfold recvStep in Hstep. destruct (fwd s) eqn:Hf; try done.
      destruct (srcClosed s); simplify_eq. done.
    + destruct (fwd s) as [|msg i|] eqn:Hf; try done. injection Hstep as <-.
      specialize (Hopen ltac:(done)).
      unfold afterForward. simpl.
      destruct (err && bool_decide (_ < _)); simpl; [by rewrite Hopen|].
      destruct (decide (_ = _)); simpl; [done|by rewrite Hopen].
Qed.

Lemma closed_last_exec ls s : exec init ls = Some s -> closed_last s.
Proof.
  revert ls s.
  apply (exec_ind_r (fun _ s => closed_last s)).
  - split; simpl; split; done.
  - intros ls s l s' _ Hcl Hstep. by eapply closed_last_step.
Qed.

(** X10.  Neither the stop channel nor the receive channel is closed
    twice, and nothing is sent on the receive channel once it is closed.
    In every run the stop channel is closed exactly when the forwarding
    goroutine has returned, and the receive channel exactly when the
    polling goroutine has returned; a goroutine that has closed its
    channel makes no further move, so it neither closes the channel again
    nor, for the polling goroutine, sends on it. *)
Theorem channels_closed_once (ls : list label) (s : bridge) :
  exec init ls = Some s ->
  (stopClosed s = true <-> fwd s = FExited)
  /\ (sinkClosed s = true <-> poll s = PExited)
  /\ (stopClosed s = true ->
      forall l, fwd_move l = true -> step s l = None)
  /\ (sinkClosed s = true ->
      forall l, poll_move l = true -> step s l = None).
Proof.
  intros Hexec. destruct (closed_last_exec ls s Hexec) as [Hstop Hsink].
  split; [exact Hstop|]. split; [exact Hsink|]. split.
  - intros Hc l Hl. apply Hstop in Hc.
    destruct l; try done; simpl; unfold recvStep; by rewrite Hc.
  - intros Hc l Hl. apply Hsink in Hc.
    destruct l; try done; simpl; unfold rangeStep, selectStep;
      by rewrite Hc.
Qed.

Lemma channels_closed_once_witness :
  exists s,
    exec init (hangup ++ wind_down) = Some s
    /\ stopClosed s = true /\ sinkClosed s = true
    /\ forall l, step s l = None.
Proof.
  destruct (exec init (hangup ++ wind_down)) as [s|] eqn:Hs;
    [|vm_compute in Hs; discriminate].
  exists s. split; [reflexivity|].
  destruct (channels_closed_once (hangup ++ wind_down) s Hs)
    as (Hstop & Hsink & Hfwd & Hpoll).
  assert (Hf : fwd <$> exec init (hangup ++ wind_down) = Some FExited)
    by (vm_compute; reflexivity).
  assert (Hp : poll <$> exec init (hangup ++ wind_down) = Some PExited)
    by (vm_compute; reflexivity).
  assert (Hsrc : srcClosed <$> exec init (hangup ++ wind_down) = Some true)
    by (vm_compute; reflexivity).
  rewrite Hs in Hf, Hp, Hsrc.
  injection Hf as Hf. injection Hp as Hp. injection Hsrc as Hsrc.
  apply Hstop in Hf. apply Hsink in Hp.
  split; [exact Hf|]. split; [exact Hp|].
  intros l. destruct (fwd_move l) eqn:Hl1; [by apply Hfwd|].
  destruct (poll_move l) eqn:Hl2; [by apply Hpoll|].
  destruct l; try done; simpl.
  - unfold recvStep. apply Hstop in Hf. by rewrite Hf.
  - by rewrite Hsrc.
Defined.

End Bridge.

(** ** Exponential backoff *)

Module Backoff.

Import Int64.

(** Modelled from the documented behaviour of
    [github.com/cenkalti/backoff/v4], whose source is a dependency and not
    one of the repository's files: [ExponentialBackOff] with its public
    fields, [Reset] and [NextBackOff].  Times are nanoseconds read from
    the clock, which the caller passes in; the random sample of
    [NextBackOff] is passed in as well.  Go's [float64] is IEEE-754
    binary64, as Rocq's primitive [float]. *)
Record ExponentialBackOff := {
  InitialInterval : Z;
  RandomizationFactor : float;
  Multiplier : float;
  MaxInterval : Z;
  MaxElapsedTime : Z;
  currentInterval : Z;
  startTime : Z
}.

(** [backoff.Stop], the duration that tells the caller to give up. *)
Definition Stop : Z := -1.

(** The conversion [float64(d)] of a duration, an [int64]. *)
Definition float64 (z : Z) : float :=
  if decide (z = min_int) then (-9223372036854775808)%float
  else if decide (z < 0) then
    PrimFloat.opp (PrimFloat.of_uint63 (Uint63.of_Z (- z)))
  else PrimFloat.of_uint63 (Uint63.of_Z z).

(** The conversion [time.Duration(f)]: truncation toward zero.  What a
    value outside [int64] converts to depends on the platform; it is the
    smallest [int64] here, as on amd64. *)
Definition Duration (f : float) : Z :=
  match Prim2SF f with
  | S754_zero _ => 0
  | S754_finite s m e =>
      let a := if decide (0 <= e) then Z.pos m * 2 ^ e
               else Z.pos m / 2 ^ (- e) in
      let v := if s then - a else a in
      if decide (min_int <= v <= max_int) then v else min_int
  | _ => min_int
  end.

Definition getRandomValueFromInterval (randomizationFactor random : float)
    (currentInterval : Z) : Z :=
  if PrimFloat.eqb randomizationFactor 0 then currentInterval
  else
    let delta := (randomizationFactor * float64 currentInterval)%float in
    let minInterval := (float64 currentInterval - delta)%float in
    let maxInterval := (float64 currentInterval + delta)%float in
    Duration (minInterval + random * (maxInterval - minInterval + 1))%float.

Definition set_currentInterval (x : Z) (b : ExponentialBackOff)
    : ExponentialBackOff :=
  {| InitialInterval := InitialInterval b;
     RandomizationFactor := RandomizationFactor b;
     Multiplier := Multiplier b; MaxInterval := MaxInterval b;
     MaxElapsedTime := MaxElapsedTime b;
     currentInterval := x; startTime := startTime b |}.

Definition set_startTime (x : Z) (b : ExponentialBackOff)
    : ExponentialBackOff :=
  {| InitialInterval := InitialInterval b;
     RandomizationFactor := RandomizationFactor b;
     Multiplier := Multiplier b; MaxInterval := MaxInterval b;
     MaxElapsedTime := MaxElapsedTime b;
     currentInterval := currentInterval b; startTime := x |}.

Definition incrementCurrentInterval (b : ExponentialBackOff)
    : ExponentialBackOff :=
  if PrimFloat.leb (float64 (MaxInterval b) / Multiplier b)%float
                   (float64 (currentInterval b))
  then set_currentInterval (MaxInterval b) b
  else set_currentInterval
         (Duration (float64 (currentInterval b) * Multiplier b)%float) b.

Definition Reset (now : Z) (b : ExponentialBackOff) : ExponentialBackOff :=
  set_startTime now (set_currentInterval (InitialInterval b) b).

Definition GetElapsedTime (now : Z) (b : ExponentialBackOff) : Z :=
  sub64 now (startTime b).

(** The next pause, or [Stop] once the time elapsed since the last
    [Reset] plus that pause exceeds a non-zero [MaxElapsedTime]. *)
Definition NextBackOff (now : Z) (random : float) (b : ExponentialBackOff)
    : Z * ExponentialBackOff :=
  let elapsed := GetElapsedTime now b in
  let next := getRandomValueFromInterval (RandomizationFactor b) random
                (currentInterval b) in
  let b' := incrementCurrentInterval b in
  if decide (MaxElapsedTime b <> 0 /\ add64 elapsed next > MaxElapsedTime b)
  then (Stop, b') else (next, b').

Definition NewExponentialBackOff (now : Z) : ExponentialBackOff :=
  Reset now
    {| InitialInterval := 500 * 1000000;
       RandomizationFactor := 0.5;
       Multiplier := 1.5;
       MaxInterval := 60 * 1000000000;
       MaxElapsedTime := 15 * 60 * 1000000000;
       currentInterval := 0; startTime := 0 |}.

Lemma NextBackOff_startTime now random b :
  startTime (NextBackOff now random b).2 = startTime b.
Proof.
  unfold NextBackOff, incrementCurrentInterval.
  repeat case_match; reflexivity.
Qed.

(** Past the budget the answer is [Stop], whatever the interval. *)
Lemma NextBackOff_exhausted now random b :
  MaxElapsedTime b <> 0 ->
  add64 (GetElapsedTime now b)
        (getRandomValueFromInterval (RandomizationFactor b) random
           (currentInterval b)) > MaxElapsedTime b ->
  (NextBackOff now random b).1 = Stop.
Proof.
  intros Hmax Hover. unfold NextBackOff. by rewrite decide_True.
Qed.

End Backoff.

(** ** The parallel chunked uploader *)

Module Uploader.

Import Int64.

Definition Millisecond : Z := 1000000.
Definition Second : Z := 1000 * Millisecond.
Definition Minute : Z := 60 * Second.

Definition openConnections : nat := 32.

Record BackOffOpts := {
  InitialDuration : Z;
  RandomizationFactor : float;
  Multiplier : float;
  MaxElapsedTime : Z
}.

Definition DefaultChunkUploadBackOffOpts : BackOffOpts :=
  {| InitialDuration := 500 * Millisecond;
     RandomizationFactor := 0.5;
     Multiplier := 1.5;
     MaxElapsedTime := 2 * Minute |}.

Record fileInfo := {
  Name : string;
  info_TotalChunks : Z
}.

(** [ChunkNumber] is a number between 1 and [TotalChunks]: the n-th
    chunk is the segment of [ChunkSizeBytes] bytes that starts at byte
    [(n-1) * ChunkSizeBytes]. *)
Record uploadChunkJob := {
  Filename : string;
  ChunkNumber : Z;
  TotalChunks : Z;
  ChunkSizeBytes : Z
}.

(** The local files: the bytes of each regular file, by path. *)
Abbreviation filesystem := (gmap string (list byte)).

Inductive error :=
| ErrStat (name : string)          (* os.Stat failed *)
| ErrNewRequest                    (* http.NewRequestWithContext failed *)
| ErrCanceled                      (* the request's context was cancelled *)
| ErrDo                            (* Client.Do failed to get an answer *)
| ErrStatus (status : string) (base : string) (number total : Z).
                                   (* an answer other than 200 *)

(** Errors of the goroutine that writes the multipart body; [upload]
    logs them and cancels the request. *)
Inductive write_error :=
| ErrOpen (name : string)
| ErrSeek (offset : Z)
| ErrEOF.

(** [(stat.Size() + u.ChunkSizeBytes - 1) / u.ChunkSizeBytes], in
    [int64]; [None] is the panic of a division by zero. *)
Definition totalChunks (size chunkSizeBytes : Z) : option Z :=
  div64 (sub64 (add64 size chunkSizeBytes) 1) chunkSizeBytes.

(** The result of a function that may panic. *)
Inductive may_panic (A : Type) :=
| Done (a : A)
| Panic (msg : string).
Arguments Done {A} a.
Arguments Panic {A} msg.

Fixpoint getFilesInfos (fs : filesystem) (chunkSizeBytes : Z)
    (Filenames : list string) (infos : list fileInfo)
    : may_panic (error + list fileInfo) :=
  match Filenames with
  | [] => Done (inr infos)
  | name :: rest =>
      match fs !! name with
      | None => Done (inl (ErrStat name))
      | Some content =>
          match totalChunks (Z.of_nat (length content)) chunkSizeBytes with
          | None => Panic "runtime error: integer divide by zero"
          | Some n =>
              getFilesInfos fs chunkSizeBytes rest
                (infos ++ [{| Name := name; info_TotalChunks := n |}])
          end
      end
  end.

(** The jobs [sendJobs] makes for one file: [i] runs from 0 while
    [i < info.TotalChunks]. *)
Definition jobsOf (chunkSizeBytes : Z) (info : fileInfo)
    : list uploadChunkJob :=
  (fun i => {| Filename := Name info; ChunkNumber := add64 i 1;
               TotalChunks := info_TotalChunks info;
               ChunkSizeBytes := chunkSizeBytes |})
    <$> seqZ 0 (info_TotalChunks info).

(** All of them, file after file. *)
Definition allJobs (chunkSizeBytes : Z) (infos : list fileInfo)
    : list uploadChunkJob :=
  concat (jobsOf chunkSizeBytes <$> infos).

(** [filepath.Base] for slash-separated paths. *)
Definition slash : Ascii.ascii := "/"%char.

Fixpoint dropSlashes (l : list Ascii.ascii) : list Ascii.ascii :=
  match l with
  | c :: l' => if Ascii.eqb c slash then dropSlashes l' else l
  | [] => []
  end.

Fixpoint untilSlash (l : list Ascii.ascii) : list Ascii.ascii :=
  match l with
  | c :: l' => if Ascii.eqb c slash then [] else c :: untilSlash l'
  | [] => []
  end.

Definition Base (path : string) : string :=
  match String.list_ascii_of_string path with
  | [] => "."
  | l =>
      match dropSlashes (rev l) with
      | [] => "/"
      | r => String.string_of_list_ascii (rev (untilSlash r))
      end
  end.

(** The multipart body of one chunk: three form fields and the file
    part. *)
Record multipartForm := {
  chunk_number : string;
  chunk_total : string;
  chunk_size_bytes : string;
  file_name : string;
  file_data : list byte
}.

(** [io.CopyN(dst, src, n)]: [n] bytes, or [io.EOF] when the source has
    fewer; nothing at all for [n <= 0]. *)
Definition CopyN (src : list byte) (n : Z) : write_error + list byte :=
  if decide (n <= 0) then inr []
  else if decide (n <= Z.of_nat (length src)) then inr (take (Z.to_nat n) src)
  else inl ErrEOF.

(** [writeMultipartRequest]: the body written for [job], the writes to
    the pipe themselves succeeding. *)
Definition writeMultipartRequest (fs : filesystem) (job : uploadChunkJob)
    : write_error + multipartForm :=
  match fs !! Filename job with
  | None => inl (ErrOpen (Filename job))
  | Some content =>
      let offset := mul64 (sub64 (ChunkNumber job) 1) (ChunkSizeBytes job) in
      if decide (offset < 0) then inl (ErrSeek offset) else
      let file := drop (Z.to_nat offset) content in
      let form data :=
        {| chunk_number := pretty (ChunkNumber job);
           chunk_total := pretty (TotalChunks job);
           chunk_size_bytes := pretty (ChunkSizeBytes job);
           file_name := Base (Filename job);
           file_data := data |} in
      if decide (ChunkNumber job < TotalChunks job) then
        match CopyN file (ChunkSizeBytes job) with
        | inl e => inl e
        | inr data => inr (form data)
        end
      else inr (form file)
  end.

(** *** Chunk arithmetic *)

Lemma sub64_add64 a b c : sub64 (add64 a b) c = wrap64 (a + b - c).
Proof.
  unfold sub64, add64, wrap64.
  replace ((a + b + 2 ^ 63) mod 2 ^ 64 - 2 ^ 63 - c + 2 ^ 63)
    with ((a + b + 2 ^ 63) mod 2 ^ 64 - c) by lia.
  rewrite Zminus_mod_idemp_l. f_equal. f_equal. lia.
Qed.

(** Within the range of [int64] the chunk count is the rounded-up
    quotient. *)
Lemma totalChunks_ceil size c :
  0 <= size -> 0 < c -> size + c - 1 <= max_int ->
  exists k, totalChunks size c = Some k /\ (k - 1) * c < size <= k * c.
Proof.
  intros Hs Hc Hmax. exists ((size + c - 1) / c).
  unfold totalChunks. rewrite sub64_add64.
  rewrite wrap64_small by (unfold in_range, min_int, max_int in *; lia).
  split; [apply div64_pos; lia|].
  pose proof (Z.div_mod (size + c - 1) c ltac:(lia)) as Hdm.
  pose proof (Z.mod_pos_bound (size + c - 1) c Hc) as Hr.
  nia.
Qed.

Lemma jobsOf_numbers c name k :
  k <= max_int ->
  jobsOf c {| Name := name; info_TotalChunks := k |} =
  (fun n => {| Filename := name; ChunkNumber := n; TotalChunks := k;
               ChunkSizeBytes := c |}) <$> seqZ 1 k.
Proof.
  intros Hk. unfold jobsOf. simpl.
  replace (seqZ 1 k) with (Z.add 1 <$> seqZ 0 k)
    by (by rewrite fmap_add_seqZ).
  rewrite <- list_fmap_compose.
  apply list_fmap_ext. intros j i Hi.
  apply list_elem_of_lookup_2, elem_of_seqZ in Hi. simpl.
  rewrite add64_small by (unfold in_range, min_int, max_int in *; lia).
  f_equal. lia.
Qed.

Lemma length_jobsOf c info :
  length (jobsOf c info) = Z.to_nat (info_TotalChunks info).
Proof. unfold jobsOf. by rewrite length_fmap, length_seqZ. Qed.

(** The bytes chunk [n] of [k] carries. *)
Lemma writeMultipartRequest_chunk (fs : filesystem) name content c k n :
  fs !! name = Some content ->
  0 < c -> 1 <= n <= k ->
  (k - 1) * c < Z.of_nat (length content) <= k * c ->
  Z.of_nat (length content) <= max_int ->
  exists form,
    writeMultipartRequest fs {| Filename := name; ChunkNumber := n;
                                TotalChunks := k; ChunkSizeBytes := c |}
      = inr form
    /\ file_data form =
       take (Z.to_nat c) (drop (Z.to_nat ((n - 1) * c)) content)
    /\ Z.of_nat (length (file_data form)) =
       (if decide (n < k) then c
        else Z.of_nat (length content) - (n - 1) * c).
Proof.
  intros Hfile Hc Hn Hk Hmax.
  unfold writeMultipartRequest. simpl. rewrite Hfile.
  assert (Hoff : 0 <= (n - 1) * c <= (k - 1) * c) by nia.
  assert (Hnum : 0 <= n - 1 <= (n - 1) * c) by nia.
  rewrite sub64_small by (unfold in_range, min_int, max_int in *; lia).
  rewrite mul64_small by (unfold in_range, min_int, max_int in *; lia).
  rewrite decide_False by lia.
  destruct (decide (n < k)) as [Hlt|Hge].
  - assert (Hfit : n * c <= (k - 1) * c) by nia.
    unfold CopyN. rewrite decide_False by lia.
    rewrite decide_True by (rewrite length_drop; lia).
    eexists. split; [reflexivity|]. simpl. split; [reflexivity|].
    rewrite length_take, length_drop. lia.
  - assert (n = k) as -> by lia.
    eexists. split; [reflexivity|]. simpl. split.
    + rewrite take_ge; [done|]. rewrite length_drop. lia.
    + rewrite length_drop. lia.
Qed.

(** C1, as amended.  For a file of [S] bytes and a chunk size [C > 0]
    with [S + C - 1] no larger than the largest [int64], the uploader
    derives [totalChunks = ceil(S / C)] (the [k] with
    [(k-1)*C < S <= k*C]), makes the jobs numbered 1 to [k], and the job
    of chunk [n] sends the bytes of the file from offset [(n-1)*C] on:
    exactly [C] of them when [n < k], all the remaining [S - (k-1)*C]
    when [n = k].  In particular a file of 1000 bytes with [C = 300] gets
    4 chunks, the first three of 300 bytes and the fourth of the 100
    bytes from offset 900 on. *)
Theorem chunking (fs : filesystem) (name : string) (content : list byte)
    (C : Z) :
  fs !! name = Some content ->
  0 < C ->
  Z.of_nat (length content) + C - 1 <= max_int ->
  exists k : Z,
    (k - 1) * C < Z.of_nat (length content) <= k * C
    /\ getFilesInfos fs C [name] [] =
       Done (inr [{| Name := name; info_TotalChunks := k |}])
    /\ allJobs C [{| Name := name; info_TotalChunks := k |}] =
       (fun n => {| Filename := name; ChunkNumber := n; TotalChunks := k;
                    ChunkSizeBytes := C |}) <$> seqZ 1 k
    /\ (forall n, 1 <= n <= k ->
         exists form,
           writeMultipartRequest fs
             {| Filename := name; ChunkNumber := n; TotalChunks := k;
                ChunkSizeBytes := C |} = inr form
           /\ file_data form =
              take (Z.to_nat C) (drop (Z.to_nat ((n - 1) * C)) content)
           /\ (n < k -> Z.of_nat (length (file_data form)) = C)
           /\ (n = k ->
               file_data form = drop (Z.to_nat ((k - 1) * C)) content
               /\ Z.of_nat (length (file_data form)) =
                  Z.of_nat (length content) - (k - 1) * C))
    /\ (C = 300 -> length content = 1000%nat ->
        k = 4
        /\ forall n, 1 <= n <= 4 ->
            exists form,
              writeMultipartRequest fs
                {| Filename := name; ChunkNumber := n; TotalChunks := 4;
                   ChunkSizeBytes := 300 |} = inr form
              /\ length (file_data form) =
                 (if decide (n = 4) then 100%nat else 300%nat)
              /\ (n = 4 -> file_data form = drop 900 content)).
Proof.
  intros Hfile HC Hmax.
  destruct (totalChunks_ceil (Z.of_nat (length content)) C
              ltac:(lia) HC Hmax) as (k & Hk & Hceil).
  exists k. split; [exact Hceil|].
  assert (Hkmax : k <= max_int) by nia.
  split; [simpl; by rewrite Hfile, Hk|].
  split.
  { unfold allJobs. simpl. rewrite app_nil_r. by apply jobsOf_numbers. }
  assert (Hall : forall n, 1 <= n <= k ->
    exists form,
      writeMultipartRequest fs
        {| Filename := name; ChunkNumber := n; TotalChunks := k;
           ChunkSizeBytes := C |} = inr form
      /\ file_data form =
         take (Z.to_nat C) (drop (Z.to_nat ((n - 1) * C)) content)
      /\ (n < k -> Z.of_nat (length (file_data form)) = C)
      /\ (n = k ->
          file_data form = drop (Z.to_nat ((k - 1) * C)) content
          /\ Z.of_nat (length (file_data form)) =
             Z.of_nat (length content) - (k - 1) * C)).
  { intros n Hn.
    destruct (writeMultipartRequest_chunk fs name content C k n Hfile HC Hn
                Hceil ltac:(lia)) as (form & Hw & Hdata & Hlen).
    exists form. split; [exact Hw|]. split; [exact Hdata|].
    split; intros Hcase.
    - by rewrite decide_True in Hlen.
    - subst n. rewrite decide_False in Hlen by lia. split; [|exact Hlen].
      rewrite Hdata. apply take_ge. rewrite length_drop. lia. }
  split; [exact Hall|].
  intros -> Hlen. rewrite Hlen in Hceil.
  assert (k = 4) as -> by lia. split; [done|].
  intros n Hn. destruct (Hall n Hn) as (form & Hw & Hdata & Hlt & Heq).
  exists form. split; [exact Hw|].
  destruct (decide (n = 4)) as [->|Hne].
  - destruct (Heq eq_refl) as [Hrest Hsize]. split; [lia|].
    intros _. exact Hrest.
  - split; [|done]. specialize (Hlt ltac:(lia)). lia.
Qed.

(** A file of 1000 bytes, byte [i] holding [i mod 256], and the chunk
    size 300. *)
Definition thousand : list byte :=
  (fun i => default x00 (Byte.of_nat (i mod 256))) <$> seq 0 1000.

Definition disk : filesystem := {[ "/tmp/disk.img" := thousand ]}.

Definition chunkOf (n : Z) : uploadChunkJob :=
  {| Filename := "/tmp/disk.img"; ChunkNumber := n; TotalChunks := 4;
     ChunkSizeBytes := 300 |}.

Definition dataOf (n : Z) : option (list byte) :=
  match writeMultipartRequest disk (chunkOf n) with
  | inr form => Some (file_data form)
  | inl _ => None
  end.

Lemma chunking_witness :
  getFilesInfos disk 300 ["/tmp/disk.img"] [] =
    Done (inr [{| Name := "/tmp/disk.img"; info_TotalChunks := 4 |}])
  /\ allJobs 300 [{| Name := "/tmp/disk.img"; info_TotalChunks := 4 |}] =
     [chunkOf 1; chunkOf 2; chunkOf 3; chunkOf 4]
  /\ (fun n => length <$> dataOf n) <$> [1; 2; 3; 4] =
     [Some 300; Some 300; Some 300; Some 100]%nat
  /\ dataOf 4 = Some (drop 900 thousand).
Proof.
  destruct (chunking disk "/tmp/disk.img" thousand 300 eq_refl
              ltac:(lia) ltac:(vm_compute; discriminate))
    as (k & Hceil & Hinfos & Hjobs & _ & Hcase).
  destruct (Hcase eq_refl eq_refl) as [-> Hdata].
  split; [exact Hinfos|].
  split; [exact Hjobs|].
  split; [vm_compute; reflexivity|].
  destruct (Hdata 4 ltac:(lia)) as (form & Hw & _ & Hform).
  unfold dataOf, chunkOf. rewrite Hw, (Hform eq_refl). reflexivity.
Defined.

(** C1 as stated fails where [S + C - 1] leaves the range of [int64]:
    with the chunk size at the largest [int64], the sum wraps around, a
    file of 1000 bytes gets [totalChunks = 0] instead of 1, and no job
    is made for it. *)
Lemma totalChunks_wraps :
  0 < max_int
  /\ getFilesInfos disk max_int ["/tmp/disk.img"] [] =
     Done (inr [{| Name := "/tmp/disk.img"; info_TotalChunks := 0 |}])
  /\ ~ ((0 - 1) * max_int < 1000 <= 0 * max_int)
  /\ allJobs max_int [{| Name := "/tmp/disk.img"; info_TotalChunks := 0 |}]
     = [].
Proof.
  split; [reflexivity|].
  split; [vm_compute; reflexivity|].
  split; [lia|]. reflexivity.
Qed.

(** *** The goroutines of [Upload] *)

(** What [Client.Do] gets back when the request is sent in full. *)
Inductive reply :=
| NoAnswer
| Answer (statusCode : Z) (status : string).

(** The goroutine [upload] starts at lines 736-743 writes the body of
    the request into a pipe, the read end of which is the body of the
    request.  [Client.Do] closes the body of the request it is given,
    also when it fails, and the writer then ends.  When
    [http.NewRequestWithContext] fails there is no request: nothing
    reads the pipe or closes it, and the writer stays blocked in its
    first write (of a form field, or of the closing boundary when the
    file cannot be read) for good.  [true]: the writer of the attempt
    stays blocked. *)
Definition writerBlocked (urlOk : bool) : bool := negb urlOk.

(** [uploadChunkWorker.upload]: one attempt at [job].  [urlOk] says
    whether [http.NewRequestWithContext] accepts the endpoint,
    [cancelled] whether the worker's context is cancelled.  A body that
    cannot be written cancels the request.  The result is the error
    returned and the bodies that went out; what becomes of the goroutine
    that writes the body is [writerBlocked]. *)
Definition upload (fs : filesystem) (urlOk cancelled : bool) (r : reply)
    (job : uploadChunkJob) : option error * list multipartForm :=
  if negb urlOk then (Some ErrNewRequest, []) else
  if cancelled then (Some ErrCanceled, []) else
  match writeMultipartRequest fs job with
  | inl _ => (Some ErrCanceled, [])
  | inr form =>
      match r with
      | NoAnswer => (Some ErrDo, [form])
      | Answer code status =>
          if decide (code = 200) then (None, [form])
          else (Some (ErrStatus status (Base (Filename job))
                        (ChunkNumber job) (TotalChunks job)), [form])
      end
  end.

(** The goroutine of [uploadChunkWorker.Start]. *)
Inductive worker_pc :=
| WRecv                                   (* job := range w.JobsChan *)
| WUpload (job : uploadChunkJob) (notBefore : Z)
                                          (* err = w.upload(job), once the
                                             sleep before it is over *)
| WReport (err : option error)            (* ch <- err *)
| WDone.                                  (* close(ch) *)

(** The goroutine of [startWorkers] that copies a worker's results to
    the aggregate channel. *)
Inductive forwarder_pc :=
| FwdRecv                                 (* err := range ch *)
| FwdSend (err : option error)            (* agg <- err *)
| FwdDone.                                (* wg.Done() *)

Record worker := {
  wpc : worker_pc;
  wb : Backoff.ExponentialBackOff;        (* the worker's [b] *)
  fpc : forwarder_pc
}.

Definition set_wpc (x : worker_pc) (w : worker) : worker :=
  {| wpc := x; wb := wb w; fpc := fpc w |}.
Definition set_wb (x : Backoff.ExponentialBackOff) (w : worker) : worker :=
  {| wpc := wpc w; wb := x; fpc := fpc w |}.
Definition set_fpc (x : forwarder_pc) (w : worker) : worker :=
  {| wpc := wpc w; wb := wb w; fpc := x |}.

(** The state of one call of [Upload]. *)
Record upload_state := {
  now : Z;                                (* the clock *)
  cancelled : bool;                       (* ctx *)
  gen : option (list uploadChunkJob);     (* the jobs sendJobs has yet to
                                             send; None: jobsChan closed *)
  workers : list worker;
  aggClosed : bool;                       (* resultsChan *)
  returnErr : option error;
  returned : bool;                        (* Upload returned returnErr *)
  dumpOut : list error;                   (* the errors printed *)
  requests : list multipartForm;          (* the bodies sent *)
  dispatched : list uploadChunkJob;       (* the jobs sent on jobsChan *)
  blockedWriters : nat                    (* the body writers of [upload]
                                             blocked on their pipe *)
}.

Definition set_now (x : Z) (s : upload_state) : upload_state :=
  {| now := x; cancelled := cancelled s; gen := gen s; workers := workers s;
     aggClosed := aggClosed s; returnErr := returnErr s;
     returned := returned s; dumpOut := dumpOut s; requests := requests s;
     dispatched := dispatched s;
     blockedWriters := blockedWriters s |}.

Definition set_cancelled (x : bool) (s : upload_state) : upload_state :=
  {| now := now s; cancelled := x; gen := gen s; workers := workers s;
     aggClosed := aggClosed s; returnErr := returnErr s;
     returned := returned s; dumpOut := dumpOut s; requests := requests s;
     dispatched := dispatched s;
     blockedWriters := blockedWriters s |}.

Definition set_gen (x : option (list uploadChunkJob)) (s : upload_state)
    : upload_state :=
  {| now := now s; cancelled := cancelled s; gen := x; workers := workers s;
     aggClosed := aggClosed s; returnErr := returnErr s;
     returned := returned s; dumpOut := dumpOut s; requests := requests s;
     dispatched := dispatched s;
     blockedWriters := blockedWriters s |}.

Definition set_worker (i : nat) (w : worker) (s : upload_state)
    : upload_state :=
  {| now := now s; cancelled := cancelled s; gen := gen s;
     workers := <[i := w]> (workers s);
     aggClosed := aggClosed s; returnErr := returnErr s;
     returned := returned s; dumpOut := dumpOut s; requests := requests s;
     dispatched := dispatched s;
     blockedWriters := blockedWriters s |}.

Definition set_aggClosed (x : bool) (s : upload_state) : upload_state :=
  {| now := now s; cancelled := cancelled s; gen := gen s;
     workers := workers s; aggClosed := x; returnErr := returnErr s;
     returned := returned s; dumpOut := dumpOut s; requests := requests s;
     dispatched := dispatched s;
     blockedWriters := blockedWriters s |}.

Definition set_returnErr (x : option error) (s : upload_state)
    : upload_state :=
  {| now := now s; cancelled := cancelled s; gen := gen s;
     workers := workers s; aggClosed := aggClosed s; returnErr := x;
     returned := returned s; dumpOut := dumpOut s; requests := requests s;
     dispatched := dispatched s;
     blockedWriters := blockedWriters s |}.

Definition set_returned (x : bool) (s : upload_state) : upload_state :=
  {| now := now s; cancelled := cancelled s; gen := gen s;
     workers := workers s; aggClosed := aggClosed s;
     returnErr := returnErr s; returned := x; dumpOut := dumpOut s;
     requests := requests s; dispatched := dispatched s;
     blockedWriters := blockedWriters s |}.

Definition log_dumpOut (e : error) (s : upload_state) : upload_state :=
  {| now := now s; cancelled := cancelled s; gen := gen s;
     workers := workers s; aggClosed := aggClosed s;
     returnErr := returnErr s; returned := returned s;
     dumpOut := dumpOut s ++ [e]; requests := requests s;
     dispatched := dispatched s;
     blockedWriters := blockedWriters s |}.

Definition log_requests (sent : list multipartForm) (s : upload_state)
    : upload_state :=
  {| now := now s; cancelled := cancelled s; gen := gen s;
     workers := workers s; aggClosed := aggClosed s;
     returnErr := returnErr s; returned := returned s;
     dumpOut := dumpOut s; requests := requests s ++ sent;
     dispatched := dispatched s;
     blockedWriters := blockedWriters s |}.

Definition log_writer (blocked : bool) (s : upload_state) : upload_state :=
  {| now := now s; cancelled := cancelled s; gen := gen s;
     workers := workers s; aggClosed := aggClosed s;
     returnErr := returnErr s; returned := returned s;
     dumpOut := dumpOut s; requests := requests s;
     dispatched := dispatched s;
     blockedWriters := if blocked then S (blockedWriters s)
                       else blockedWriters s |}.

Definition log_dispatched (job : uploadChunkJob) (s : upload_state)
    : upload_state :=
  {| now := now s; cancelled := cancelled s; gen := gen s;
     workers := workers s; aggClosed := aggClosed s;
     returnErr := returnErr s; returned := returned s;
     dumpOut := dumpOut s; requests := requests s;
     dispatched := dispatched s ++ [job];
     blockedWriters := blockedWriters s |}.

(** The moves.  [w] numbers a worker and its forwarder. *)
Inductive label :=
| Dispatch (w : nat)        (* sendJobs: the select takes [jobsChan <- job]
                               and worker [w] receives the job *)
| GenStop                   (* sendJobs: the select takes [<-ctx.Done()];
                               return and close(jobsChan) *)
| GenEnd                    (* sendJobs: out of jobs; close(jobsChan) *)
| Attempt (w : nat) (t : Z) (r : reply) (random : float)
                            (* w.upload(job) returns at time [t] *)
| Report (w : nat)          (* the worker's [ch <- err] meets its
                               forwarder's receive *)
| Collect (w : nat)         (* the forwarder's [agg <- err] meets the
                               receive of Upload's loop *)
| WorkerEnd (w : nat)       (* jobsChan is closed: close(ch) *)
| ForwarderEnd (w : nat)    (* ch is closed: wg.Done() *)
| CloseAgg                  (* wg.Wait() is over: close(agg) *)
| Return.                   (* resultsChan is closed: return returnErr *)

Section Upload.

Variable fs : filesystem.
Variable urlOk : bool.

(** Lines 713-726: the retry loop after an attempt at [job] returned
    [err] at time [t]. *)
Definition afterAttempt (t : Z) (random : float) (job : uploadChunkJob)
    (err : option error) (w : worker) : worker :=
  match err with
  | None => set_wpc (WReport None) (set_wb (Backoff.Reset t (wb w)) w)
  | Some e =>
      let '(duration, b) := Backoff.NextBackOff t random (wb w) in
      if decide (duration = Backoff.Stop) then
        set_wpc (WReport (Some e)) (set_wb b w)
      else set_wpc (WUpload job (add64 t duration)) (set_wb b w)
  end.

(** Lines 605-615: the body of Upload's loop over the results. *)
Definition collect (err : option error) (s : upload_state) : upload_state :=
  match err with
  | None => s
  | Some e =>
      let s := log_dumpOut e s in
      match returnErr s with
      | None => set_cancelled true (set_returnErr (Some e) s)
      | Some _ => s
      end
  end.

Definition allDone (ws : list worker) : bool :=
  forallb (fun w => match fpc w with FwdDone => true | _ => false end) ws.

(** One move; [None]: the move is not possible in this state.  All the
    channels are unbuffered, so a send and the matching receive are one
    move.  The select of [sendJobs] has two cases, and Go takes,
    uniformly at random, one of those that can proceed: [jobsChan <- job]
    can proceed when a worker is receiving ([Dispatch]), [<-ctx.Done()]
    when the context is cancelled ([GenStop]); when both can, either move
    is possible. *)
Definition step (s : upload_state) (l : label) : option upload_state :=
  match l with
  | Dispatch i =>
      match gen s, workers s !! i with
      | Some (job :: rest), Some w =>
          match wpc w with
          | WRecv =>
              Some (log_dispatched job
                      (set_gen (Some rest)
                         (set_worker i (set_wpc (WUpload job (now s)) w) s)))
          | _ => None
          end
      | _, _ => None
      end
  | GenStop =>
      match gen s with
      | Some (_ :: _) => if cancelled s then Some (set_gen None s) else None
      | _ => None
      end
  | GenEnd =>
      match gen s with
      | Some [] => Some (set_gen None s)
      | _ => None
      end
  | Attempt i t r random =>
      match workers s !! i with
      | Some w =>
          match wpc w with
          | WUpload job notBefore =>
              if decide (now s <= t /\ notBefore <= t) then
                let '(err, sent) := upload fs urlOk (cancelled s) r job in
                Some (set_worker i (afterAttempt t random job err w)
                        (log_requests sent
                           (log_writer (writerBlocked urlOk) (set_now t s))))
              else None
          | _ => None
          end
      | None => None
      end
  | Report i =>
      match workers s !! i with
      | Some w =>
          match wpc w, fpc w with
          | WReport err, FwdRecv =>
              Some (set_worker i (set_fpc (FwdSend err) (set_wpc WRecv w)) s)
          | _, _ => None
          end
      | None => None
      end
  | Collect i =>
      match workers s !! i with
      | Some w =>
          match fpc w with
          | FwdSend err =>
              if returned s then None
              else Some (collect err (set_worker i (set_fpc FwdRecv w) s))
          | _ => None
          end
      | None => None
      end
  | WorkerEnd i =>
      match gen s, workers s !! i with
      | None, Some w =>
          match wpc w with
          | WRecv => Some (set_worker i (set_wpc WDone w) s)
          | _ => None
          end
      | _, _ => None
      end
  | ForwarderEnd i =>
      match workers s !! i with
      | Some w =>
          match wpc w, fpc w with
          | WDone, FwdRecv => Some (set_worker i (set_fpc FwdDone w) s)
          | _, _ => None
          end
      | None => None
      end
  | CloseAgg =>
      if allDone (workers s) && negb (aggClosed s)
      then Some (set_aggClosed true s) else None
  | Return =>
      if aggClosed s && negb (returned s)
      then Some (set_returned true s) else None
  end.

Fixpoint exec (s : upload_state) (ls : list label) : option upload_state :=
  match ls with
  | [] => Some s
  | l :: ls => match step s l with
               | None => None
               | Some s' => exec s' ls
               end
  end.

(** Lines 703-708 of [Start]: the worker's backoff, made at time [t0]. *)
Definition newBackOff (opts : BackOffOpts) (t0 : Z)
    : Backoff.ExponentialBackOff :=
  let b := Backoff.NewExponentialBackOff t0 in
  Backoff.Reset t0
    {| Backoff.InitialInterval := InitialDuration opts;
       Backoff.RandomizationFactor := RandomizationFactor opts;
       Backoff.Multiplier := Multiplier opts;
       Backoff.MaxInterval := Backoff.MaxInterval b;
       Backoff.MaxElapsedTime := MaxElapsedTime opts;
       Backoff.currentInterval := Backoff.currentInterval b;
       Backoff.startTime := Backoff.startTime b |}.

Record filesUploader := {
  EndpointURL : string;
  Filenames : list string;
  u_ChunkSizeBytes : Z;
  u_BackOffOpts : BackOffOpts
}.

(** The state in which [Upload] enters its loop over the results, at
    time [t0]: the workers and the generator are started. *)
Definition started (u : filesUploader) (infos : list fileInfo) (t0 : Z)
    : upload_state :=
  {| now := t0; cancelled := false;
     gen := Some (allJobs (u_ChunkSizeBytes u) infos);
     workers := replicate openConnections
                  {| wpc := WRecv; wb := newBackOff (u_BackOffOpts u) t0;
                     fpc := FwdRecv |};
     aggClosed := false; returnErr := None; returned := false;
     dumpOut := []; requests := []; dispatched := [];
     blockedWriters := 0%nat |}.

(** What a call leaves behind: its result ([Done None] is a [nil]
    error), the bodies sent and the jobs put on the queue. *)
Record outcome := {
  result : may_panic (option error);
  sent : list multipartForm;
  jobs : list uploadChunkJob
}.

(** [Upload], run at time [t0] under the schedule [ls]; [None] when the
    schedule is not one of the call, or stops before it returns. *)
Definition Upload (u : filesUploader) (t0 : Z) (ls : list label)
    : option outcome :=
  match getFilesInfos fs (u_ChunkSizeBytes u) (Filenames u) [] with
  | Panic msg => Some {| result := Panic msg; sent := []; jobs := [] |}
  | Done (inl e) => Some {| result := Done (Some e); sent := []; jobs := [] |}
  | Done (inr infos) =>
      match exec (started u infos t0) ls with
      | Some s =>
          if returned s then
            Some {| result := Done (returnErr s); sent := requests s;
                    jobs := dispatched s |}
          else None
      | None => None
      end
  end.

(** The [ServiceOptions] the uploader reads. *)
Record ServiceOptions := {
  RootEndpoint : string;
  opt_ChunkSizeBytes : Z;
  ChunkUploadBackOffOpts : BackOffOpts
}.

(** Lines 485-492: the uploader [UploadFiles] makes. *)
Definition uploaderOf (c : ServiceOptions) (host uploadDir : string)
    (filenames : list string) : filesUploader :=
  {| EndpointURL := RootEndpoint c +:+ "/hosts/" +:+ host
                    +:+ "/userartifacts/" +:+ uploadDir;
     Filenames := filenames;
     u_ChunkSizeBytes := opt_ChunkSizeBytes c;
     u_BackOffOpts := ChunkUploadBackOffOpts c |}.

Definition UploadFiles (c : ServiceOptions) (host uploadDir : string)
    (filenames : list string) (t0 : Z) (ls : list label) : option outcome :=
  if decide (opt_ChunkSizeBytes c = 0) then
    Some {| result := Panic "ChunkSizeBytes value cannot be zero";
            sent := []; jobs := [] |}
  else Upload (uploaderOf c host uploadDir filenames) t0 ls.

(** *** A zero chunk size *)

(** C5.  With [ChunkSizeBytes] equal to 0, [UploadFiles] panics before
    anything else happens, for every destination, every list of files and
    whatever the environment would have done: no body is sent and no job
    is put on the queue. *)
Theorem UploadFiles_zero_chunk_size (c : ServiceOptions)
    (host uploadDir : string) (filenames : list string) (t0 : Z)
    (ls : list label) :
  opt_ChunkSizeBytes c = 0 ->
  exists out,
    UploadFiles c host uploadDir filenames t0 ls = Some out
    /\ result out = Panic "ChunkSizeBytes value cannot be zero"
    /\ sent out = [] /\ jobs out = [].
Proof.
  intros Hzero. unfold UploadFiles.
  destruct (decide (opt_ChunkSizeBytes c = 0)) as [_|Hne]; [|done].
  eexists. split; [reflexivity|]. simpl. done.
Qed.

(** *** An empty list of files *)

(** The moves a worker and its forwarder have left when no job is ever
    sent. *)
Definition idle_rank (w : worker) : nat :=
  (match wpc w with WDone => 0 | _ => 1 end
   + match fpc w with FwdDone => 0 | _ => 1 end)%nat.

Definition quiet_rank (s : upload_state) : nat :=
  (match gen s with Some _ => 1 | None => 0 end
   + sum_list (idle_rank <$> workers s)
   + (if aggClosed s then 0 else 1)
   + (if returned s then 0 else 1))%nat.

(** A worker that never got a job, and its forwarder. *)
Definition idle (jobsClosed : bool) (w : worker) : Prop :=
  (wpc w = WRecv \/ (wpc w = WDone /\ jobsClosed = true))
  /\ (fpc w = FwdRecv \/ (fpc w = FwdDone /\ wpc w = WDone)).

(** What holds throughout a call that has no job to send. *)
Record quiet (s : upload_state) : Prop := {
  quiet_gen : gen s = Some [] \/ gen s = None;
  quiet_workers : Forall (idle (bool_decide (gen s = None))) (workers s);
  quiet_agg : aggClosed s = true -> allDone (workers s) = true;
  quiet_returned : returned s = true -> aggClosed s = true;
  quiet_ctx : cancelled s = false;
  quiet_err : returnErr s = None;
  quiet_dump : dumpOut s = [];
  quiet_requests : requests s = [];
  quiet_dispatched : dispatched s = [];
  quiet_pool : length (workers s) = openConnections
}.

Lemma sum_idle_rank_insert (ws : list worker) i w w' :
  ws !! i = Some w ->
  (sum_list (idle_rank <$> <[i := w']> ws) + idle_rank w =
   sum_list (idle_rank <$> ws) + idle_rank w')%nat.
Proof.
  revert i. induction ws as [|x ws IH]; intros [|i] Hi; simplify_eq/=;
    csimpl.
  - lia.
  - specialize (IH i Hi). lia.
Qed.

Lemma allDone_Forall ws :
  allDone ws = true <-> Forall (fun w => fpc w = FwdDone) ws.
Proof.
  unfold allDone. rewrite forallb_forall, Forall_forall.
  split; intros H w Hw.
  - apply list_elem_of_In in Hw. specialize (H w Hw).
    by destruct (fpc w).
  - apply list_elem_of_In in Hw. by rewrite (H w Hw).
Qed.

Lemma allDone_pending ws i w :
  ws !! i = Some w -> fpc w <> FwdDone -> allDone ws = false.
Proof.
  intros Hi Hw. destruct (allDone ws) eqn:Hall; [|done].
  apply allDone_Forall in Hall.
  by pose proof (Forall_lookup_1 _ _ _ _ Hall Hi).
Qed.

Lemma idle_mono jc w : idle jc w -> idle true w.
Proof. intros [[?|[? ?]] ?]; split; eauto. Qed.

Lemma quiet_step s l s' :
  quiet s -> step s l = Some s' ->
  quiet s' /\ (1 + quiet_rank s' = quiet_rank s)%nat.
Proof.
  intros [Hgen Hws Hagg Hret Hctx Herr Hdump Hreq Hdis Hpool] Hstep.
  unfold quiet_rank.
  destruct l; simpl in Hstep.
  - (* Dispatch *)
    destruct Hgen as [Hg|Hg]; rewrite Hg in Hstep; done.
  - (* GenStop *)
    destruct Hgen as [Hg|Hg]; rewrite Hg in Hstep; done.
  - (* GenEnd *)
    destruct Hgen as [Hg|Hg]; rewrite Hg in Hstep; [|done].
    simplify_eq. split; [|simpl; rewrite Hg; lia].
    split; simpl; eauto.
    eapply Forall_impl; [exact Hws|]. intros w Hw. by eapply idle_mono.
  - (* Attempt *)
    destruct (workers s !! w) as [wk|] eqn:Hw; [|done].
    destruct (Forall_lookup_1 _ _ _ _ Hws Hw) as [[Hpc|[Hpc _]] _];
      rewrite Hpc in Hstep; done.
  - (* Report *)
    destruct (workers s !! w) as [wk|] eqn:Hw; [|done].
    destruct (Forall_lookup_1 _ _ _ _ Hws Hw) as [[Hpc|[Hpc _]] _];
      rewrite Hpc in Hstep; done.
  - (* Collect *)
    destruct (workers s !! w) as [wk|] eqn:Hw; [|done].
    destruct (Forall_lookup_1 _ _ _ _ Hws Hw) as [_ [Hpc|[Hpc _]]];
      rewrite Hpc in Hstep; done.
  - (* WorkerEnd *)
    destruct (gen s) eqn:Hg; [done|].
    destruct (workers s !! w) as [wk|] eqn:Hw; [|done].
    destruct (wpc wk) eqn:Hpc; try done. simplify_eq.
    pose proof (Forall_lookup_1 _ _ _ _ Hws Hw) as [_ Hf].
    assert (Hfpc : fpc wk = FwdRecv) by (destruct Hf as [?|[_ ?]]; congruence).
    split.
    + split; simpl; eauto.
      * rewrite Hg. apply Forall_insert; [done|].
        split; simpl; [by right|by left].
      * intros Hc. specialize (Hagg Hc).
        by rewrite (allDone_pending _ _ wk Hw) in Hagg by congruence.
      * by rewrite length_insert.
    + simpl. rewrite Hg.
      pose proof (sum_idle_rank_insert (workers s) w wk (set_wpc WDone wk) Hw)
        as Hsum.
      unfold idle_rank in Hsum at 2 4. simpl in Hsum. rewrite Hpc in Hsum.
      lia.
  - (* ForwarderEnd *)
    destruct (workers s !! w) as [wk|] eqn:Hw; [|done].
    destruct (wpc wk) eqn:Hpc; try done.
    destruct (fpc wk) eqn:Hfpc; try done. simplify_eq.
    pose proof (Forall_lookup_1 _ _ _ _ Hws Hw) as [Hwk _].
    assert (Hjc : bool_decide (gen s = None) = true)
      by (destruct Hwk as [?|[_ ?]]; congruence).
    split.
    + split; simpl; eauto.
      * apply Forall_insert; [done|].
        split; simpl; [right|right]; by rewrite ?Hpc.
      * intros Hc. specialize (Hagg Hc).
        by rewrite (allDone_pending _ _ wk Hw) in Hagg by congruence.
      * by rewrite length_insert.
    + simpl.
      pose proof (sum_idle_rank_insert (workers s) w wk (set_fpc FwdDone wk) Hw)
        as Hsum.
      unfold idle_rank in Hsum at 2 4. simpl in Hsum.
      rewrite Hpc, Hfpc in Hsum. lia.
  - (* CloseAgg *)
    destruct (allDone (workers s)) eqn:Hall; [|done].
    destruct (aggClosed s) eqn:Hc; [done|]. simplify_eq/=.
    destruct (returned s) eqn:Hr; [by specialize (Hret eq_refl)|].
    split; [|simpl; lia].
    split; simpl; eauto.
  - (* Return *)
    destruct (aggClosed s) eqn:Hc; [|done].
    destruct (returned s) eqn:Hr; [done|]. simplify_eq/=.
    split; [|simpl; rewrite Hc; lia].
    split; simpl; eauto.
Qed.

Lemma quiet_exec ls : forall s s',
  quiet s -> exec s ls = Some s' ->
  quiet s' /\ (length ls + quiet_rank s' = quiet_rank s)%nat.
Proof.
  induction ls as [|l ls IH]; simpl; intros s s' Hq Hexec.
  - simplify_eq. done.
  - destruct (step s l) as [s1|] eqn:Hstep; [|done].
    destruct (quiet_step _ _ _ Hq Hstep) as [Hq1 Hr1].
    destruct (IH _ _ Hq1 Hexec) as [Hq' Hr']. split; [done|lia].
Qed.

Definition receiving (w : worker) : bool :=
  match wpc w with WRecv => true | _ => false end.

Definition forwarding (w : worker) : bool :=
  match fpc w with FwdDone => false | _ => true end.

(** A call with no job to send is never stuck before it returns. *)
Lemma quiet_progress s :
  quiet s -> returned s = false -> exists l, is_Some (step s l).
Proof.
  intros Hq Hret. destruct (quiet_gen s Hq) as [Hg|Hg].
  { exists GenEnd. simpl. rewrite Hg. eauto. }
  pose proof (quiet_workers s Hq) as Hws. rewrite Hg in Hws.
  destruct (list_find (fun w => receiving w = true) (workers s))
    as [[i w]|] eqn:Hfind.
  { apply list_find_Some in Hfind as (Hi & Hw & _).
    exists (WorkerEnd i). simpl. rewrite Hg, Hi.
    unfold receiving in Hw. by destruct (wpc w). }
  apply list_find_None in Hfind.
  destruct (list_find (fun w => forwarding w = true) (workers s))
    as [[i w]|] eqn:Hfind2.
  { apply list_find_Some in Hfind2 as (Hi & Hw & _).
    exists (ForwarderEnd i). simpl. rewrite Hi.
    pose proof (Forall_lookup_1 _ _ _ _ Hws Hi) as [Hwpc Hfpc].
    pose proof (Forall_lookup_1 _ _ _ _ Hfind Hi) as Hnr.
    unfold receiving in Hnr. unfold forwarding in Hw.
    destruct Hwpc as [Hwpc|[Hwpc _]]; [by rewrite Hwpc in Hnr|].
    destruct Hfpc as [Hfpc|[Hfpc _]]; [|by rewrite Hfpc in Hw].
    rewrite Hwpc, Hfpc. eauto. }
  apply list_find_None in Hfind2.
  assert (Hall : allDone (workers s) = true).
  { apply allDone_Forall. eapply Forall_impl; [exact Hfind2|].
    intros w Hw. unfold forwarding in Hw. simpl in Hw.
    by destruct (fpc w). }
  destruct (aggClosed s) eqn:Hc.
  - exists Return. simpl. rewrite Hc, Hret. eauto.
  - exists CloseAgg. simpl. rewrite Hall, Hc. eauto.
Qed.

(** ... and it returns on some schedule. *)
Lemma quiet_completes n : forall s,
  quiet s -> (quiet_rank s <= n)%nat ->
  exists ls s', exec s ls = Some s' /\ returned s' = true.
Proof.
  induction n as [|n IH]; intros s Hq Hn.
  - exists [], s. split; [done|]. unfold quiet_rank in Hn.
    destruct (returned s); [done|lia].
  - destruct (returned s) eqn:Hret; [by exists [], s|].
    destruct (quiet_progress s Hq Hret) as (l & s1 & Hstep).
    destruct (quiet_step _ _ _ Hq Hstep) as [Hq1 Hr1].
    destruct (IH s1 Hq1 ltac:(lia)) as (ls & s' & Hexec & Hdone).
    exists (l :: ls), s'. simpl. by rewrite Hstep.
Qed.

Lemma quiet_started u t0 :
  quiet (started u [] t0)
  /\ quiet_rank (started u [] t0) = (2 * openConnections + 3)%nat.
Proof.
  split; [|reflexivity].
  split; cbn -[replicate]; try done.
  - by left.
  - apply Forall_replicate. split; by left.
Qed.

(** A returned call with no job has wound everything down: the job
    queue is closed and every worker and forwarder has ended. *)
Lemma quiet_returned_done s :
  quiet s -> returned s = true ->
  gen s = None
  /\ Forall (fun w => wpc w = WDone /\ fpc w = FwdDone) (workers s).
Proof.
  intros Hq Hret.
  pose proof (quiet_agg s Hq (quiet_returned s Hq Hret)) as Hall.
  apply allDone_Forall in Hall.
  pose proof (quiet_workers s Hq) as Hws.
  pose proof (quiet_pool s Hq) as Hpool.
  assert (Hboth : Forall (fun w => wpc w = WDone /\ fpc w = FwdDone)
                    (workers s)).
  { apply Forall_forall. intros w Hw.
    rewrite Forall_forall in Hall, Hws.
    specialize (Hall w Hw). destruct (Hws w Hw) as [_ [Hf|[_ Hd]]];
      [congruence|done]. }
  split; [|done].
  destruct (quiet_gen s Hq) as [Hg|Hg]; [|done].
  rewrite Hg in Hws. exfalso.
  destruct (workers s) as [|w ws] eqn:Hwk; [done|].
  apply Forall_cons in Hws as [[[Hr|[_ Hb]] _] _], Hboth as [[Hd _] _];
    [congruence|done].
Qed.

(** C10.  [UploadFiles] with an empty list of files and a chunk size
    other than 0: whatever the schedule, the call puts no job on the
    queue and sends no body; it is never stuck, makes at most
    [2 * openConnections + 3] moves (the generator closes the job queue,
    each worker and each forwarder ends, the aggregate channel is closed,
    the loop over the results ends), and when it returns, it returns
    [nil] with the job queue closed and every worker and forwarder
    ended. *)
Theorem UploadFiles_no_files (c : ServiceOptions) (host uploadDir : string)
    (t0 : Z) :
  opt_ChunkSizeBytes c <> 0 ->
  (forall ls out,
     UploadFiles c host uploadDir [] t0 ls = Some out ->
     result out = Done None /\ sent out = [] /\ jobs out = [])
  /\ (exists ls out, UploadFiles c host uploadDir [] t0 ls = Some out)
  /\ (forall ls s,
        exec (started (uploaderOf c host uploadDir []) [] t0) ls = Some s ->
        (length ls <= 2 * openConnections + 3)%nat
        /\ requests s = [] /\ dispatched s = []
        /\ (returned s = false -> exists l, is_Some (step s l))
        /\ (returned s = true ->
            returnErr s = None /\ gen s = None
            /\ Forall (fun w => wpc w = WDone /\ fpc w = FwdDone)
                      (workers s))).
Proof.
  intros Hsize.
  set (u := uploaderOf c host uploadDir []).
  destruct (quiet_started u t0) as [Hq0 Hrank0].
  assert (Hrun : forall ls,
            UploadFiles c host uploadDir [] t0 ls =
            match exec (started u [] t0) ls with
            | Some s =>
                if returned s then
                  Some {| result := Done (returnErr s); sent := requests s;
                          jobs := dispatched s |}
                else None
            | None => None
            end).
  { intros ls. unfold UploadFiles. by rewrite decide_False. }
  split; [|split].
  - intros ls out. rewrite Hrun.
    destruct (exec (started u [] t0) ls) as [s|] eqn:Hexec; [|done].
    destruct (quiet_exec _ _ _ Hq0 Hexec) as [Hq _].
    destruct (returned s); [|done]. intros [= <-]. simpl.
    by rewrite (quiet_err s Hq), (quiet_requests s Hq),
      (quiet_dispatched s Hq).
  - destruct (quiet_completes _ _ Hq0 (Nat.le_refl _))
      as (ls & s & Hexec & Hret).
    exists ls. rewrite Hrun, Hexec, Hret. eauto.
  - intros ls s Hexec.
    destruct (quiet_exec _ _ _ Hq0 Hexec) as [Hq Hrank].
    split; [lia|].
    split; [apply (quiet_requests s Hq)|].
    split; [apply (quiet_dispatched s Hq)|].
    split; [by apply quiet_progress|].
    intros Hret. split; [apply (quiet_err s Hq)|].
    by apply quiet_returned_done.
Qed.

(** *** The first error *)

(** What Upload's loop keeps of the errors it receives: the first one is
    the one returned, it is what cancels the context, and every error
    received is printed. *)
Record first_error (s : upload_state) : Prop := {
  fe_first : returnErr s = head (dumpOut s);
  fe_cancel : cancelled s = bool_decide (returnErr s <> None)
}.

Lemma collect_first_error err s :
  first_error s ->
  first_error (collect err s)
  /\ dumpOut (collect err s) = dumpOut s ++ option_list err
  /\ returnErr (collect err s) =
     match returnErr s with Some e => Some e | None => err end.
Proof.
  intros [Hfirst Hcancel]. destruct err as [e|]; simpl.
  - destruct (returnErr s) as [e0|] eqn:Hret; simpl.
    + split; [|done]. split; simpl; [|by rewrite Hcancel, Hret].
      rewrite Hret, Hfirst. by destruct (dumpOut s).
    + split; [|done]. split; simpl; [|done].
      symmetry in Hfirst. destruct (dumpOut s); [done|discriminate].
  - rewrite app_nil_r. split; [done|]. split; [done|].
    by destruct (returnErr s).
Qed.

Lemma first_error_step s l s' :
  first_error s -> step s l = Some s' -> first_error s'.
Proof.
  intros Hfe Hstep. destruct l; simpl in Hstep;
    repeat (case_match; simplify_eq; simpl in *; try done);
    try (destruct Hfe; split; done).
  apply collect_first_error. by destruct Hfe.
Qed.

Lemma first_error_exec ls : forall s s',
  first_error s -> exec s ls = Some s' -> first_error s'.
Proof.
  induction ls as [|l ls IH]; simpl; intros s s' Hfe Hexec.
  - by simplify_eq.
  - destruct (step s l) as [s1|] eqn:Hstep; [|done].
    eauto using first_error_step.
Qed.

(** [Upload] returns the first error its loop received, or [nil] if it
    received none; the later ones were printed and dropped. *)
Lemma Upload_returns_first_error u t0 ls out :
  Upload u t0 ls = Some out ->
  (exists e, result out = Done (Some e)
             /\ getFilesInfos fs (u_ChunkSizeBytes u) (Filenames u) [] =
                Done (inl e))
  \/ (exists msg, result out = Panic msg)
  \/ exists infos s,
       exec (started u infos t0) ls = Some s
       /\ returned s = true
       /\ result out = Done (head (dumpOut s)).
Proof.
  unfold Upload.
  destruct (getFilesInfos _ _ _ _) as [[e|infos]|msg]; intros Hout.
  - left. simplify_eq. eauto.
  - right. right.
    destruct (exec (started u infos t0) ls) as [s|] eqn:Hexec; [|done].
    destruct (returned s) eqn:Hret; [|done]. simplify_eq.
    exists infos, s. split; [done|]. split; [done|]. simpl.
    assert (Hfe : first_error s).
    { eapply first_error_exec; [|exact Hexec]. split; done. }
    by rewrite (fe_first s Hfe).
  - right. left. simplify_eq. eauto.
Qed.

(** *** The retry budget of a worker *)

(** A failed attempt leaves the start of the worker's budget where it
    was; only a successful one moves it. *)
Lemma afterAttempt_startTime t random job err w :
  Backoff.startTime (wb (afterAttempt t random job err w)) =
  match err with
  | None => t
  | Some _ => Backoff.startTime (wb w)
  end.
Proof.
  unfold afterAttempt. destruct err as [e|]; [|done].
  pose proof (Backoff.NextBackOff_startTime t random (wb w)) as Hst.
  destruct (Backoff.NextBackOff t random (wb w)) as [d b].
  simpl in Hst. by destruct (decide (d = Backoff.Stop)).
Qed.

(** Once the budget is spent a failure is final. *)
Lemma afterAttempt_exhausted t random job e w :
  Backoff.MaxElapsedTime (wb w) <> 0 ->
  add64 (Backoff.GetElapsedTime t (wb w))
        (Backoff.getRandomValueFromInterval
           (Backoff.RandomizationFactor (wb w)) random
           (Backoff.currentInterval (wb w)))
    > Backoff.MaxElapsedTime (wb w) ->
  wpc (afterAttempt t random job (Some e) w) = WReport (Some e).
Proof.
  intros Hmax Hover. unfold afterAttempt.
  pose proof (Backoff.NextBackOff_exhausted t random (wb w) Hmax Hover) as Hs.
  destruct (Backoff.NextBackOff t random (wb w)) as [d b].
  simpl in Hs. by rewrite decide_True.
Qed.


(** *** A file from its chunks *)

(** The body of chunk [n] of [k]. *)
Definition chunkForm (name : string) (content : list byte) (c k n : Z)
    : multipartForm :=
  {| chunk_number := pretty n; chunk_total := pretty k;
     chunk_size_bytes := pretty c; file_name := Base name;
     file_data := take (Z.to_nat c) (drop (Z.to_nat ((n - 1) * c)) content) |}.

Lemma writeMultipartRequest_form name content c k n :
  fs !! name = Some content ->
  0 < c -> 1 <= n <= k ->
  (k - 1) * c < Z.of_nat (length content) <= k * c ->
  Z.of_nat (length content) <= max_int ->
  writeMultipartRequest fs {| Filename := name; ChunkNumber := n;
                              TotalChunks := k; ChunkSizeBytes := c |}
  = inr (chunkForm name content c k n).
Proof.
  intros Hfile Hc Hn Hk Hmax.
  unfold writeMultipartRequest, chunkForm. simpl. rewrite Hfile.
  assert (Hoff : 0 <= (n - 1) * c <= (k - 1) * c) by nia.
  assert (Hnum : 0 <= n - 1 <= (n - 1) * c) by nia.
  rewrite sub64_small by (unfold in_range, min_int, max_int in *; lia).
  rewrite mul64_small by (unfold in_range, min_int, max_int in *; lia).
  rewrite decide_False by lia.
  destruct (decide (n < k)) as [Hlt|Hge].
  - assert (Hfit : n * c <= (k - 1) * c) by nia.
    unfold CopyN. rewrite decide_False by lia.
    rewrite decide_True by (rewrite length_drop; lia).
    reflexivity.
  - assert (n = k) as -> by lia.
    do 2 f_equal. symmetry. apply take_ge. rewrite length_drop. lia.
Qed.

Lemma concat_chunks (content : list byte) (c : nat) : forall k : nat,
  concat ((fun i => take c (drop (i * c) content)) <$> seq 0 k) =
  take (k * c) content.
Proof.
  induction k as [|k IH]; [done|].
  rewrite seq_S, fmap_app, concat_app, IH. simpl.
  rewrite app_nil_r, take_take_drop. f_equal. lia.
Qed.

(** X11.  The bodies of the jobs of a file, concatenated in the order
    of the jobs, are the bytes of the file: no byte is lost and none is
    sent twice.  Each body names the file by the last element of its
    path and carries its chunk number, the chunk count and the chunk
    size in decimal. *)
Theorem chunks_reassemble (name : string) (content : list byte) (C : Z) :
  fs !! name = Some content ->
  0 < C ->
  Z.of_nat (length content) + C - 1 <= max_int ->
  exists (k : Z) (forms : list multipartForm),
    getFilesInfos fs C [name] [] =
      Done (inr [{| Name := name; info_TotalChunks := k |}])
    /\ Forall2 (fun job form => writeMultipartRequest fs job = inr form)
         (allJobs C [{| Name := name; info_TotalChunks := k |}]) forms
    /\ concat (file_data <$> forms) = content
    /\ chunk_number <$> forms = pretty <$> seqZ 1 k
    /\ Forall (fun form => file_name form = Base name
                           /\ chunk_total form = pretty k
                           /\ chunk_size_bytes form = pretty C) forms.
Proof.
  intros Hfile HC Hmax.
  destruct (totalChunks_ceil (Z.of_nat (length content)) C
              ltac:(lia) HC Hmax) as (k & Hk & Hceil).
  assert (Hkmax : k <= max_int) by nia.
  exists k, (chunkForm name content C k <$> seqZ 1 k).
  split; [simpl; by rewrite Hfile, Hk|].
  split.
  { unfold allJobs. simpl. rewrite app_nil_r, jobsOf_numbers by done.
    apply Forall2_fmap, Forall_Forall2_diag, Forall_seqZ.
    intros n Hn. apply writeMultipartRequest_form; try done; lia. }
  split.
  { rewrite <- list_fmap_compose. unfold seqZ.
    rewrite <- list_fmap_compose.
    assert (Hk0 : 0 <= k) by nia.
    transitivity (concat ((fun i => take (Z.to_nat C)
                                      (drop (i * Z.to_nat C) content))
                            <$> seq 0 (Z.to_nat k))).
    - f_equal. apply list_fmap_ext.
      intros i n Hi. simpl. do 2 f_equal.
      rewrite <- (Nat2Z.id n) at 2. rewrite <- Z2Nat.inj_mul by lia.
      f_equal. lia.
    - rewrite concat_chunks. apply take_ge.
      rewrite <- Z2Nat.inj_mul by lia. lia. }
  split; [by rewrite <- list_fmap_compose|].
  apply Forall_fmap, Forall_forall. done.
Qed.

(** *** Missing files *)

Lemma totalChunks_is_Some size C : C <> 0 -> is_Some (totalChunks size C).
Proof. intros HC. unfold totalChunks, div64. rewrite decide_False; eauto. Qed.

(** The entry [getFilesInfos] makes for a file that exists. *)
Definition infoOf (C : Z) (name : string) : fileInfo :=
  {| Name := name;
     info_TotalChunks :=
       default 0 (content ← fs !! name;
                  totalChunks (Z.of_nat (length content)) C) |}.

Lemma getFilesInfos_run C : C <> 0 -> forall names acc,
  getFilesInfos fs C names acc =
  match list_find (fun name => fs !! name = None) names with
  | Some (_, name) => Done (inl (ErrStat name))
  | None => Done (inr (acc ++ (infoOf C <$> names)))
  end.
Proof.
  intros HC. induction names as [|name rest IH]; intros acc; simpl.
  - by rewrite app_nil_r.
  - destruct (decide (fs !! name = None)) as [Hnone|Hsome].
    + by rewrite Hnone.
    + destruct (fs !! name) as [content|] eqn:Hfile; [|done].
      destruct (totalChunks_is_Some (Z.of_nat (length content)) C HC)
        as [n Hn].
      rewrite Hn, IH.
      destruct (list_find _ rest) as [[i missing]|]; simpl; [done|].
      unfold infoOf at 2. rewrite Hfile. simpl. rewrite Hn. simpl.
      by rewrite <- app_assoc.
Qed.

(** X12.  [Upload] looks every file up before it starts anything.  If
    a file is missing, [getFilesInfos] fails on the first such file with
    the error of its [os.Stat] and hands back no entry at all, and
    [Upload] returns that error at once: no job is put on the queue and
    nothing is sent, whatever the schedule would have been.  If no file
    is missing, [getFilesInfos] makes one entry per name, in the order of
    the names, with the chunk count of that file. *)
Theorem Upload_missing_file (u : filesUploader) (t0 : Z) (ls : list label) :
  u_ChunkSizeBytes u <> 0 ->
  match list_find (fun name => fs !! name = None) (Filenames u) with
  | Some (_, name) =>
      getFilesInfos fs (u_ChunkSizeBytes u) (Filenames u) [] =
        Done (inl (ErrStat name))
      /\ Upload u t0 ls =
         Some {| result := Done (Some (ErrStat name)); sent := [];
                 jobs := [] |}
  | None =>
      exists infos,
        getFilesInfos fs (u_ChunkSizeBytes u) (Filenames u) [] =
          Done (inr infos)
        /\ Name <$> infos = Filenames u
        /\ Forall (fun info =>
                     exists content,
                       fs !! Name info = Some content
                       /\ totalChunks (Z.of_nat (length content))
                            (u_ChunkSizeBytes u)
                          = Some (info_TotalChunks info)) infos
  end.
Proof.
  intros HC. unfold Upload.
  rewrite (getFilesInfos_run _ HC (Filenames u) []).
  destruct (list_find _ (Filenames u)) as [[i name]|] eqn:Hfind; [done|].
  exists (infoOf (u_ChunkSizeBytes u) <$> Filenames u).
  split; [done|]. split.
  - rewrite <- list_fmap_compose. apply list_fmap_id.
  - apply Forall_fmap, Forall_forall. intros name Hin. simpl.
    apply list_find_None in Hfind. rewrite Forall_forall in Hfind.
    specialize (Hfind name Hin).
    destruct (fs !! name) as [content|] eqn:Hfile; [|done].
    exists content. split; [done|]. simpl.
    by destruct (totalChunks_is_Some (Z.of_nat (length content))
                   (u_ChunkSizeBytes u) HC) as [n ->].
Qed.

(** *** The structure of a run *)

Lemma upload_exec_snoc ls l s s' :
  exec s (ls ++ [l]) = Some s' <->
  exists s1, exec s ls = Some s1 /\ step s1 l = Some s'.
Proof.
  revert s. induction ls as [|l0 ls IH]; intros s; simpl.
  - destruct (step s l) as [s1|] eqn:Hstep.
    + split; [intros [= <-]; eauto|]. intros (s1' & [= <-] & H). congruence.
    + split; [done|]. intros (s1' & [= <-] & H). congruence.
  - destruct (step s l0) as [s1|]; [apply IH|].
    split; [done|]. by intros (s1' & ? & _).
Qed.

Lemma upload_exec_ind_r (P : list label -> upload_state -> Prop)
    (s0 : upload_state) :
  P [] s0 ->
  (forall ls s l s',
     exec s0 ls = Some s -> P ls s -> step s l = Some s' ->
     P (ls ++ [l]) s') ->
  forall ls s, exec s0 ls = Some s -> P ls s.
Proof.
  intros H0 Hstep ls. induction ls as [|l ls IH] using rev_ind; intros s Hexec.
  - simpl in Hexec. by simplify_eq.
  - apply upload_exec_snoc in Hexec as (s1 & H1 & H2). eauto.
Qed.

(** What holds of the queue, the workers and the channels throughout a
    call that has the jobs [all] to send. *)
Record sound (all : list uploadChunkJob) (s : upload_state) : Prop := {
  sd_queue : forall p, gen s = Some p -> dispatched s ++ p = all;
  sd_prefix : dispatched s `prefix_of` all;
  sd_stop : gen s = None -> dispatched s = all \/ cancelled s = true;
  sd_done : Forall (fun w => fpc w = FwdDone -> wpc w = WDone) (workers s);
  sd_closed : Forall (fun w => wpc w = WDone -> gen s = None) (workers s);
  sd_agg : aggClosed s = true -> allDone (workers s) = true;
  sd_ret : returned s = true -> aggClosed s = true;
  sd_pool : length (workers s) = openConnections
}.

Lemma sound_started u infos t0 :
  sound (allJobs (u_ChunkSizeBytes u) infos) (started u infos t0).
Proof.
  split; cbn -[replicate]; try done.
  - intros p [= <-]. apply app_nil_l.
  - apply prefix_nil.
  - by apply Forall_replicate.
  - by apply Forall_replicate.
Qed.

(** While a worker or its forwarder is at work the aggregate channel is
    open. *)
Lemma sound_busy all s i w :
  sound all s -> workers s !! i = Some w ->
  fpc w <> FwdDone \/ wpc w <> WDone ->
  aggClosed s = false /\ returned s = false.
Proof.
  intros Hs Hi Hbusy.
  assert (Hagg : aggClosed s = false).
  { destruct (aggClosed s) eqn:Hc; [|done]. exfalso.
    pose proof (sd_agg _ _ Hs Hc) as Hall. apply allDone_Forall in Hall.
    pose proof (Forall_lookup_1 _ _ _ _ Hall Hi) as Hf.
    pose proof (Forall_lookup_1 _ _ _ _ (sd_done _ _ Hs) Hi Hf) as Hw.
    destruct Hbusy; done. }
  split; [done|]. destruct (returned s) eqn:Hr; [|done].
  pose proof (sd_ret _ _ Hs Hr). congruence.
Qed.

(** Replacing a worker that is at work by one that has not ended. *)
Lemma sound_set_worker all s i w w' :
  sound all s -> workers s !! i = Some w ->
  fpc w <> FwdDone \/ wpc w <> WDone ->
  (fpc w' = FwdDone -> wpc w' = WDone) ->
  (wpc w' = WDone -> gen s = None) ->
  sound all (set_worker i w' s).
Proof.
  intros Hs Hi Hbusy Hdone Hclosed.
  destruct (sound_busy _ _ _ _ Hs Hi Hbusy) as [Hagg Hret].
  destruct Hs as [Hq Hp Hstop Hd Hc Ha Hr Hpool].
  split; simpl; try done.
  - by apply Forall_insert.
  - by apply Forall_insert.
  - congruence.
  - by rewrite length_insert.
Qed.

Lemma sound_step all s l s' :
  sound all s -> step s l = Some s' -> sound all s'.
Proof.
  intros Hs Hstep. destruct l; simpl in Hstep.
  - (* Dispatch *)
    destruct (gen s) as [[|job rest]|] eqn:Hg; try done.
    destruct (workers s !! w) as [wk|] eqn:Hw; [|done].
    destruct (wpc wk) eqn:Hpc; try done. simplify_eq.
    assert (Hs1 : sound all (set_worker w (set_wpc (WUpload job (now s)) wk) s)).
    { apply (sound_set_worker all s w wk _ Hs Hw); simpl;
        [right; congruence| |done].
      intros Hf. pose proof (Forall_lookup_1 _ _ _ _ (sd_done _ _ Hs) Hw Hf).
      congruence. }
    destruct Hs1 as [Hq Hp Hstop Hd Hc Ha Hr Hpool]. simpl in *.
    pose proof (Hq _ Hg) as Hall.
    split; simpl; try done.
    + intros p [= <-]. rewrite <- Hall, <- app_assoc. done.
    + rewrite <- Hall.
      change (job :: rest) with ([job] ++ rest). rewrite app_assoc.
      by apply prefix_app_r.
    + eapply Forall_impl; [exact Hc|]. simpl. intros x Hx Hdone.
      specialize (Hx Hdone). congruence.
  - (* GenStop *)
    destruct (gen s) as [[|job rest]|] eqn:Hg; try done.
    destruct (cancelled s) eqn:Hcan; simplify_eq.
    destruct Hs as [Hq Hp Hstop Hd Hc Ha Hr Hpool].
    split; simpl; try done.
    + intros _. by right.
    + eapply Forall_impl; [exact Hc|]. done.
  - (* GenEnd *)
    destruct (gen s) as [[|job rest]|] eqn:Hg; try done. simplify_eq.
    destruct Hs as [Hq Hp Hstop Hd Hc Ha Hr Hpool].
    split; simpl; try done.
    + intros _. left. rewrite <- (Hq [] Hg). by rewrite app_nil_r.
    + eapply Forall_impl; [exact Hc|]. done.
  - (* Attempt *)
    destruct (workers s !! w) as [wk|] eqn:Hw; [|done].
    destruct (wpc wk) as [|job notBefore| |] eqn:Hpc; try done.
    destruct (decide (now s <= t /\ notBefore <= t)); [|done].
    destruct (upload fs urlOk (cancelled s) r job) as [err sent0].
    simplify_eq.
    assert (Hnew : wpc (afterAttempt t random job err wk) <> WDone
                   /\ fpc (afterAttempt t random job err wk) = fpc wk).
    { unfold afterAttempt. destruct err as [e|]; simpl; [|done].
      destruct (Backoff.NextBackOff t random (wb wk)) as [d b].
      by destruct (decide (d = Backoff.Stop)). }
    destruct Hnew as [Hnw Hnf].
    assert (Hs1 : sound all
      (set_worker w (afterAttempt t random job err wk) s)).
    { apply (sound_set_worker all s w wk _ Hs Hw);
        [right; congruence| |done].
      rewrite Hnf. intros Hf.
      pose proof (Forall_lookup_1 _ _ _ _ (sd_done _ _ Hs) Hw Hf).
      congruence. }
    destruct Hs1 as [Hq Hp Hstop Hd Hc Ha Hr Hpool].
    split; simpl in *; done.
  - (* Report *)
    destruct (workers s !! w) as [wk|] eqn:Hw; [|done].
    destruct (wpc wk) eqn:Hpc; try done.
    destruct (fpc wk) eqn:Hfpc; try done. simplify_eq.
    apply (sound_set_worker all s w wk _ Hs Hw); simpl;
      [left; congruence|done|done].
  - (* Collect *)
    destruct (workers s !! w) as [wk|] eqn:Hw; [|done].
    destruct (fpc wk) eqn:Hfpc; try done.
    destruct (returned s) eqn:Hret; simplify_eq.
    assert (Hs1 : sound all (set_worker w (set_fpc FwdRecv wk) s)).
    { apply (sound_set_worker all s w wk _ Hs Hw); simpl;
        [left; congruence|done|].
      intros Hd. exact (Forall_lookup_1 _ _ _ _ (sd_closed _ _ Hs) Hw Hd). }
    destruct Hs1 as [Hq Hp Hstop Hd Hc Ha Hr Hpool]. simpl in *.
    unfold collect. destruct err as [e|]; [|by split].
    simpl. destruct (returnErr s); split; simpl; try done.
    intros Hg. destruct (Hstop Hg); auto.
  - (* WorkerEnd *)
    destruct (gen s) eqn:Hg; [done|].
    destruct (workers s !! w) as [wk|] eqn:Hw; [|done].
    destruct (wpc wk) eqn:Hpc; try done. simplify_eq.
    apply (sound_set_worker all s w wk _ Hs Hw); simpl;
      [right; congruence|done|done].
  - (* ForwarderEnd *)
    destruct (workers s !! w) as [wk|] eqn:Hw; [|done].
    destruct (wpc wk) eqn:Hpc; try done.
    destruct (fpc wk) eqn:Hfpc; try done. simplify_eq.
    apply (sound_set_worker all s w wk _ Hs Hw); simpl;
      [left; congruence|done|].
    intros _. exact (Forall_lookup_1 _ _ _ _ (sd_closed _ _ Hs) Hw Hpc).
  - (* CloseAgg *)
    destruct (allDone (workers s)) eqn:Hall; [|done].
    destruct (aggClosed s) eqn:Hc; [done|]. simplify_eq/=.
    destruct Hs as [Hq Hp Hstop Hd Hcl Ha Hr Hpool].
    split; simpl; done.
  - (* Return *)
    destruct (aggClosed s) eqn:Hc; [|done].
    destruct (returned s) eqn:Hr; [done|]. simplify_eq/=.
    destruct Hs as [Hq Hp Hstop Hd Hcl Ha Hr' Hpool].
    split; simpl; done.
Qed.

Lemma sound_exec u infos t0 ls s :
  exec (started u infos t0) ls = Some s ->
  sound (allJobs (u_ChunkSizeBytes u) infos) s.
Proof.
  revert ls s. apply upload_exec_ind_r.
  - apply sound_started.
  - intros ls s l s' _ Hs Hstep. by eapply sound_step.
Qed.

(** X13.  In every run of [Upload] the jobs that went on the queue are
    an initial part of the jobs of the files, in the order of the files
    and, within a file, of the chunk numbers: no job is put on the queue
    twice or out of turn, and what the generator still holds is the
    rest.  The generator closes the queue before the last job only when
    the context was cancelled.  The pool keeps its 32 workers. *)
Theorem dispatched_in_order (u : filesUploader) (infos : list fileInfo)
    (t0 : Z) (ls : list label) (s : upload_state) :
  exec (started u infos t0) ls = Some s ->
  dispatched s `prefix_of` allJobs (u_ChunkSizeBytes u) infos
  /\ (forall p, gen s = Some p ->
        dispatched s ++ p = allJobs (u_ChunkSizeBytes u) infos)
  /\ (gen s = None ->
      dispatched s = allJobs (u_ChunkSizeBytes u) infos
      \/ cancelled s = true)
  /\ length (workers s) = openConnections.
Proof.
  intros Hexec.
  destruct (sound_exec _ _ _ _ _ Hexec) as [Hq Hp Hstop _ _ _ _ Hpool].
  done.
Qed.

(** *** Every result is waited for *)

(** The results a worker and its forwarder owe to the loop of
    [Upload]: one for the job the worker holds, one for the result the
    forwarder holds. *)
Definition holding (w : worker) : nat :=
  (match wpc w with WUpload _ _ | WReport _ => 1 | _ => 0 end
   + match fpc w with FwdSend _ => 1 | _ => 0 end)%nat.

(** The number of results the loop of [Upload] received in a run. *)
Definition collects (l : label) : nat :=
  match l with Collect _ => 1 | _ => 0 end.

Definition collected (ls : list label) : nat := sum_list (collects <$> ls).

Lemma collected_snoc ls l : collected (ls ++ [l]) = (collected ls + collects l)%nat.
Proof.
  unfold collected. induction ls as [|l0 ls IH]; csimpl; [lia|].
  rewrite IH. lia.
Qed.

Lemma sum_list_insert {A} (f : A -> nat) (ws : list A) i w w' :
  ws !! i = Some w ->
  (sum_list (f <$> <[i := w']> ws) + f w = sum_list (f <$> ws) + f w')%nat.
Proof.
  revert i. induction ws as [|x ws IH]; intros [|i] Hi; simplify_eq/=;
    csimpl.
  - lia.
  - specialize (IH i Hi). lia.
Qed.

Lemma balance_step n s l s' :
  (n + sum_list (holding <$> workers s) = length (dispatched s))%nat ->
  step s l = Some s' ->
  (n + collects l + sum_list (holding <$> workers s')
   = length (dispatched s'))%nat.
Proof.
  intros Hbal Hstep. destruct l; simpl in Hstep; simpl collects.
  - (* Dispatch *)
    destruct (gen s) as [[|job rest]|] eqn:Hg; try done.
    destruct (workers s !! w) as [wk|] eqn:Hw; [|done].
    destruct (wpc wk) eqn:Hpc; try done. simplify_eq. simpl.
    pose proof (sum_list_insert holding (workers s) w wk
                  (set_wpc (WUpload job (now s)) wk) Hw) as Hsum.
    unfold holding in Hsum at 2 4. simpl in Hsum. rewrite Hpc in Hsum.
    rewrite length_app. simpl. lia.
  - (* GenStop *)
    destruct (gen s) as [[|job rest]|]; try done.
    destruct (cancelled s); simplify_eq. simpl. lia.
  - (* GenEnd *)
    destruct (gen s) as [[|job rest]|]; try done. simplify_eq. simpl. lia.
  - (* Attempt *)
    destruct (workers s !! w) as [wk|] eqn:Hw; [|done].
    destruct (wpc wk) as [|job notBefore| |] eqn:Hpc; try done.
    destruct (decide (now s <= t /\ notBefore <= t)); [|done].
    destruct (upload fs urlOk (cancelled s) r job) as [err sent0].
    simplify_eq. simpl.
    pose proof (sum_list_insert holding (workers s) w wk
                  (afterAttempt t random job err wk) Hw) as Hsum.
    assert (Hsame : holding (afterAttempt t random job err wk) = holding wk).
    { unfold holding, afterAttempt. rewrite Hpc.
      destruct err as [e|]; simpl; [|done].
      destruct (Backoff.NextBackOff t random (wb wk)) as [d b].
      by destruct (decide (d = Backoff.Stop)). }
    lia.
  - (* Report *)
    destruct (workers s !! w) as [wk|] eqn:Hw; [|done].
    destruct (wpc wk) eqn:Hpc; try done.
    destruct (fpc wk) eqn:Hfpc; try done. simplify_eq. simpl.
    pose proof (sum_list_insert holding (workers s) w wk
                  (set_fpc (FwdSend err) (set_wpc WRecv wk)) Hw) as Hsum.
    unfold holding in Hsum at 2 4. simpl in Hsum.
    rewrite Hpc, Hfpc in Hsum. lia.
  - (* Collect *)
    destruct (workers s !! w) as [wk|] eqn:Hw; [|done].
    destruct (fpc wk) eqn:Hfpc; try done.
    destruct (returned s) eqn:Hret; simplify_eq.
    pose proof (sum_list_insert holding (workers s) w wk
                  (set_fpc FwdRecv wk) Hw) as Hsum.
    unfold holding in Hsum at 2 4. simpl in Hsum. rewrite Hfpc in Hsum.
    assert (Hsame : workers (collect err (set_worker w (set_fpc FwdRecv wk) s))
                    = <[w := set_fpc FwdRecv wk]> (workers s)
                    /\ dispatched (collect err
                         (set_worker w (set_fpc FwdRecv wk) s))
                       = dispatched s).
    { unfold collect. destruct err as [e|]; [|done]. simpl.
      by destruct (returnErr s). }
    destruct Hsame as [-> ->]. lia.
  - (* WorkerEnd *)
    destruct (gen s) eqn:Hg; [done|].
    destruct (workers s !! w) as [wk|] eqn:Hw; [|done].
    destruct (wpc wk) eqn:Hpc; try done. simplify_eq. simpl.
    pose proof (sum_list_insert holding (workers s) w wk
                  (set_wpc WDone wk) Hw) as Hsum.
    unfold holding in Hsum at 2 4. simpl in Hsum. rewrite Hpc in Hsum.
    lia.
  - (* ForwarderEnd *)
    destruct (workers s !! w) as [wk|] eqn:Hw; [|done].
    destruct (wpc wk) eqn:Hpc; try done.
    destruct (fpc wk) eqn:Hfpc; try done. simplify_eq. simpl.
    pose proof (sum_list_insert holding (workers s) w wk
                  (set_fpc FwdDone wk) Hw) as Hsum.
    unfold holding in Hsum at 2 4. simpl in Hsum.
    rewrite Hpc, Hfpc in Hsum. lia.
  - (* CloseAgg *)
    destruct (allDone (workers s) && negb (aggClosed s)); simplify_eq.
    simpl. lia.
  - (* Return *)
    destruct (aggClosed s && negb (returned s)); simplify_eq. simpl. lia.
Qed.

Lemma balance_exec u infos t0 ls s :
  exec (started u infos t0) ls = Some s ->
  (collected ls + sum_list (holding <$> workers s)
   = length (dispatched s))%nat.
Proof.
  revert ls s. apply upload_exec_ind_r.
  - cbn -[replicate]. rewrite sum_list_fmap_same with (n := 0%nat); [lia|].
    by apply Forall_replicate.
  - intros ls s l s' _ Hbal Hstep. rewrite collected_snoc.
    by apply (balance_step _ s).
Qed.

(** Once the call has returned, everything has ended. *)
Lemma sound_returned all s :
  sound all s -> returned s = true ->
  gen s = None
  /\ Forall (fun w => wpc w = WDone /\ fpc w = FwdDone) (workers s).
Proof.
  intros Hs Hret.
  pose proof (sd_agg _ _ Hs (sd_ret _ _ Hs Hret)) as Hall.
  apply allDone_Forall in Hall.
  assert (Hboth : Forall (fun w => wpc w = WDone /\ fpc w = FwdDone)
                    (workers s)).
  { pose proof (sd_done _ _ Hs) as Hd.
    rewrite Forall_forall in Hall, Hd. apply Forall_forall.
    intros w Hw. split; [apply Hd|]; auto. }
  split; [|done].
  pose proof (sd_pool _ _ Hs) as Hpool.
  destruct (workers s) as [|w ws] eqn:Hwk; [done|].
  apply Forall_cons in Hboth as [[Hd _] _].
  pose proof (sd_closed _ _ Hs) as Hc. rewrite Hwk in Hc.
  apply Forall_cons in Hc as [Hc _]. auto.
Qed.

(** X14.  [Upload] waits for every result.  Throughout a run, the
    results its loop has received and the results the workers and their
    forwarders still owe add up to the number of jobs put on the queue;
    and when [Upload] has returned, the queue is closed, every worker and
    every forwarder has ended, and the loop has received exactly one
    result per job that was put on the queue. *)
Theorem Upload_waits_for_every_result (u : filesUploader)
    (infos : list fileInfo) (t0 : Z) (ls : list label) (s : upload_state) :
  exec (started u infos t0) ls = Some s ->
  (collected ls + sum_list (holding <$> workers s)
   = length (dispatched s))%nat
  /\ (returned s = true ->
      collected ls = length (dispatched s)
      /\ gen s = None
      /\ Forall (fun w => wpc w = WDone /\ fpc w = FwdDone) (workers s)).
Proof.
  intros Hexec. pose proof (balance_exec _ _ _ _ _ Hexec) as Hbal.
  split; [exact Hbal|]. intros Hret.
  destruct (sound_returned _ _ (sound_exec _ _ _ _ _ Hexec) Hret)
    as [Hg Hws].
  split; [|done].
  rewrite sum_list_fmap_same with (n := 0%nat) in Hbal; [lia|].
  eapply Forall_impl; [exact Hws|]. intros w [Hw Hf].
  unfold holding. by rewrite Hw, Hf.
Qed.

(** *** The first error, again *)

Lemma step_dumpOut s l s' :
  step s l = Some s' ->
  dumpOut s `prefix_of` dumpOut s'
  /\ (cancelled s = true -> cancelled s' = true).
Proof.
  intros Hstep. destruct l; simpl in Hstep;
    repeat (case_match; simplify_eq; simpl in *; try done);
    unfold collect; repeat (case_match; simpl; try done);
    split; try done; by apply prefix_app_r.
Qed.

Lemma exec_dumpOut ls : forall s s',
  exec s ls = Some s' ->
  dumpOut s `prefix_of` dumpOut s'
  /\ (cancelled s = true -> cancelled s' = true).
Proof.
  induction ls as [|l ls IH]; simpl; intros s s' Hexec.
  - by simplify_eq.
  - destruct (step s l) as [s1|] eqn:Hstep; [|done].
    destruct (step_dumpOut _ _ _ Hstep) as [H1 H2].
    destruct (IH _ _ Hexec) as [H3 H4].
    split; [by etrans|auto].
Qed.

(** X15.  Only the first error counts.  In every run of [Upload] the
    error it will return is the first of the errors its loop has
    received and printed, the context is cancelled exactly when there is
    one, and nothing that happens later changes either: the errors
    printed only grow, the error to return stays the same and the
    context stays cancelled. *)
Theorem Upload_keeps_first_error (u : filesUploader) (infos : list fileInfo)
    (t0 : Z) (ls ls' : list label) (s s' : upload_state) :
  exec (started u infos t0) ls = Some s ->
  exec s ls' = Some s' ->
  returnErr s = head (dumpOut s)
  /\ cancelled s = bool_decide (returnErr s <> None)
  /\ dumpOut s `prefix_of` dumpOut s'
  /\ (forall e, returnErr s = Some e -> returnErr s' = Some e)
  /\ (cancelled s = true -> cancelled s' = true).
Proof.
  intros Hexec Hexec'.
  assert (Hfe : first_error s).
  { eapply first_error_exec; [|exact Hexec]. split; done. }
  assert (Hfe' : first_error s') by (by eapply first_error_exec).
  destruct (exec_dumpOut _ _ _ Hexec') as [[k Hk] Hcan].
  split; [apply (fe_first s Hfe)|]. split; [apply (fe_cancel s Hfe)|].
  split; [by exists k|]. split; [|exact Hcan].
  intros e He. rewrite (fe_first s' Hfe'), Hk.
  rewrite (fe_first s Hfe) in He. by destruct (dumpOut s).
Qed.

(** *** A [nil] error *)





















(** *** Empty files *)

Lemma totalChunks_empty C :
  0 < C <= max_int -> totalChunks 0 C = Some 0.
Proof.
  intros HC.
  destruct (totalChunks_ceil 0 C ltac:(lia) ltac:(lia) ltac:(lia))
    as (k & Hk & Hceil).
  rewrite Hk. f_equal. nia.
Qed.

Lemma allJobs_empty_files C names :
  0 < C <= max_int ->
  Forall (fun name => fs !! name = Some []) names ->
  allJobs C (infoOf C <$> names) = [].
Proof.
  intros HC Hnames. unfold allJobs.
  induction Hnames as [|name names Hname _ IH]; [done|].
  csimpl. rewrite IH, app_nil_r.
  unfold jobsOf, infoOf. simpl. rewrite Hname. simpl.
  by rewrite totalChunks_empty.
Qed.

(** X17.  A file of zero bytes has no chunk.  [UploadFiles] with a
    chunk size within [int64] and files that are all empty puts no job on
    the queue and sends nothing, whatever the schedule, and returns
    [nil]: the server never hears of the files. *)
Theorem UploadFiles_empty_files (c : ServiceOptions)
    (host uploadDir : string) (filenames : list string) (t0 : Z) :
  0 < opt_ChunkSizeBytes c <= max_int ->
  Forall (fun name => fs !! name = Some []) filenames ->
  (forall ls out,
     UploadFiles c host uploadDir filenames t0 ls = Some out ->
     result out = Done None /\ sent out = [] /\ jobs out = [])
  /\ (exists ls out,
        UploadFiles c host uploadDir filenames t0 ls = Some out).
Proof.
  intros HC Hnames.
  set (u := uploaderOf c host uploadDir filenames).
  destruct (quiet_started u t0) as [Hq0 Hrank0].
  assert (Hfind : list_find (fun name => fs !! name = None) filenames = None).
  { apply list_find_None. eapply Forall_impl; [exact Hnames|].
    intros name Hname. by rewrite Hname. }
  assert (Hrun : forall ls,
            UploadFiles c host uploadDir filenames t0 ls =
            match exec (started u [] t0) ls with
            | Some s =>
                if returned s then
                  Some {| result := Done (returnErr s); sent := requests s;
                          jobs := dispatched s |}
                else None
            | None => None
            end).
  { intros ls. unfold UploadFiles. rewrite decide_False by lia.
    unfold Upload. fold u.
    change (u_ChunkSizeBytes u) with (opt_ChunkSizeBytes c).
    change (Filenames u) with filenames.
    rewrite (getFilesInfos_run (opt_ChunkSizeBytes c) ltac:(lia)), Hfind.
    simpl.
    replace (started u (infoOf (opt_ChunkSizeBytes c) <$> filenames) t0)
      with (started u [] t0); [done|].
    unfold started.
    change (u_ChunkSizeBytes u) with (opt_ChunkSizeBytes c).
    by rewrite (allJobs_empty_files _ _ HC Hnames). }
  split.
  - intros ls out. rewrite Hrun.
    destruct (exec (started u [] t0) ls) as [s|] eqn:Hexec; [|done].
    destruct (quiet_exec _ _ _ Hq0 Hexec) as [Hq _].
    destruct (returned s); [|done]. intros [= <-]. simpl.
    by rewrite (quiet_err s Hq), (quiet_requests s Hq),
      (quiet_dispatched s Hq).
  - destruct (quiet_completes _ _ Hq0 (Nat.le_refl _))
      as (ls & s & Hexec & Hret).
    exists ls. rewrite Hrun, Hexec, Hret. eauto.
Qed.

(** *** No deadlock; the goroutines left behind *)

(** A worker and its forwarder have both ended. *)
Definition ended (w : worker) : bool :=
  match wpc w, fpc w with
  | WDone, FwdDone => true
  | _, _ => false
  end.

Lemma sound_progress all s :
  sound all s -> returned s = false -> exists l, is_Some (step s l).
Proof.
  intros Hs Hret.
  destruct (list_find (fun w => ended w = false) (workers s))
    as [[i w]|] eqn:Hfind.
  - apply list_find_Some in Hfind as (Hi & Hw & _).
    pose proof (Forall_lookup_1 _ _ _ _ (sd_done _ _ Hs) Hi) as Hd.
    unfold ended in Hw.
    destruct (fpc w) as [|err|] eqn:Hf.
    + destruct (wpc w) as [|job notBefore|err|] eqn:Hp.
      * destruct (gen s) as [[|job rest]|] eqn:Hg.
        -- exists GenEnd. simpl. rewrite Hg. eauto.
        -- exists (Dispatch i). simpl. rewrite Hg, Hi, Hp. eauto.
        -- exists (WorkerEnd i). simpl. rewrite Hg, Hi, Hp. eauto.
      * exists (Attempt i (Z.max (now s) notBefore) NoAnswer 0%float).
        simpl. rewrite Hi, Hp. rewrite decide_True by lia.
        destruct (upload fs urlOk (cancelled s) NoAnswer job). eauto.
      * exists (Report i). simpl. rewrite Hi, Hp, Hf. eauto.
      * exists (ForwarderEnd i). simpl. rewrite Hi, Hp, Hf. eauto.
    + exists (Collect i). simpl. rewrite Hi, Hf, Hret. eauto.
    + simpl in Hd. rewrite (Hd Hf) in Hw. done.
  - apply list_find_None in Hfind.
    assert (Hall : allDone (workers s) = true).
    { apply allDone_Forall. eapply Forall_impl; [exact Hfind|].
      intros w Hw. simpl in Hw. unfold ended in Hw.
      destruct (wpc w), (fpc w); done. }
    destruct (aggClosed s) eqn:Hc.
    + exists Return. simpl. rewrite Hc, Hret. eauto.
    + exists CloseAgg. simpl. rewrite Hall, Hc. eauto.
Qed.

Lemma sound_terminal all s l :
  sound all s -> returned s = true -> step s l = None.
Proof.
  intros Hs Hret.
  destruct (sound_returned _ _ Hs Hret) as [Hg Hws].
  pose proof (sd_ret _ _ Hs Hret) as Hagg.
  assert (Hw : forall i w, workers s !! i = Some w ->
                 wpc w = WDone /\ fpc w = FwdDone).
  { intros i w Hi. exact (Forall_lookup_1 _ _ _ _ Hws Hi). }
  assert (Hworker : forall i,
            match workers s !! i with
            | Some w => wpc w = WDone /\ fpc w = FwdDone
            | None => True
            end).
  { intros i. destruct (workers s !! i) as [w|] eqn:Hi; [|done].
    by apply (Hw i). }
  destruct l; simpl; rewrite ?Hg, ?Hagg, ?Hret, ?andb_false_r; try done;
    specialize (Hworker w); destruct (workers s !! w) as [wk|]; try done;
    destruct Hworker as [Hp Hf]; rewrite ?Hp, ?Hf; done.
Qed.

(** The calls of [upload] in a run. *)
Fixpoint attempted (ls : list label) : nat :=
  match ls with
  | [] => 0
  | Attempt _ _ _ _ :: ls => S (attempted ls)
  | _ :: ls => attempted ls
  end.

Lemma attempted_app ls1 ls2 :
  attempted (ls1 ++ ls2) = (attempted ls1 + attempted ls2)%nat.
Proof.
  induction ls1 as [|l ls1 IH]; [done|]. destruct l; simpl; by rewrite ?IH.
Qed.

(** Only a call of [upload] with an endpoint that is refused adds a
    blocked writer, and nothing ever takes one away. *)
Lemma step_blockedWriters s l s' :
  step s l = Some s' ->
  blockedWriters s' =
  (blockedWriters s + if urlOk then 0 else attempted [l])%nat.
Proof.
  intros Hstep.
  assert (Hzero : (blockedWriters s + if urlOk then 0 else 0)%nat
                  = blockedWriters s) by (destruct urlOk; lia).
  destruct l; simpl in Hstep; cbn [attempted]; rewrite ?Hzero;
    unfold collect, writerBlocked in Hstep;
    repeat (case_match; simplify_eq; simpl; try done); lia.
Qed.

Lemma exec_blockedWriters u infos t0 ls s :
  exec (started u infos t0) ls = Some s ->
  blockedWriters s = if urlOk then 0%nat else attempted ls.
Proof.
  revert ls s.
  apply (upload_exec_ind_r
           (fun ls s => blockedWriters s = if urlOk then 0%nat else attempted ls)).
  - simpl. by destruct urlOk.
  - intros ls s l s' _ IH Hstep.
    rewrite (step_blockedWriters _ _ _ Hstep), IH, attempted_app.
    destruct urlOk; lia.
Qed.

(** X18.  [Upload] cannot deadlock, and what it leaves behind is known.
    In every state a run can reach before [Upload] has returned, some
    goroutine can move: the generator, a worker, a forwarder, the closer
    of the aggregate channel, or the loop of [Upload] itself; the upload
    a worker is in can always come back.  Once [Upload] has returned
    nothing can move any more: the generator, the 32 workers and their
    forwarders have all ended.  The goroutines that write the bodies are
    another matter: with an endpoint that [http.NewRequestWithContext]
    accepts none of them stays blocked, but with one that it refuses
    every attempt leaves its writer blocked on a pipe nobody reads, and
    these outlive [Upload]. *)
Theorem Upload_never_stuck (u : filesUploader) (infos : list fileInfo)
    (t0 : Z) (ls : list label) (s : upload_state) :
  exec (started u infos t0) ls = Some s ->
  (returned s = false -> exists l, is_Some (step s l))
  /\ (returned s = true ->
      (forall l, step s l = None)
      /\ gen s = None
      /\ Forall (fun w => wpc w = WDone /\ fpc w = FwdDone) (workers s))
  /\ blockedWriters s = (if urlOk then 0%nat else attempted ls).
Proof.
  intros Hexec. pose proof (sound_exec _ _ _ _ _ Hexec) as Hs.
  split; [by apply (sound_progress _ _ Hs)|].
  split; [|by eapply exec_blockedWriters].
  intros Hret. split; [intros l; by eapply sound_terminal|].
  by apply (sound_returned _ _ Hs).
Qed.

End Upload.

(** *** Concrete calls *)

Definition options (chunkSizeBytes : Z) : ServiceOptions :=
  {| RootEndpoint := "http://localhost:8080/v1";
     opt_ChunkSizeBytes := chunkSizeBytes;
     ChunkUploadBackOffOpts := DefaultChunkUploadBackOffOpts |}.

Lemma UploadFiles_zero_chunk_size_witness :
  exists out,
    UploadFiles disk true (options 0) "host" "dir" ["/tmp/disk.img"] 0
      [Dispatch 0] = Some out
    /\ result out = Panic "ChunkSizeBytes value cannot be zero"
    /\ sent out = [] /\ jobs out = [].
Proof.
  exact (UploadFiles_zero_chunk_size disk true (options 0) "host" "dir"
           ["/tmp/disk.img"] 0 [Dispatch 0] eq_refl).
Defined.

Lemma UploadFiles_no_files_witness :
  exists ls out,
    UploadFiles disk true (options 300) "host" "dir" [] 0 ls = Some out
    /\ result out = Done None /\ sent out = [] /\ jobs out = [].
Proof.
  destruct (UploadFiles_no_files disk true (options 300) "host" "dir" 0
              ltac:(discriminate)) as (Hall & (ls & out & Hrun) & _).
  exists ls, out. split; [exact Hrun|]. exact (Hall ls out Hrun).
Defined.

(** The file of 1000 bytes uploaded in chunks of 300 bytes, with a retry
    budget of one second. *)
Definition tight : BackOffOpts :=
  {| InitialDuration := 500 * Millisecond;
     RandomizationFactor := 0.5;
     Multiplier := 1.5;
     MaxElapsedTime := 1 * Second |}.

Definition fourChunks : upload_state :=
  started {| EndpointURL := "http://localhost:8080/v1/hosts/h/userartifacts/d";
             Filenames := ["/tmp/disk.img"];
             u_ChunkSizeBytes := 300;
             u_BackOffOpts := tight |}
          [{| Name := "/tmp/disk.img"; info_TotalChunks := 4 |}] 0.

Definition serverError : reply := Answer 500 "500 Internal Server Error".
Definition unavailable : reply := Answer 503 "503 Service Unavailable".
Definition ok : reply := Answer 200 "200 OK".

(** Workers 0 and 1 take chunks 1 and 2.  Chunk 2 is uploaded in
    100ms.  The upload of chunk 1 is answered 500 after 600ms, which
    leaves too little of the budget for a retry; the failure reaches
    Upload's loop, which cancels the context. *)
Definition oneFailsOneSucceeds : list label :=
  [Dispatch 0; Dispatch 1;
   Attempt 1 (100 * Millisecond) ok 0.5; Report 1; Collect 1;
   Attempt 0 (600 * Millisecond) serverError 0.5; Report 0; Collect 0].

(** The generator's select then sends chunk 3 to worker 1, whose upload
    fails on the cancelled context; at its next select the generator
    stops, and everything winds down. *)
Definition windDown : list label :=
  [Dispatch 1;
   Attempt 1 (700 * Millisecond) ok 0.5; Report 1; Collect 1; GenStop]
  ++ (WorkerEnd <$> seq 0 openConnections)
  ++ (ForwarderEnd <$> seq 0 openConnections)
  ++ [CloseAgg; Return].

(** C3, the code at a failing schedule.  Chunk 1 of 4 fails for good
    while chunk 2 succeeds.  Upload returns the first error it received
    and only prints the later one, as the claim says.  But once the
    first error has cancelled the context, the select of [sendJobs] finds
    both of its cases ready, the cancellation and an idle worker waiting
    for a job: the generator may stop there ([GenStop]), and it may as
    well put chunk 3 on the queue ([Dispatch 1]), which is what happens
    here. *)
Lemma sendJobs_enqueues_after_cancel :
  exists s1 s2,
    exec disk true fourChunks oneFailsOneSucceeds = Some s1
    /\ cancelled s1 = true
    /\ dispatched s1 = [chunkOf 1; chunkOf 2]
    /\ is_Some (step disk true s1 GenStop)
    /\ is_Some (step disk true s1 (Dispatch 1))
    /\ exec disk true s1 windDown = Some s2
    /\ returned s2 = true
    /\ returnErr s2 =
       Some (ErrStatus "500 Internal Server Error" "disk.img" 1 4)
    /\ dumpOut s2 =
       [ErrStatus "500 Internal Server Error" "disk.img" 1 4; ErrCanceled]
    /\ dispatched s2 = [chunkOf 1; chunkOf 2; chunkOf 3].
Proof.
  destruct (exec disk true fourChunks oneFailsOneSucceeds) as [s1|] eqn:H1;
    [|vm_compute in H1; discriminate].
  destruct (exec disk true s1 windDown) as [s2|] eqn:H2;
    [|vm_compute in H1; simplify_eq; vm_compute in H2; discriminate].
  exists s1, s2.
  vm_compute in H1. simplify_eq. vm_compute in H2. simplify_eq.
  repeat split; try reflexivity; vm_compute; eauto.
Qed.

(** Worker 0 takes chunk 1 and then chunk 2, whose upload fails 100ms
    after it was taken; the two schedules differ only in what became of
    chunk 1. *)
Definition secondChunkAfter (first : reply) : list label :=
  [Dispatch 0; Attempt 0 (600 * Millisecond) first 0.5; Report 0;
   Dispatch 0; Attempt 0 (700 * Millisecond) unavailable 0.5].

Definition worker0 (ls : list label) : option worker_pc :=
  s ← exec disk true fourChunks ls; w ← workers s !! 0%nat; Some (wpc w).

(** C4, the code at a failing schedule.  The worker's backoff is reset
    when a chunk succeeds and at no other time, so the budget of a chunk
    starts where the previous chunk left it: after a chunk 1 that
    succeeded, the failure of chunk 2 is retried half a second later;
    after a chunk 1 that failed for good, the same failure of chunk 2, at
    the same time, is final at once, though chunk 2 has used 100ms of its
    second. *)
Lemma retry_budget_carries_over :
  worker0 (secondChunkAfter ok) =
    Some (WUpload (chunkOf 2) (1200 * Millisecond))
  /\ worker0 (secondChunkAfter serverError) =
    Some (WReport (Some (ErrStatus "503 Service Unavailable" "disk.img" 2 4))).
Proof. split; vm_compute; reflexivity. Qed.


(** *** More concrete calls *)

Definition diskUploader : filesUploader :=
  {| EndpointURL := "http://localhost:8080/v1/hosts/h/userartifacts/d";
     Filenames := ["/tmp/disk.img"];
     u_ChunkSizeBytes := 300;
     u_BackOffOpts := tight |}.

Definition diskInfo : fileInfo :=
  {| Name := "/tmp/disk.img"; info_TotalChunks := 4 |}.

Lemma chunks_reassemble_witness :
  exists forms,
    Forall2 (fun job form => writeMultipartRequest disk job = inr form)
      [chunkOf 1; chunkOf 2; chunkOf 3; chunkOf 4] forms
    /\ concat (file_data <$> forms) = thousand.
Proof.
  destruct (chunks_reassemble disk "/tmp/disk.img" thousand 300 eq_refl
              eq_refl ltac:(vm_compute; discriminate))
    as (k & forms & Hinfos & Hforms & Hconcat & _).
  assert (k = 4) as -> by (vm_compute in Hinfos; by simplify_eq).
  exists forms. split; [exact Hforms|exact Hconcat].
Defined.

(** The second of three files is missing. *)
Definition threeFiles : filesUploader :=
  {| EndpointURL := "http://localhost:8080/v1/hosts/h/userartifacts/d";
     Filenames := ["/tmp/disk.img"; "/tmp/boot.img"; "/tmp/vendor.img"];
     u_ChunkSizeBytes := 300;
     u_BackOffOpts := tight |}.

Lemma Upload_missing_file_witness :
  Upload disk true threeFiles 0 [Dispatch 0] =
  Some {| result := Done (Some (ErrStat "/tmp/boot.img")); sent := [];
          jobs := [] |}.
Proof.
  pose proof (Upload_missing_file disk true threeFiles 0 [Dispatch 0]
                ltac:(discriminate)) as Hm.
  destruct (list_find (fun name => disk !! name = None) (Filenames threeFiles))
    as [[i name]|] eqn:Hfind; [|vm_compute in Hfind; discriminate].
  vm_compute in Hfind. simplify_eq. exact (proj2 Hm).
Defined.

Lemma dispatched_in_order_witness :
  exists s,
    exec disk true (started diskUploader [diskInfo] 0) oneFailsOneSucceeds
      = Some s
    /\ dispatched s ++ [chunkOf 3; chunkOf 4] = allJobs 300 [diskInfo].
Proof.
  destruct (exec disk true (started diskUploader [diskInfo] 0)
              oneFailsOneSucceeds) as [s|] eqn:Hs;
    [|vm_compute in Hs; discriminate].
  exists s. split; [reflexivity|].
  destruct (dispatched_in_order disk true diskUploader [diskInfo] 0
              oneFailsOneSucceeds s Hs) as (_ & Hq & _).
  apply Hq.
  assert (Hgen : gen <$> exec disk true (started diskUploader [diskInfo] 0)
                           oneFailsOneSucceeds
                 = Some (Some [chunkOf 3; chunkOf 4]))
    by (vm_compute; reflexivity).
  rewrite Hs in Hgen. by injection Hgen.
Defined.

Lemma Upload_waits_for_every_result_witness :
  exists s,
    exec disk true (started diskUploader [diskInfo] 0)
      (oneFailsOneSucceeds ++ windDown) = Some s
    /\ returned s = true
    /\ collected (oneFailsOneSucceeds ++ windDown) = length (dispatched s).
Proof.
  destruct (exec disk true (started diskUploader [diskInfo] 0)
              (oneFailsOneSucceeds ++ windDown)) as [s|] eqn:Hs;
    [|vm_compute in Hs; discriminate].
  exists s. split; [reflexivity|].
  destruct (Upload_waits_for_every_result disk true diskUploader [diskInfo] 0
              (oneFailsOneSucceeds ++ windDown) s Hs) as [_ Hret].
  assert (Hr : returned <$> exec disk true
                              (started diskUploader [diskInfo] 0)
                              (oneFailsOneSucceeds ++ windDown)
               = Some true)
    by (vm_compute; reflexivity).
  rewrite Hs in Hr. injection Hr as Hr.
  split; [exact Hr|exact (proj1 (Hret Hr))].
Defined.

Lemma Upload_keeps_first_error_witness :
  exists s s',
    exec disk true (started diskUploader [diskInfo] 0) oneFailsOneSucceeds
      = Some s
    /\ exec disk true s windDown = Some s'
    /\ cancelled s = true
    /\ returnErr s' =
       Some (ErrStatus "500 Internal Server Error" "disk.img" 1 4).
Proof.
  destruct (exec disk true (started diskUploader [diskInfo] 0)
              oneFailsOneSucceeds) as [s|] eqn:Hs;
    [|vm_compute in Hs; discriminate].
  assert (Hboth : exec disk true (started diskUploader [diskInfo] 0)
                    (oneFailsOneSucceeds ++ windDown) <> None)
    by (vm_compute; discriminate).
  destruct (exec disk true s windDown) as [s'|] eqn:Hs'.
  2:{ destruct Hboth. clear -Hs Hs'.
      revert Hs Hs'. generalize (started diskUploader [diskInfo] 0).
      generalize windDown. induction oneFailsOneSucceeds as [|l ls IH];
        intros ls' s0; simpl.
      - intros [= ->]. done.
      - destruct (step disk true s0 l); [apply IH|done]. }
  exists s, s'. split; [reflexivity|]. split; [exact Hs'|].
  destruct (Upload_keeps_first_error disk true diskUploader [diskInfo] 0
              oneFailsOneSucceeds windDown s s' Hs Hs')
    as (_ & _ & _ & Hkeep & _).
  assert (Herr : returnErr <$> exec disk true
                                 (started diskUploader [diskInfo] 0)
                                 oneFailsOneSucceeds
                 = Some (Some (ErrStatus "500 Internal Server Error"
                                 "disk.img" 1 4)))
    by (vm_compute; reflexivity).
  assert (Hcan : cancelled <$> exec disk true
                                 (started diskUploader [diskInfo] 0)
                                 oneFailsOneSucceeds
                 = Some true)
    by (vm_compute; reflexivity).
  rewrite Hs in Herr, Hcan. injection Herr as Herr. injection Hcan as Hcan.
  split; [exact Hcan|]. exact (Hkeep _ Herr).
Defined.

(** The four chunks go to four workers and are all answered 200; then
    everything winds down. *)
Definition allGoThrough : list label :=
  [Dispatch 0; Dispatch 1; Dispatch 2; Dispatch 3;
   Attempt 0 (100 * Millisecond) ok 0.5;
   Attempt 1 (100 * Millisecond) ok 0.5;
   Attempt 2 (100 * Millisecond) ok 0.5;
   Attempt 3 (100 * Millisecond) ok 0.5;
   Report 0; Collect 0; Report 1; Collect 1;
   Report 2; Collect 2; Report 3; Collect 3; GenEnd]
  ++ (WorkerEnd <$> seq 0 openConnections)
  ++ (ForwarderEnd <$> seq 0 openConnections)
  ++ [CloseAgg; Return].


(** The same upload to an endpoint that [http.NewRequestWithContext]
    refuses.  The first attempt at chunk 1 fails at once and is retried
    after the pause of 500ms; the second fails as well and uses up the
    budget; the error cancels the context and everything winds down.
    Each of the two attempts has left its writer blocked. *)
Definition refusedUploader : filesUploader :=
  {| EndpointURL := "http://%zz/hosts/h/userartifacts/d";
     Filenames := ["/tmp/disk.img"];
     u_ChunkSizeBytes := 300;
     u_BackOffOpts := tight |}.

Definition refused : list label :=
  [Dispatch 0; Attempt 0 0 NoAnswer 0.5;
   Attempt 0 (500 * Millisecond) NoAnswer 0.5; Report 0; Collect 0; GenStop]
  ++ (WorkerEnd <$> seq 0 openConnections)
  ++ (ForwarderEnd <$> seq 0 openConnections)
  ++ [CloseAgg; Return].

Lemma Upload_never_stuck_witness :
  (exists s,
     exec disk true (started diskUploader [diskInfo] 0) allGoThrough = Some s
     /\ returned s = true
     /\ (forall l, step disk true s l = None)
     /\ blockedWriters s = 0%nat)
  /\ (exists s,
        exec disk false (started refusedUploader [diskInfo] 0) refused = Some s
        /\ returned s = true
        /\ returnErr s = Some ErrNewRequest
        /\ (forall l, step disk false s l = None)
        /\ blockedWriters s = 2%nat).
Proof.
  split.
  - destruct (exec disk true (started diskUploader [diskInfo] 0) allGoThrough)
      as [s|] eqn:Hs; [|vm_compute in Hs; discriminate].
    exists s. split; [reflexivity|].
    assert (Hr : returned <$> exec disk true
                                (started diskUploader [diskInfo] 0)
                                allGoThrough
                 = Some true)
      by (vm_compute; reflexivity).
    rewrite Hs in Hr. injection Hr as Hr. split; [exact Hr|].
    destruct (Upload_never_stuck disk true diskUploader [diskInfo] 0
                allGoThrough s Hs) as (_ & Hend & Hblocked).
    split; [exact (proj1 (Hend Hr))|exact Hblocked].
  - destruct (exec disk false (started refusedUploader [diskInfo] 0) refused)
      as [s|] eqn:Hs; [|vm_compute in Hs; discriminate].
    exists s. split; [reflexivity|].
    assert (Hr : returned <$> exec disk false
                                (started refusedUploader [diskInfo] 0) refused
                 = Some true)
      by (vm_compute; reflexivity).
    assert (He : returnErr <$> exec disk false
                                 (started refusedUploader [diskInfo] 0) refused
                 = Some (Some ErrNewRequest))
      by (vm_compute; reflexivity).
    rewrite Hs in Hr, He. injection Hr as Hr. injection He as He.
    split; [exact Hr|]. split; [exact He|].
    destruct (Upload_never_stuck disk false refusedUploader [diskInfo] 0
                refused s Hs) as (_ & Hend & Hblocked).
    split; [exact (proj1 (Hend Hr))|exact Hblocked].
Defined.

(** An empty file beside the disk image. *)
Definition withEmpty : filesystem := <["/tmp/empty" := []]> disk.

Lemma UploadFiles_empty_files_witness :
  exists ls out,
    UploadFiles withEmpty true (options 300) "host" "dir" ["/tmp/empty"] 0 ls
      = Some out
    /\ result out = Done None /\ sent out = [] /\ jobs out = [].
Proof.
  destruct (UploadFiles_empty_files withEmpty true (options 300) "host" "dir"
              ["/tmp/empty"] 0 ltac:(split; [reflexivity|discriminate])
              ltac:(repeat constructor))
    as (Hall & (ls & out & Hrun)).
  exists ls, out. split; [exact Hrun|]. exact (Hall ls out Hrun).
Defined.

End Uploader.

(** ** The operation waiter *)

Module Waiter.

(** The operation handle, with the fields the tests of [WaitOperation]
    set on [compute.Operation].  [Error] says whether the server declared
    an error; a status code the server left out reads as 0. *)
Record Operation := {
  Name : string;
  OperationType : string;
  TargetLink : string;
  Status : string;
  Error : bool;
  HttpErrorMessage : string;
  HttpErrorStatusCode : Z
}.

Record AppError := {
  Msg : string;
  StatusCode : Z
}.

Definition StatusServiceUnavailable : Z := 503.
Definition StatusInternalServerError : Z := 500.

(** The last path segment of a link: what follows its last slash. *)
Definition lastSegment (link : string) : string :=
  String.string_of_list_ascii
    (rev (Uploader.untilSlash (rev (String.list_ascii_of_string link)))).

(** Modelled from the spec: the resource identifier is parsed from the
    last path segment of the target link; a link whose last segment is
    empty names nothing. *)
Definition resourceId (link : string) : option string :=
  let id := lastSegment link in
  if decide (id = "") then None else Some id.

Section WaitOperation.

Context {resource : Type}.
(** [fetchResource]: the domain layer's lookup of a resource by its
    identifier. *)
Variable fetchResource : string -> AppError + resource.

Inductive waited :=
| Empty                          (* [struct{}{}] *)
| Resource (r : resource)
| Failed (e : AppError).

(** Modelled from the spec: [WaitOperation] itself is not among the
    repository's files, only its tests are.  Given the operation the
    wait call returned: a server-declared error is surfaced with the
    server's message and status code, 503 standing in for a missing code;
    an operation that is not done is a 503 (the test
    [TestWaitOperationAndOperationIsNotDone]); a done operation is read by
    its kind: [delete] gives the empty result, whatever its target link
    says; [insert] is read by the identifier in the last path segment of
    its target link and fetches the resource of that name; an [insert]
    whose target link names nothing, and any other kind, is a decoding
    error.  The second component lists the identifiers fetched. *)
Definition WaitOperation (op : Operation) : waited * list string :=
  if Error op then
    (Failed {| Msg := HttpErrorMessage op;
               StatusCode := if decide (HttpErrorStatusCode op = 0)
                             then StatusServiceUnavailable
                             else HttpErrorStatusCode op |}, [])
  else if negb (bool_decide (Status op = "DONE")) then
    (Failed {| Msg := "Wait for operation timed out";
               StatusCode := StatusServiceUnavailable |}, [])
  else if decide (OperationType op = "delete") then (Empty, [])
  else if decide (OperationType op = "insert") then
    match resourceId (TargetLink op) with
    | Some id =>
        match fetchResource id with
        | inl e => (Failed e, [id])
        | inr r => (Resource r, [id])
        end
    | None =>
        (Failed {| Msg := "invalid target link";
                   StatusCode := StatusInternalServerError |}, [])
    end
  else (Failed {| Msg := "operation type not handled";
                  StatusCode := StatusInternalServerError |}, []).

End WaitOperation.

Arguments Empty {resource}.
Arguments Failed {resource} e.

(** *** Links *)

Lemma list_ascii_of_string_app (a b : string) :
  String.list_ascii_of_string (a +:+ b) =
  String.list_ascii_of_string a ++ String.list_ascii_of_string b.
Proof. induction a as [|c a IH]; simpl; [done|]. by rewrite IH. Qed.

Lemma untilSlash_app (l : list Ascii.ascii) (rest : list Ascii.ascii) :
  Forall (fun c => c <> Uploader.slash) l ->
  Uploader.untilSlash (l ++ Uploader.slash :: rest) = l.
Proof.
  induction l as [|c l IH]; simpl; intros Hl.
  - reflexivity.
  - apply Forall_cons in Hl as [Hc Hl].
    destruct (Ascii.eqb_spec c Uploader.slash); [done|]. by rewrite IH.
Qed.

(** The last segment of [base/id] is [id], when [id] has no slash. *)
Lemma lastSegment_join (base id : string) :
  Forall (fun c => c <> Uploader.slash) (String.list_ascii_of_string id) ->
  lastSegment (base +:+ "/" +:+ id) = id.
Proof.
  intros Hid. unfold lastSegment.
  rewrite !list_ascii_of_string_app, !rev_app_distr. simpl.
  rewrite <- app_assoc. simpl.
  rewrite untilSlash_app by (by apply Forall_rev).
  rewrite rev_involutive. apply String.string_of_list_ascii_of_string.
Qed.

(** A link that ends in a slash names nothing. *)
Lemma resourceId_trailing_slash (base : string) :
  resourceId (base +:+ "/") = None.
Proof.
  unfold resourceId, lastSegment.
  rewrite list_ascii_of_string_app, rev_app_distr. simpl. done.
Qed.

Lemma resourceId_join (base id : string) :
  id <> "" ->
  Forall (fun c => c <> Uploader.slash) (String.list_ascii_of_string id) ->
  resourceId (base +:+ "/" +:+ id) = Some id.
Proof.
  intros Hne Hid. unfold resourceId. rewrite lastSegment_join by done.
  by rewrite decide_False.
Qed.

Section Claims.

Context {resource : Type}.
Variable fetchResource : string -> AppError + resource.

(** C8.  An operation that is done and carries no error is read by its
    kind and by the identifier in the last path segment of its target
    link: [delete] gives the empty result and fetches nothing; [insert]
    with a target link that names a resource fetches the resource of that
    name and returns it; any other kind, and an [insert] whose target
    link has an empty last segment, gives an error and fetches nothing.
    The last segment of [base/id] is [id]. *)
Theorem WaitOperation_done (op : Operation) :
  Status op = "DONE" ->
  Error op = false ->
  (OperationType op = "delete" ->
   WaitOperation fetchResource op = (Empty, []))
  /\ (OperationType op = "insert" ->
      forall id, resourceId (TargetLink op) = Some id ->
      WaitOperation fetchResource op =
      (match fetchResource id with
       | inl e => Failed e
       | inr r => Resource r
       end, [id]))
  /\ ((OperationType op <> "delete" /\ OperationType op <> "insert")
      \/ (OperationType op = "insert"
          /\ resourceId (TargetLink op) = None) ->
      exists e, WaitOperation fetchResource op = (Failed e, []))
  /\ (forall base id,
        TargetLink op = base +:+ "/" +:+ id ->
        Forall (fun c => c <> Uploader.slash)
               (String.list_ascii_of_string id) ->
        resourceId (TargetLink op) =
        if decide (id = "") then None else Some id).
Proof.
  intros Hdone Herr. unfold WaitOperation. rewrite Herr, Hdone. simpl.
  split; [|split; [|split]].
  - intros Hkind. by rewrite decide_True.
  - intros Hkind id Hid.
    rewrite decide_False by (rewrite Hkind; discriminate).
    rewrite decide_True by done. rewrite Hid.
    by destruct (fetchResource id).
  - intros [[Hnd Hni]|[Hkind Hnone]].
    + rewrite !decide_False by done. eauto.
    + rewrite decide_False by (rewrite Hkind; discriminate).
      rewrite decide_True by done. rewrite Hnone. eauto.
  - intros base id -> Hid. unfold resourceId.
    by rewrite lastSegment_join.
Qed.

(** C9.  An operation that carries a server-declared error is surfaced
    as an error with the server's message, and with the server's status
    code, or 503 when the server gave none; nothing is fetched. *)
Theorem WaitOperation_failed (op : Operation) :
  Error op = true ->
  exists e,
    WaitOperation fetchResource op = (Failed e, [])
    /\ Msg e = HttpErrorMessage op
    /\ (HttpErrorStatusCode op <> 0 -> StatusCode e = HttpErrorStatusCode op)
    /\ (HttpErrorStatusCode op = 0 -> StatusCode e = 503).
Proof.
  intros Herr. unfold WaitOperation. rewrite Herr.
  eexists. split; [reflexivity|]. simpl. split; [done|].
  split; intros Hcode.
  - by rewrite decide_False.
  - by rewrite decide_True.
Qed.

End Claims.

(** *** The operations of the tests *)

Definition instanceLink : string :=
  "https://xyzzy.com/compute/v1/projects/google.com:test-project/zones/us-central1-a/instances/foo".

Definition createOperation : Operation :=
  {| Name := "operation-1"; OperationType := "insert";
     TargetLink := instanceLink; Status := "DONE"; Error := false;
     HttpErrorMessage := ""; HttpErrorStatusCode := 0 |}.

(** The operation of the spec's example: a delete that is done, with
    nothing else set. *)
Definition deleteOperation : Operation :=
  {| Name := EmptyString; OperationType := "delete";
     TargetLink := EmptyString; Status := "DONE"; Error := false;
     HttpErrorMessage := EmptyString; HttpErrorStatusCode := 0 |}.

Definition failedOperation : Operation :=
  {| Name := "operation-1"; OperationType := ""; TargetLink := "";
     Status := "DONE"; Error := true; HttpErrorMessage := "NOT FOUND";
     HttpErrorStatusCode := 404 |}.

(** The instances the test server knows, by name. *)
Definition instances (id : string) : AppError + string :=
  if decide (id = "foo") then inr "foo"
  else inl {| Msg := "not found"; StatusCode := 404 |}.

Lemma WaitOperation_done_witness :
  WaitOperation instances createOperation = (Resource "foo", ["foo"])
  /\ WaitOperation instances deleteOperation = (Empty, []).
Proof.
  split.
  - exact (proj1 (proj2 (WaitOperation_done instances createOperation
                           eq_refl eq_refl)) eq_refl "foo" eq_refl).
  - exact (proj1 (WaitOperation_done instances deleteOperation
                    eq_refl eq_refl) eq_refl).
Defined.

Lemma WaitOperation_failed_witness :
  exists e,
    WaitOperation instances failedOperation = (Failed e, [])
    /\ Msg e = "NOT FOUND" /\ StatusCode e = 404.
Proof.
  destruct (WaitOperation_failed instances failedOperation eq_refl)
    as (e & Hrun & Hmsg & Hcode & _).
  exists e. split; [exact Hrun|]. split; [exact Hmsg|].
  apply Hcode. discriminate.
Defined.

End Waiter.

(** ** The endpoints of the service *)

Module Endpoints.

Definition BuildRootEndpoint (serviceURL version zone : string) : string :=
  let result := (serviceURL +:+ "/") +:+ version in
  if decide (zone <> EmptyString) then result +:+ ("/zones/" +:+ zone)
  else result.

Definition BuildWebRTCStreamURL (rootEndpoint host cvd : string) : string :=
  rootEndpoint +:+ "/hosts/" +:+ host +:+ "/devices/" +:+ cvd
  +:+ "/files/client.html".

Definition BuildCVDLogsURL (rootEndpoint host cvd : string) : string :=
  rootEndpoint +:+ "/hosts/" +:+ host +:+ "/cvds/" +:+ cvd +:+ "/logs/".

Lemma append_cons x (a b : string) : String x a +:+ b = String x (a +:+ b).
Proof. reflexivity. Qed.

Lemma append_inv_head (a b c : string) : a +:+ b = a +:+ c -> b = c.
Proof.
  induction a as [|x a IH]; [done|]. rewrite !append_cons.
  intros [= H]. auto.
Qed.

Lemma append_length (a b : string) :
  String.length (a +:+ b) = (String.length a + String.length b)%nat.
Proof.
  induction a as [|x a IH]; [done|]. rewrite append_cons. simpl.
  by rewrite IH.
Qed.

Lemma append_assoc (a b c : string) : (a +:+ b) +:+ c = a +:+ (b +:+ c).
Proof.
  induction a as [|x a IH]; [done|]. rewrite !append_cons. by rewrite IH.
Qed.

(** X19.  [BuildRootEndpoint] for one service and version: without a
    zone the endpoint is [serviceURL/version]; with a zone it is that
    endpoint followed by [/zones/] and the zone; and two zones give the
    same endpoint only if they are the same zone, the case of no zone
    included. *)
Theorem BuildRootEndpoint_zones (serviceURL version : string) :
  BuildRootEndpoint serviceURL version EmptyString =
    serviceURL +:+ "/" +:+ version
  /\ (forall zone, zone <> EmptyString ->
        BuildRootEndpoint serviceURL version zone =
        BuildRootEndpoint serviceURL version EmptyString
        +:+ "/zones/" +:+ zone)
  /\ (forall zone1 zone2,
        BuildRootEndpoint serviceURL version zone1 =
        BuildRootEndpoint serviceURL version zone2 ->
        zone1 = zone2).
Proof.
  assert (Hnone : BuildRootEndpoint serviceURL version EmptyString =
                  (serviceURL +:+ "/") +:+ version).
  { reflexivity. }
  split; [rewrite Hnone; apply append_assoc|]. split.
  - intros zone Hz. rewrite Hnone. unfold BuildRootEndpoint. simpl.
    by rewrite decide_True.
  - intros zone1 zone2. unfold BuildRootEndpoint. simpl.
    set (root := (serviceURL +:+ "/") +:+ version).
    assert (Hne : forall z, root <> root +:+ String "/" z).
    { intros z Heq. apply (f_equal String.length) in Heq.
      rewrite append_length in Heq. simpl in Heq. lia. }
    destruct (decide (zone1 <> EmptyString)) as [H1|H1],
             (decide (zone2 <> EmptyString)) as [H2|H2]; intros Heq.
    + apply append_inv_head in Heq. by injection Heq.
    + symmetry in Heq. by destruct (Hne _ Heq).
    + by destruct (Hne _ Heq).
    + destruct (decide (zone1 = EmptyString)) as [->|Hz1]; [|by destruct H1].
      destruct (decide (zone2 = EmptyString)) as [->|Hz2]; [|by destruct H2].
      reflexivity.
Qed.

End Endpoints.

(** ** The configuration of the command line tool *)

Module Cli.

Import Int64.

Record GCPHostConfig := {
  MachineType : string;
  MinCPUPlatform : string
}.

Record HostConfig := {
  GCP : GCPHostConfig
}.

Record Config := {
  ServiceURL : string;
  Zone : string;
  HTTPProxy : string;
  ConnectionControlDir : string;
  KeepLogFilesDays : Z;
  Host : HostConfig
}.

(** [time.Hour], in nanoseconds. *)
Definition Hour : Z := 3600 * 1000000000.

(** [time.Duration(c.KeepLogFilesDays*24) * time.Hour]: a product of
    [int]s, then a product of [int64]s. *)
Definition LogFilesDeleteThreshold (c : Config) : Z :=
  mul64 (mul64 (KeepLogFilesDays c) 24) Hour.

Definition DefaultConfig : Config :=
  {| ServiceURL := EmptyString; Zone := EmptyString;
     HTTPProxy := EmptyString;
     ConnectionControlDir := "~/.cvdr/connections";
     KeepLogFilesDays := 30;
     Host := {| GCP := {| MachineType := EmptyString;
                          MinCPUPlatform := EmptyString |} |} |}.

Definition tilde : Ascii.ascii := "~"%char.

(** [strings.Contains(path, "~")]. *)
Fixpoint containsTilde (path : string) : bool :=
  match path with
  | EmptyString => false
  | String c rest => Ascii.eqb c tilde || containsTilde rest
  end.

(** [strings.ReplaceAll(path, "~", home)]. *)
Fixpoint replaceTilde (home path : string) : string :=
  match path with
  | EmptyString => EmptyString
  | String c rest =>
      if Ascii.eqb c tilde then home +:+ replaceTilde home rest
      else String c (replaceTilde home rest)
  end.

(** [expandPath]; [UserHomeDir] is what [os.UserHomeDir] returns,
    [None] when it fails, and the call then panics with a message that
    starts as below. *)
Definition expandPath (UserHomeDir : option string) (path : string)
    : Uploader.may_panic string :=
  if negb (containsTilde path) then Uploader.Done path
  else
    match UserHomeDir with
    | None => Uploader.Panic "Unable to expand path"
    | Some home => Uploader.Done (replaceTilde home path)
    end.

Definition ConnectionControlDirExpanded (UserHomeDir : option string)
    (c : Config) : Uploader.may_panic string :=
  expandPath UserHomeDir (ConnectionControlDir c).

Lemma containsTilde_app a b :
  containsTilde (a +:+ b) = containsTilde a || containsTilde b.
Proof.
  induction a as [|c a IH]; [done|].
  change (String c a +:+ b) with (String c (a +:+ b)). simpl.
  by rewrite IH, orb_assoc.
Qed.

Lemma replaceTilde_clean home path :
  containsTilde home = false -> containsTilde (replaceTilde home path) = false.
Proof.
  intros Hhome. induction path as [|c rest IH]; simpl; [done|].
  destruct (Ascii.eqb c tilde) eqn:Hc; simpl.
  - by rewrite containsTilde_app, Hhome, IH.
  - by rewrite Hc, IH.
Qed.

Lemma replaceTilde_id home path :
  containsTilde path = false -> replaceTilde home path = path.
Proof.
  induction path as [|c rest IH]; simpl; [done|].
  intros Hp. apply orb_false_iff in Hp as [Hc Hrest].
  by rewrite Hc, IH.
Qed.

(** X20.  [expandPath] with a home directory whose name holds no tilde:
    every tilde of the path, wherever it stands, is replaced by the home
    directory; the result holds no tilde, and expanding it again changes
    nothing and needs no home directory, so that it cannot panic.  A path
    without a tilde is returned as it is, home directory or not. *)
Theorem expandPath_idempotent (home path : string) :
  containsTilde home = false ->
  exists expanded,
    expandPath (Some home) path = Uploader.Done expanded
    /\ expanded = replaceTilde home path
    /\ containsTilde expanded = false
    /\ (containsTilde path = false -> expanded = path)
    /\ forall UserHomeDir,
         expandPath UserHomeDir expanded = Uploader.Done expanded.
Proof.
  intros Hhome. exists (replaceTilde home path).
  pose proof (replaceTilde_clean home path Hhome) as Hclean.
  split.
  - unfold expandPath. destruct (containsTilde path) eqn:Hp; simpl; [done|].
    by rewrite replaceTilde_id.
  - split; [done|]. split; [done|].
    split; [by apply replaceTilde_id|].
    intros h. unfold expandPath. by rewrite Hclean.
Qed.

Lemma expandPath_idempotent_witness :
  ConnectionControlDirExpanded (Some "/home/user") DefaultConfig =
    Uploader.Done "/home/user/.cvdr/connections"
  /\ expandPath None "/home/user/.cvdr/connections" =
       Uploader.Done "/home/user/.cvdr/connections".
Proof.
  destruct (expandPath_idempotent "/home/user" "~/.cvdr/connections" eq_refl)
    as (expanded & Hrun & -> & _ & _ & Hagain).
  split; [exact Hrun|exact (Hagain None)].
Defined.

(** X21.  [LogFilesDeleteThreshold] is [KeepLogFilesDays] days, in
    nanoseconds, as long as the number of days is at most 106751 either
    way; the default of 30 days is in that range.  One day more makes
    the product leave [int64]: the threshold for 106752 days is
    negative. *)
Theorem LogFilesDeleteThreshold_days (c : Config) :
  -106751 <= KeepLogFilesDays c <= 106751 ->
  LogFilesDeleteThreshold c = KeepLogFilesDays c * (24 * Hour)
  /\ (0 <= KeepLogFilesDays c -> 0 <= LogFilesDeleteThreshold c)
  /\ -106751 <= KeepLogFilesDays DefaultConfig <= 106751
  /\ forall c', KeepLogFilesDays c' = 106752 ->
       LogFilesDeleteThreshold c' < 0.
Proof.
  intros Hdays.
  assert (Heq : LogFilesDeleteThreshold c = KeepLogFilesDays c * (24 * Hour)).
  { unfold LogFilesDeleteThreshold, Hour in *.
    rewrite (mul64_small (KeepLogFilesDays c) 24)
      by (unfold in_range, min_int, max_int; lia).
    rewrite mul64_small by (unfold in_range, min_int, max_int; lia).
    lia. }
  split; [exact Heq|]. split; [rewrite Heq; unfold Hour; lia|].
  split; [simpl; lia|].
  intros c' Hc'. unfold LogFilesDeleteThreshold. rewrite Hc'. reflexivity.
Qed.

Lemma LogFilesDeleteThreshold_days_witness :
  LogFilesDeleteThreshold DefaultConfig = 30 * (24 * Hour).
Proof.
  exact (proj1 (LogFilesDeleteThreshold_days DefaultConfig
                  ltac:(simpl; lia))).
Defined.

End Cli.
